(** * ClauseBank: the bit-sliced clause bank of the Convolutional Tsetlin Machine

    A shallow embedding of [src/tmu/ClauseBank.c].

    - An [unsigned int] is a [Z] in [[0, 2^32)]; the wrap-around of the
      C operators is written out ([wnot], [wshl], [wdec]).
    - An array ([unsigned int *]) is a [list Z]; [a !!! i] reads a cell and
      [<[i:=v]> a] writes one.  The C code performs no bounds check (reading
      or writing out of range is undefined); here a read out of range yields
      [1], the default of [!!!] on [Z], and a write out of range does
      nothing, and the theorems that depend on a cell being there carry the
      length of the array as a hypothesis.
    - A pointer into an array ([&ta_state[clause_pos]]) is the array together
      with a base offset.
    - Sizes and indices are [nat]; the feature count [number_of_features] is
      the C [int], a [Z].  Index arithmetic is assumed not to overflow.
    - The generator of [fast_rand.h] is not part of the file: it is a stream
      of draws with a read position, and the floating-point tests made on a
      draw are parameters of the development. *)

From Stdlib Require Import ZArith List Lia Bool.
From stdpp Require Import base list.

Local Open Scope Z_scope.

Set Default Proof Using "Type".

(** ** Machine words *)

Definition word_max : Z := 4294967295.            (* 0xffffffff *)
Definition word_mod : Z := 4294967296.            (* 2^32 *)

Definition is_word (x : Z) : Prop := 0 <= x < word_mod.

(** [~x] on an [unsigned int]. *)
Definition wnot (x : Z) : Z := Z.land (Z.lnot x) word_max.

(** [!x]: the logical negation of C, [1] when [x] is zero and [0] otherwise. *)
Definition cnot (x : Z) : Z := if x =? 0 then 1 else 0.

(** [x << n] on an [unsigned int]. *)
Definition wshl (x n : Z) : Z := (Z.shiftl x n) mod word_mod.

(** [x - 1] on an [unsigned int]. *)
Definition wdec (x : Z) : Z := (x - 1) mod word_mod.

(** [0] or [1] as the value of a C condition. *)
Definition b2w (b : bool) : Z := if b then 1 else 0.

(** ** cb_inc and cb_dec *)

(** The first loop of [cb_inc]: planes [b], [b+1], ... ([n] of them) of the
    stripe that starts at [base]; it stops early when the carry is zero.
    Returns the array and the carry left. *)
Fixpoint cb_inc_loop (base : nat) (n b : nat) (ta_state : list Z) (carry : Z)
  : list Z * Z :=
  match n with
  | O => (ta_state, carry)
  | S n' =>
      if carry =? 0 then (ta_state, carry)
      else
        let carry_next := Z.land (ta_state !!! (base + b)%nat) carry in
        let ta_state' :=
          <[(base + b)%nat := Z.lxor (ta_state !!! (base + b)%nat) carry]> ta_state in
        cb_inc_loop base n' (S b) ta_state' carry_next
  end.

(** The second loop of [cb_inc]: [ta_state[b] |= carry] on every plane. *)
Fixpoint cb_inc_saturate (base : nat) (n b : nat) (ta_state : list Z) (carry : Z)
  : list Z :=
  match n with
  | O => ta_state
  | S n' =>
      cb_inc_saturate base n' (S b)
        (<[(base + b)%nat := Z.lor (ta_state !!! (base + b)%nat) carry]> ta_state) carry
  end.

Definition cb_inc (ta_state : list Z) (base : nat) (active : Z)
    (number_of_state_bits : nat) : list Z :=
  let '(ta_state', carry) :=
    cb_inc_loop base number_of_state_bits 0 ta_state active in
  if carry >? 0 then cb_inc_saturate base number_of_state_bits 0 ta_state' carry
  else ta_state'.

Fixpoint cb_dec_loop (base : nat) (n b : nat) (ta_state : list Z) (carry : Z)
  : list Z * Z :=
  match n with
  | O => (ta_state, carry)
  | S n' =>
      if carry =? 0 then (ta_state, carry)
      else
        let carry_next := Z.land (wnot (ta_state !!! (base + b)%nat)) carry in
        let ta_state' :=
          <[(base + b)%nat := Z.lxor (ta_state !!! (base + b)%nat) carry]> ta_state in
        cb_dec_loop base n' (S b) ta_state' carry_next
  end.

(** The second loop of [cb_dec]: [ta_state[b] &= ~carry] on every plane. *)
Fixpoint cb_dec_saturate (base : nat) (n b : nat) (ta_state : list Z) (carry : Z)
  : list Z :=
  match n with
  | O => ta_state
  | S n' =>
      cb_dec_saturate base n' (S b)
        (<[(base + b)%nat := Z.land (ta_state !!! (base + b)%nat) (wnot carry)]> ta_state)
        carry
  end.

Definition cb_dec (ta_state : list Z) (base : nat) (active : Z)
    (number_of_state_bits : nat) : list Z :=
  let '(ta_state', carry) :=
    cb_dec_loop base number_of_state_bits 0 ta_state active in
  if carry >? 0 then cb_dec_saturate base number_of_state_bits 0 ta_state' carry
  else ta_state'.

(** ** The counters of a stripe *)

(** Bit [i] of the planes [b .. b+n-1] of the stripe at [base], read as a
    number with plane [b] the least significant. *)
Fixpoint counter_from (a : list Z) (base : nat) (b n : nat) (i : Z) : Z :=
  match n with
  | O => 0
  | S n' => b2w (Z.testbit (a !!! (base + b)%nat) i)
            + 2 * counter_from a base (S b) n' i
  end.

(** The value of automaton [i] of the stripe of [B] words at [base]. *)
Definition counter (a : list Z) (base B : nat) (i : Z) : Z :=
  counter_from a base 0 B i.

(** ** The tail filter and the number of chunks *)

(** [filter], as every entry point computes it from [number_of_features]. *)
Definition cb_filter (number_of_features : Z) : Z :=
  if negb (Z.rem number_of_features 32 =? 0)
  then wnot (wshl word_max (Z.rem number_of_features 32))
  else word_max.

(** [(number_of_features-1)/32 + 1], with the division of C. *)
Definition number_of_ta_chunks (number_of_features : Z) : nat :=
  Z.to_nat (Z.quot (number_of_features - 1) 32 + 1).

(** ** The pseudo-random generator

    [fast_rand()] returns the next draw of a stream; [drawn] counts the
    draws taken so far. *)
Record rng : Type := { stream : nat -> Z; drawn : nat }.

Definition fast_rand (g : rng) : Z * rng :=
  (stream g (drawn g) mod word_mod, {| stream := stream g; drawn := S (drawn g) |}).

(** [n] successive draws thrown away. *)
Definition skip_draws (n : nat) (g : rng) : rng :=
  {| stream := stream g; drawn := (drawn g + n)%nat |}.

(** A generator for the examples: the draws are the elements of [l], then
    zeros. *)
Definition rng_of_list (l : list Z) : rng :=
  {| stream := fun n => nth n l 0; drawn := 0 |}.

(** ** Clause evaluation *)

Section Eval.

Variable ta_state : list Z.
(** [base] is the offset of the clause: the C code receives
    [&ta_state[clause_pos]]. *)
Variable base : nat.
Variable K : nat.                  (* number_of_ta_chunks *)
Variable B : nat.                  (* number_of_state_bits *)
Variable flt : Z.                  (* filter *)
Variable literal_active : list Z.
Variable Xi : list Z.

(** The word of action bits of chunk [k]: [ta_state[pos]] with
    [pos = k*number_of_state_bits + number_of_state_bits-1]. *)
Definition action_word (k : nat) : Z :=
  ta_state !!! (base + (k * B + B - 1))%nat.

(** The loop over the chunks before the tail in
    [cb_calculate_clause_output_update] and
    [cb_calculate_clause_output_feedback] (the two loops are the same text);
    it stops as soon as [output] is false. *)
Fixpoint masked_chunks (patch : nat) (n k : nat) (output : bool) : bool :=
  match n with
  | O => output
  | S n' =>
      let output' :=
        output &&
        (Z.land (action_word k)
                (Z.lor (Xi !!! (patch * K + k)%nat) (cnot (literal_active !!! k)))
         =? action_word k) in
      if negb output' then output'
      else masked_chunks patch n' (S k) output'
  end.

(** The body of the patch loop of the same two functions: the value of
    [output] after the tail chunk. *)
Definition masked_patch_output (patch : nat) : bool :=
  let output := masked_chunks patch (K - 1) 0 true in
  output &&
  (Z.land (Z.land (action_word (K - 1))
                  (Z.lor (Xi !!! (patch * K + K - 1)%nat)
                         (cnot (literal_active !!! (K - 1)%nat))))
          flt
   =? Z.land (action_word (K - 1)) flt).

Fixpoint update_patches (n patch : nat) : Z :=
  match n with
  | O => 0
  | S n' =>
      if masked_patch_output patch then 1
      else update_patches n' (S patch)
  end.

Definition cb_calculate_clause_output_update (number_of_patches : nat) : Z :=
  update_patches number_of_patches 0.

(** The patch loop of [cb_calculate_clause_output_feedback];
    [output_one_patches] is the part of the buffer written so far. *)
Fixpoint feedback_patches (n patch : nat) (output_one_patches : list nat)
  : list nat :=
  match n with
  | O => output_one_patches
  | S n' =>
      feedback_patches n' (S patch)
        (if masked_patch_output patch
         then output_one_patches ++ [patch]
         else output_one_patches)
  end.

(** Returns [clause_output], [clause_patch] and the generator.  When no
    patch matches, the C code leaves [*clause_patch] as it was, and no caller
    reads it; it is [0] here. *)
Definition cb_calculate_clause_output_feedback (number_of_patches : nat)
    (g : rng) : Z * nat * rng :=
  let output_one_patches := feedback_patches number_of_patches 0 [] in
  let output_one_patches_count := length output_one_patches in
  if (0 <? output_one_patches_count)%nat then
    let '(r, g') := fast_rand g in
    let patch_id := Z.to_nat (r mod Z.of_nat output_one_patches_count) in
    (1, nth patch_id output_one_patches 0%nat, g')
  else (0, 0%nat, g).

(** [offending_literals] of chunk [k] before the tail. *)
Definition offending_word (patch k : nat) : Z :=
  Z.lxor (Z.land (action_word k)
                 (Z.lor (Xi !!! (patch * K + k)%nat) (wnot (literal_active !!! k))))
         (action_word k).

(** [offending_literals] of the tail chunk. *)
Definition offending_tail (patch : nat) : Z :=
  Z.lxor (Z.land (Z.land (action_word (K - 1))
                         (Z.lor (Xi !!! (patch * K + K - 1)%nat)
                                (wnot (literal_active !!! (K - 1)%nat))))
                 flt)
         (Z.land (action_word (K - 1)) flt).

(** The loop over the chunks before the tail in
    [cb_calculate_clause_output_single_false_literal]; the state is
    [max_one_offending_literal], [already_one_offending_literal] and
    [offending_literal_id].  Both [break]s leave this loop only. *)
Fixpoint sfl_chunks (patch : nat) (n k : nat)
    (max_one already_one : bool) (id : Z) : bool * bool * Z :=
  match n with
  | O => (max_one, already_one, id)
  | S n' =>
      let offending_literals := offending_word patch k in
      if Z.land offending_literals (wdec offending_literals) >? 0 then
        (false, already_one, id)
      else if negb (offending_literals =? 0) then
        if negb already_one then
          sfl_chunks patch n' (S k) max_one true (Z.log2 offending_literals)
        else (false, already_one, id)
      else sfl_chunks patch n' (S k) max_one already_one id
  end.

(** The patch loop of the same function.  [candidates] is the part of
    [candidate_offending_literals] written so far; [offending_literal_id]
    is declared outside the loop and so is carried from patch to patch.
    In the tail chunk the two [break]s leave the patch loop. *)
Fixpoint sfl_patches (n patch : nat) (candidates : list Z) (id : Z) : list Z :=
  match n with
  | O => candidates
  | S n' =>
      let '(max_one, already_one, id1) :=
        sfl_chunks patch (K - 1) 0 true false id in
      let offending_literals := offending_tail patch in
      if Z.land offending_literals (wdec offending_literals) >? 0 then
        candidates
      else if negb (offending_literals =? 0) then
        if negb already_one then
          let id2 := Z.log2 offending_literals in
          sfl_patches n' (S patch)
            (if max_one && true then candidates ++ [id2] else candidates) id2
        else candidates
      else
        sfl_patches n' (S patch)
          (if max_one && already_one then candidates ++ [id1] else candidates) id1
  end.

Definition cb_calculate_clause_output_single_false_literal
    (number_of_patches : nat) (g : rng) : Z * rng :=
  let candidates := sfl_patches number_of_patches 0 [] 0 in
  let offending_literals_count := length candidates in
  if (0 <? offending_literals_count)%nat then
    let '(r, g') := fast_rand g in
    let offending_literal_pos := Z.to_nat (r mod Z.of_nat offending_literals_count) in
    (nth offending_literal_pos candidates 0, g')
  else (-1, g).

(** The loop over the chunks before the tail in
    [cb_calculate_clause_output_patchwise]. *)
Fixpoint patchwise_chunks (patch : nat) (n k : nat) (output : bool) : bool :=
  match n with
  | O => output
  | S n' =>
      let output' :=
        output &&
        (Z.land (action_word k) (Xi !!! (patch * K + k)%nat) =? action_word k) in
      if negb output' then output'
      else patchwise_chunks patch n' (S k) output'
  end.

Definition patchwise_patch_output (patch : nat) : bool :=
  let output := patchwise_chunks patch (K - 1) 0 true in
  output &&
  (Z.land (Z.land (action_word (K - 1)) (Xi !!! (patch * K + K - 1)%nat)) flt
   =? Z.land (action_word (K - 1)) flt).

(** [output] is the caller's buffer and [obase] the offset of the clause in
    it: the C code receives [&clause_output[j*number_of_patches]]. *)
Fixpoint patchwise_patches (n patch : nat) (output : list Z) (obase : nat)
  : list Z :=
  match n with
  | O => output
  | S n' =>
      patchwise_patches n' (S patch)
        (<[(obase + patch)%nat := b2w (patchwise_patch_output patch)]> output) obase
  end.

Definition cb_calculate_clause_output_patchwise (number_of_patches : nat)
    (output : list Z) (obase : nat) : list Z :=
  patchwise_patches number_of_patches 0 output obase.

(** The loop over the chunks before the tail in
    [cb_calculate_clause_output_predict]; the state is [output] and
    [all_exclude]. *)
Fixpoint predict_chunks (patch : nat) (n k : nat) (output all_exclude : bool)
  : bool * bool :=
  match n with
  | O => (output, all_exclude)
  | S n' =>
      let output' :=
        output &&
        (Z.land (action_word k) (Xi !!! (patch * K + k)%nat) =? action_word k) in
      if negb output' then (output', all_exclude)
      else predict_chunks patch n' (S k) output'
             (all_exclude && (action_word k =? 0))
  end.

Fixpoint predict_patches (n patch : nat) : Z :=
  match n with
  | O => 0
  | S n' =>
      let '(output, all_exclude) := predict_chunks patch (K - 1) 0 true true in
      let output' :=
        output &&
        (Z.land (Z.land (action_word (K - 1)) (Xi !!! (patch * K + K - 1)%nat)) flt
         =? Z.land (action_word (K - 1)) flt) in
      let all_exclude' :=
        all_exclude && (Z.land (action_word (K - 1)) flt =? 0) in
      if output' && (b2w all_exclude' =? 0) then 1
      else predict_patches n' (S patch)
  end.

Definition cb_calculate_clause_output_predict (number_of_patches : nat) : Z :=
  predict_patches number_of_patches 0.

End Eval.

(** ** Loops without [break] *)

(** [for (k = k0; k < k0 + n; ++k) a = body k a]. *)
Fixpoint for_range {A : Type} (n k : nat) (body : nat -> A -> A) (a : A) : A :=
  match n with
  | O => a
  | S n' => for_range n' (S k) body (body k a)
  end.

(** The same loop for a body that may fail. *)
Fixpoint for_range_opt {A : Type} (n k : nat) (body : nat -> A -> option A)
    (a : A) : option A :=
  match n with
  | O => Some a
  | S n' =>
      match body k a with
      | Some a' => for_range_opt n' (S k) body a'
      | None => None
      end
  end.

(** ** The entry points of evaluation *)

Definition cb_calculate_clause_outputs_predict (ta_state : list Z)
    (number_of_clauses : nat) (number_of_features : Z)
    (number_of_state_bits number_of_patches : nat)
    (clause_output : list Z) (Xi : list Z) : list Z :=
  let flt := cb_filter number_of_features in
  let K := number_of_ta_chunks number_of_features in
  for_range number_of_clauses 0
    (fun j clause_output =>
       let clause_pos := (j * K * number_of_state_bits)%nat in
       <[j := cb_calculate_clause_output_predict ta_state clause_pos K
                number_of_state_bits flt Xi number_of_patches]> clause_output)
    clause_output.

Definition cb_calculate_clause_outputs_update (ta_state : list Z)
    (number_of_clauses : nat) (number_of_features : Z)
    (number_of_state_bits number_of_patches : nat)
    (clause_output : list Z) (literal_active Xi : list Z) : list Z :=
  let flt := cb_filter number_of_features in
  let K := number_of_ta_chunks number_of_features in
  for_range number_of_clauses 0
    (fun j clause_output =>
       let clause_pos := (j * K * number_of_state_bits)%nat in
       <[j := cb_calculate_clause_output_update ta_state clause_pos K
                number_of_state_bits flt literal_active Xi number_of_patches]>
         clause_output)
    clause_output.

Definition cb_calculate_clause_outputs_patchwise (ta_state : list Z)
    (number_of_clauses : nat) (number_of_features : Z)
    (number_of_state_bits number_of_patches : nat)
    (clause_output : list Z) (Xi : list Z) : list Z :=
  let flt := cb_filter number_of_features in
  let K := number_of_ta_chunks number_of_features in
  for_range number_of_clauses 0
    (fun j clause_output =>
       let clause_pos := (j * K * number_of_state_bits)%nat in
       cb_calculate_clause_output_patchwise ta_state clause_pos K
         number_of_state_bits flt Xi number_of_patches clause_output
         (j * number_of_patches)%nat)
    clause_output.

(** ** cb_initialize_random_streams *)

(** The inner [while] of [cb_initialize_random_streams]: draw again as long
    as bit [f] of [feedback_to_ta] is set.  The C loop has no bound; [fuel]
    bounds the number of tests here, and [None] is a run that needs more. *)
Fixpoint redraw_feature (fuel : nat) (feedback_to_ta : list Z)
    (number_of_features : Z) (f : Z) (g : rng) : option (Z * rng) :=
  match fuel with
  | O => None
  | S fuel' =>
      if negb (Z.land (feedback_to_ta !!! Z.to_nat (f / 32)) (wshl 1 (f mod 32)) =? 0)
      then
        let '(r, g') := fast_rand g in
        redraw_feature fuel' feedback_to_ta number_of_features
          (r mod number_of_features) g'
      else Some (f, g)
  end.

(** [while (active--) { ... }]. *)
Fixpoint set_active_features (fuel : nat) (active : nat) (feedback_to_ta : list Z)
    (number_of_features : Z) (g : rng) : option (list Z * rng) :=
  match active with
  | O => Some (feedback_to_ta, g)
  | S active' =>
      let '(r, g1) := fast_rand g in
      match redraw_feature fuel feedback_to_ta number_of_features
              (r mod number_of_features) g1 with
      | None => None
      | Some (f, g2) =>
          set_active_features fuel active'
            (<[Z.to_nat (f / 32) :=
                 Z.lor (feedback_to_ta !!! Z.to_nat (f / 32)) (wshl 1 (f mod 32))]>
               feedback_to_ta)
            number_of_features g2
      end
  end.

(** ** Feedback

    The section holds the parameters of the development; it is closed after
    the properties. *)

Section ClauseBank.

(** The type [float] of C, and what [fast_rand.h] and the floating-point
    unit compute. *)
Variable float : Type.

(** [((float)r)/((float)FAST_RAND_MAX) > p] for a draw [r]. *)
Variable draw_gt : Z -> float -> bool.

(** [((float)r)/((float)FAST_RAND_MAX) <= (1.0 - 1.0/d)] for a draw [r]. *)
Variable draw_le_decay : Z -> float -> bool.

(** [normal(n * p, n * p * (1 - p))] with [p = 1.0 / s], converted to [int];
    it may use the generator. *)
Variable normal : Z -> float -> rng -> Z * rng.

(** [normal] does not wind the generator back.  Only the count of the draws
    of Type I rests on it. *)
Hypothesis normal_forward :
  forall n s g, (drawn g <= drawn (snd (normal n s g)))%nat.

(** The buffer [feedback_to_ta] is cleared first, so the result does not
    depend on what it held. *)
Definition cb_initialize_random_streams (fuel : nat) (number_of_features : Z)
    (number_of_ta_chunks : nat) (s : float) (g : rng) : option (list Z * rng) :=
  let feedback_to_ta := replicate number_of_ta_chunks 0 in
  let n := number_of_features in
  let '(active, g1) := normal n s g in
  let active := if active >=? n then n else active in
  let active := if active <? 0 then 0 else active in
  set_active_features fuel (Z.to_nat active) feedback_to_ta number_of_features g1.

(** Type Ia: the body of the loop over the chunks. *)
Definition type_ia_chunk (clause_pos K B : nat) (boost_true_positive_feedback : Z)
    (literal_active Xi feedback_to_ta : list Z) (clause_patch : nat)
    (k : nat) (ta_state : list Z) : list Z :=
  let ta_pos := (k * B)%nat in
  let ta_state1 :=
    if boost_true_positive_feedback =? 1 then
      cb_inc ta_state (clause_pos + ta_pos)
        (Z.land (literal_active !!! k) (Xi !!! (clause_patch * K + k)%nat)) B
    else
      cb_inc ta_state (clause_pos + ta_pos)
        (Z.land (Z.land (literal_active !!! k) (Xi !!! (clause_patch * K + k)%nat))
                (wnot (feedback_to_ta !!! k))) B in
  cb_dec ta_state1 (clause_pos + ta_pos)
    (Z.land (Z.land (literal_active !!! k)
                    (wnot (Xi !!! (clause_patch * K + k)%nat)))
            (feedback_to_ta !!! k)) B.

(** Type Ib: the body of the loop over the chunks. *)
Definition type_ib_chunk (clause_pos B : nat) (literal_active feedback_to_ta : list Z)
    (k : nat) (ta_state : list Z) : list Z :=
  let ta_pos := (k * B)%nat in
  cb_dec ta_state (clause_pos + ta_pos)
    (Z.land (literal_active !!! k) (feedback_to_ta !!! k)) B.

(** The body of the clause loop of [cb_type_i_feedback]. *)
Definition type_i_clause (fuel : nat) (number_of_features : Z)
    (number_of_state_bits number_of_patches : nat) (update_p s : float)
    (boost_true_positive_feedback : Z) (clause_active literal_active Xi : list Z)
    (j : nat) (st : list Z * rng) : option (list Z * rng) :=
  let '(ta_state, g) := st in
  let flt := cb_filter number_of_features in
  let K := number_of_ta_chunks number_of_features in
  let '(r, g1) := fast_rand g in
  if draw_gt r update_p || (clause_active !!! j =? 0) then Some (ta_state, g1)
  else
    let clause_pos := (j * K * number_of_state_bits)%nat in
    let '(clause_output, clause_patch, g2) :=
      cb_calculate_clause_output_feedback ta_state clause_pos K
        number_of_state_bits flt literal_active Xi number_of_patches g1 in
    match cb_initialize_random_streams fuel number_of_features K s g2 with
    | None => None
    | Some (feedback_to_ta, g3) =>
        if negb (clause_output =? 0) then
          Some (for_range K 0
                  (type_ia_chunk clause_pos K number_of_state_bits
                     boost_true_positive_feedback literal_active Xi
                     feedback_to_ta clause_patch)
                  ta_state, g3)
        else
          Some (for_range K 0
                  (type_ib_chunk clause_pos number_of_state_bits
                     literal_active feedback_to_ta)
                  ta_state, g3)
    end.

Definition cb_type_i_feedback (fuel : nat) (ta_state : list Z)
    (number_of_clauses : nat) (number_of_features : Z)
    (number_of_state_bits number_of_patches : nat) (update_p s : float)
    (boost_true_positive_feedback : Z) (clause_active literal_active Xi : list Z)
    (g : rng) : option (list Z * rng) :=
  for_range_opt number_of_clauses 0
    (type_i_clause fuel number_of_features number_of_state_bits
       number_of_patches update_p s boost_true_positive_feedback
       clause_active literal_active Xi)
    (ta_state, g).

(** The mask of the increment of Type II in chunk [k]. *)
Definition type_ii_mask (clause_pos K B : nat) (literal_active Xi : list Z)
    (clause_patch : nat) (k : nat) (ta_state : list Z) : Z :=
  let ta_pos := (k * B)%nat in
  Z.land (Z.land (literal_active !!! k)
                 (wnot (Xi !!! (clause_patch * K + k)%nat)))
         (wnot (ta_state !!! (clause_pos + ta_pos + B - 1)%nat)).

(** Type II: the body of the loop over the chunks. *)
Definition type_ii_chunk (clause_pos K B : nat) (literal_active Xi : list Z)
    (clause_patch : nat) (k : nat) (ta_state : list Z) : list Z :=
  let ta_pos := (k * B)%nat in
  cb_inc ta_state (clause_pos + ta_pos)
    (type_ii_mask clause_pos K B literal_active Xi clause_patch k ta_state) B.

(** The body of the clause loop of [cb_type_ii_feedback]. *)
Definition type_ii_clause (number_of_features : Z)
    (number_of_state_bits number_of_patches : nat) (update_p : float)
    (clause_active literal_active Xi : list Z)
    (j : nat) (st : list Z * rng) : list Z * rng :=
  let '(ta_state, g) := st in
  let flt := cb_filter number_of_features in
  let K := number_of_ta_chunks number_of_features in
  let '(r, g1) := fast_rand g in
  if draw_gt r update_p || (clause_active !!! j =? 0) then (ta_state, g1)
  else
    let clause_pos := (j * K * number_of_state_bits)%nat in
    let '(clause_output, clause_patch, g2) :=
      cb_calculate_clause_output_feedback ta_state clause_pos K
        number_of_state_bits flt literal_active Xi number_of_patches g1 in
    if negb (clause_output =? 0) then
      (for_range K 0
         (type_ii_chunk clause_pos K number_of_state_bits literal_active Xi
            clause_patch)
         ta_state, g2)
    else (ta_state, g2).

Definition cb_type_ii_feedback (ta_state : list Z)
    (number_of_clauses : nat) (number_of_features : Z)
    (number_of_state_bits number_of_patches : nat) (update_p : float)
    (clause_active literal_active Xi : list Z)
    (g : rng) : list Z * rng :=
  for_range number_of_clauses 0
    (type_ii_clause number_of_features number_of_state_bits number_of_patches
       update_p clause_active literal_active Xi)
    (ta_state, g).

(** The three arrays a feedback call may update. *)
Record bank : Type := {
  ta_state : list Z;
  ind_state : list Z;
  clause_and_target : list Z
}.

(** Type III, clause true and target set: the increment of [ind_state] in
    chunk [k]. *)
Definition type_iii_inc_chunk (j clause_pos_ind K B_ind : nat)
    (literal_active Xi clause_and_target : list Z) (clause_patch : nat)
    (k : nat) (ind_state : list Z) : list Z :=
  let ind_pos := (k * B_ind)%nat in
  cb_inc ind_state (clause_pos_ind + ind_pos)
    (Z.land (Z.land (literal_active !!! k) (clause_and_target !!! (j * K + k)%nat))
            (Xi !!! (clause_patch * K + k)%nat)) B_ind.

(** Type III, clause true: the decrement of [ind_state] in chunk [k]. *)
Definition type_iii_dec_chunk (j clause_pos_ind K B_ind : nat)
    (literal_active Xi clause_and_target : list Z) (clause_patch : nat)
    (k : nat) (ind_state : list Z) : list Z :=
  let ind_pos := (k * B_ind)%nat in
  cb_dec ind_state (clause_pos_ind + ind_pos)
    (Z.land (Z.land (literal_active !!! k)
                    (wnot (clause_and_target !!! (j * K + k)%nat)))
            (Xi !!! (clause_patch * K + k)%nat)) B_ind.

(** Type III, clause true: "invert literals" in chunk [k]. *)
Definition type_iii_invert_chunk (j K : nat) (target : Z)
    (k : nat) (clause_and_target : list Z) : list Z :=
  let remove :=
    if negb (target =? 0) then clause_and_target !!! (j * K + k)%nat else 0 in
  let add := wnot (clause_and_target !!! (j * K + k)%nat) in
  let clause_and_target1 :=
    <[(j * K + k)%nat := Z.lor (clause_and_target !!! (j * K + k)%nat) add]>
      clause_and_target in
  <[(j * K + k)%nat := Z.land (clause_and_target1 !!! (j * K + k)%nat) (wnot remove)]>
    clause_and_target1.

(** Type III, clause false: the update of the ledger at the offending
    literal. *)
Definition type_iii_toggle (j K : nat) (target : Z) (offending_literal : Z)
    (clause_and_target : list Z) : list Z :=
  if negb (offending_literal =? -1) then
    let ta_chunk := Z.to_nat (offending_literal / 32) in
    let ta_pos := offending_literal mod 32 in
    if Z.land (clause_and_target !!! (j * K + ta_chunk)%nat) (wshl 1 ta_pos) =? 0 then
      <[(j * K + ta_chunk)%nat :=
          Z.lor (clause_and_target !!! (j * K + ta_chunk)%nat) (wshl 1 ta_pos)]>
        clause_and_target
    else if negb (target =? 0) then
      <[(j * K + ta_chunk)%nat :=
          Z.land (clause_and_target !!! (j * K + ta_chunk)%nat)
                 (wnot (wshl 1 ta_pos))]>
        clause_and_target
    else clause_and_target
  else clause_and_target.

(** The mask of the last decrement of Type III in chunk [k]. *)
Definition type_iii_mask (clause_pos_ind B_ind : nat) (literal_active : list Z)
    (ind_state : list Z) (k : nat) : Z :=
  let ind_pos := (k * B_ind)%nat in
  Z.land (literal_active !!! k)
         (wnot (ind_state !!! (clause_pos_ind + ind_pos + B_ind - 1)%nat)).

(** Type III: the last loop over the chunks, on [ta_state]. *)
Definition type_iii_ta_chunk (clause_pos_ta clause_pos_ind B_ta B_ind : nat)
    (literal_active ind_state : list Z) (k : nat) (ta_state : list Z) : list Z :=
  let ta_pos := (k * B_ta)%nat in
  cb_dec ta_state (clause_pos_ta + ta_pos)
    (type_iii_mask clause_pos_ind B_ind literal_active ind_state k) B_ta.

(** The body of the clause loop of [cb_type_iii_feedback]. *)
Definition type_iii_clause (number_of_features : Z)
    (number_of_state_bits_ta number_of_state_bits_ind number_of_patches : nat)
    (update_p d : float) (clause_active literal_active Xi : list Z) (target : Z)
    (j : nat) (st : bank * rng) : bank * rng :=
  let '(bk, g) := st in
  let flt := cb_filter number_of_features in
  let K := number_of_ta_chunks number_of_features in
  if clause_active !!! j =? 0 then (bk, g)
  else
    let clause_pos_ta := (j * K * number_of_state_bits_ta)%nat in
    let clause_pos_ind := (j * K * number_of_state_bits_ind)%nat in
    let '(clause_output, clause_patch, g1) :=
      cb_calculate_clause_output_feedback (ta_state bk) clause_pos_ta K
        number_of_state_bits_ta flt literal_active Xi number_of_patches g in
    let '(ind1, cat1, g2) :=
      if negb (clause_output =? 0) then
        let '(ind_a, g_a) :=
          if negb (target =? 0) then
            let '(r, g') := fast_rand g1 in
            if draw_le_decay r d then
              (for_range K 0
                 (type_iii_inc_chunk j clause_pos_ind K number_of_state_bits_ind
                    literal_active Xi (clause_and_target bk) clause_patch)
                 (ind_state bk), g')
            else (ind_state bk, g')
          else (ind_state bk, g1) in
        let ind_b :=
          for_range K 0
            (type_iii_dec_chunk j clause_pos_ind K number_of_state_bits_ind
               literal_active Xi (clause_and_target bk) clause_patch)
            ind_a in
        let cat_b :=
          for_range K 0 (type_iii_invert_chunk j K target) (clause_and_target bk) in
        (ind_b, cat_b, g_a)
      else (ind_state bk, clause_and_target bk, g1) in
    let '(cat2, g3) :=
      if clause_output =? 0 then
        let '(offending_literal, g') :=
          cb_calculate_clause_output_single_false_literal (ta_state bk)
            clause_pos_ta K number_of_state_bits_ta flt literal_active Xi
            number_of_patches g2 in
        (type_iii_toggle j K target offending_literal cat1, g')
      else (cat1, g2) in
    let '(r, g4) := fast_rand g3 in
    if draw_gt r update_p || (clause_active !!! j =? 0) then
      ({| ta_state := ta_state bk; ind_state := ind1; clause_and_target := cat2 |}, g4)
    else
      ({| ta_state :=
            for_range K 0
              (type_iii_ta_chunk clause_pos_ta clause_pos_ind
                 number_of_state_bits_ta number_of_state_bits_ind
                 literal_active ind1)
              (ta_state bk);
          ind_state := ind1;
          clause_and_target := cat2 |}, g4).

Definition cb_type_iii_feedback (bk : bank)
    (number_of_clauses : nat) (number_of_features : Z)
    (number_of_state_bits_ta number_of_state_bits_ind number_of_patches : nat)
    (update_p d : float) (clause_active literal_active Xi : list Z) (target : Z)
    (g : rng) : bank * rng :=
  for_range number_of_clauses 0
    (type_iii_clause number_of_features number_of_state_bits_ta
       number_of_state_bits_ind number_of_patches update_p d
       clause_active literal_active Xi target)
    (bk, g).

(** *** A feedback call on a bank

    The driver holds the three arrays and calls one of the three entry
    points; [cb_type_i_feedback] and [cb_type_ii_feedback] receive
    [ta_state] only. *)
Inductive feedback_call : Type :=
| TypeI (fuel : nat) (update_p s : float) (boost_true_positive_feedback : Z)
| TypeII (update_p : float)
| TypeIII (number_of_state_bits_ind : nat) (update_p d : float) (target : Z).

Definition run_feedback (call : feedback_call) (bk : bank)
    (number_of_clauses : nat) (number_of_features : Z)
    (number_of_state_bits number_of_patches : nat)
    (clause_active literal_active Xi : list Z) (g : rng) : option (bank * rng) :=
  match call with
  | TypeI fuel update_p s boost =>
      match cb_type_i_feedback fuel (ta_state bk) number_of_clauses
              number_of_features number_of_state_bits number_of_patches
              update_p s boost clause_active literal_active Xi g with
      | Some (ta', g') =>
          Some ({| ta_state := ta'; ind_state := ind_state bk;
                   clause_and_target := clause_and_target bk |}, g')
      | None => None
      end
  | TypeII update_p =>
      let '(ta', g') :=
        cb_type_ii_feedback (ta_state bk) number_of_clauses number_of_features
          number_of_state_bits number_of_patches update_p
          clause_active literal_active Xi g in
      Some ({| ta_state := ta'; ind_state := ind_state bk;
               clause_and_target := clause_and_target bk |}, g')
  | TypeIII number_of_state_bits_ind update_p d target =>
      Some (cb_type_iii_feedback bk number_of_clauses number_of_features
              number_of_state_bits number_of_state_bits_ind number_of_patches
              update_p d clause_active literal_active Xi target g)
  end.

(** ** Sequences of counter updates *)

(** A call of [cb_inc] or of [cb_dec] with its mask. *)
Inductive counter_op : Type :=
| OpInc (active : Z)
| OpDec (active : Z).

Definition op_mask (op : counter_op) : Z :=
  match op with OpInc m => m | OpDec m => m end.

Definition run_op (base B : nat) (a : list Z) (op : counter_op) : list Z :=
  match op with
  | OpInc m => cb_inc a base m B
  | OpDec m => cb_dec a base m B
  end.

(** The calls of [ops] one after the other, on the stripe at [base]. *)
Definition run_ops (base B : nat) (ops : list counter_op) (a : list Z) : list Z :=
  fold_left (run_op base B) ops a.

(** What a call does to the value [v] of automaton [i], as a number. *)
Definition saturating_step (B : nat) (i : Z) (v : Z) (op : counter_op) : Z :=
  match op with
  | OpInc m => if Z.testbit m i then Z.min (v + 1) (2 ^ Z.of_nat B - 1) else v
  | OpDec m => if Z.testbit m i then Z.max (v - 1) 0 else v
  end.

(** ** Matching, bit by bit *)

(** The per-chunk input of the match test of [cb_calculate_clause_output_update]
    and [cb_calculate_clause_output_feedback], as the code forms it. *)
Definition masked_input (K : nat) (literal_active Xi : list Z) (patch k : nat) : Z :=
  Z.lor (Xi !!! (patch * K + k)%nat) (cnot (literal_active !!! k)).

(** A patch matches a clause for the per-chunk input [X] when every action
    bit that is set (in the tail chunk: every one under [flt]) is set in
    [X] too. *)
Definition patch_matches (ta_state : list Z) (base K B : nat) (flt : Z)
    (X : nat -> Z) : Prop :=
  forall (k : nat) (i : Z),
    (k < K)%nat -> 0 <= i ->
    (k = (K - 1)%nat -> Z.testbit flt i = true) ->
    Z.testbit (action_word ta_state base B k) i = true ->
    Z.testbit (X k) i = true.

(** ** Counting offending bits *)

(** The number of bits set among the low [n] bits of [x]. *)
Fixpoint popcount_upto (n : nat) (x : Z) : nat :=
  match n with
  | O => O
  | S n' => (popcount_upto n' x + if Z.testbit x (Z.of_nat n') then 1 else 0)%nat
  end.

Definition popcount (x : Z) : nat := popcount_upto 32 x.

(** [offending_literals] of chunk [k] of the stripe, the tail chunk
    included. *)
Definition offending_literals (ta_state : list Z) (base K B : nat) (flt : Z)
    (literal_active Xi : list Z) (patch k : nat) : Z :=
  if (k =? K - 1)%nat
  then offending_tail ta_state base K B flt literal_active Xi patch
  else offending_word ta_state base K B literal_active Xi patch k.

(** The number of offending bits of a patch in the chunks [k .. k+n-1]. *)
Fixpoint popcount_chunks (ta_state : list Z) (base K B : nat) (flt : Z)
    (literal_active Xi : list Z) (patch : nat) (n k : nat) : nat :=
  match n with
  | O => O
  | S n' =>
      (popcount (offending_literals ta_state base K B flt literal_active Xi patch k)
       + popcount_chunks ta_state base K B flt literal_active Xi patch n' (S k))%nat
  end.

(** The number of offending bits of a patch across the stripe. *)
Definition stripe_popcount (ta_state : list Z) (base K B : nat) (flt : Z)
    (literal_active Xi : list Z) (patch : nat) : nat :=
  popcount_chunks ta_state base K B flt literal_active Xi patch K 0.

(** Bit [c] of some chunk is the only offending bit of that chunk. *)
Definition offending_at (ta_state : list Z) (base K B : nat) (flt : Z)
    (literal_active Xi : list Z) (patch : nat) (c : Z) : Prop :=
  exists k, (k < K)%nat
    /\ offending_literals ta_state base K B flt literal_active Xi patch k = 2 ^ c.

(** The index [c] collected for a patch with one offending bit: it is
    below [F], and when the offending bit is among the first 32 literals,
    [c] is that literal. *)
Definition collected_index (ta_state : list Z) (base K B : nat) (flt : Z)
    (literal_active Xi : list Z) (F : Z) (patch : nat) (c : Z) : Prop :=
  0 <= c < F
  /\ (offending_literals ta_state base K B flt literal_active Xi patch 0 <> 0 ->
      offending_literals ta_state base K B flt literal_active Xi patch 0 = 2 ^ c).

(** ** Active clauses *)

(** The number of clauses [j] in [k .. k+n-1] with [clause_active[j]] not
    zero. *)
Definition active_clauses (clause_active : list Z) (k n : nat) : nat :=
  length (List.filter (fun j => negb (clause_active !!! j =? 0)) (seq k n)).

(** ** Selection of a clause *)

(** The selection of clause [j] by Type I and Type II when the generator is
    [g]: the draw passes the test on [update_p] and the clause is active. *)
Definition selected (up : float) (ca : list Z) (j : nat) (g : rng) : bool :=
  negb (draw_gt (fst (fast_rand g)) up) && negb (ca !!! j =? 0).

(** ** An instance for the examples

    The type [float] is [Z]; a draw is compared as it is with the bound. *)

(** [draw_gt r p]: the draw is above the bound [p]. *)
Definition threshold_gt (r p : Z) : bool := r >? p.

(** [draw_le_decay r d]: the draw is at most the bound [d]. *)
Definition threshold_le (r d : Z) : bool := r <=? d.

(** [normal]: one draw, reduced to [[0, n]]. *)
Definition example_normal (n s : Z) (g : rng) : Z * rng :=
  (fst (fast_rand g) mod (n + 1), snd (fast_rand g)).

(** ** cb_calculate_literal_frequency *)

(** The body of the inner loop: literal [k] of clause [j]. *)
Definition literal_frequency_step (ta_state : list Z) (K B : nat) (j k : nat)
    (literal_count : list Z) : list Z :=
  let ta_chunk := (k / 32)%nat in
  let chunk_pos := (k mod 32)%nat in
  let pos := (j * K * B + ta_chunk * B + B - 1)%nat in
  if Z.land (ta_state !!! pos) (wshl 1 (Z.of_nat chunk_pos)) >? 0
  then <[k := (literal_count !!! k + 1) mod word_mod]> literal_count
  else literal_count.

Definition cb_calculate_literal_frequency (ta_state : list Z)
    (number_of_clauses : nat) (number_of_features : Z)
    (number_of_state_bits : nat) (literal_count : list Z) : list Z :=
  let K := number_of_ta_chunks number_of_features in
  let n := Z.to_nat number_of_features in
  let literal_count0 :=
    for_range n 0 (fun k lc => <[k := 0]> lc) literal_count in
  for_range number_of_clauses 0
    (fun j lc => for_range n 0 (literal_frequency_step ta_state K number_of_state_bits j) lc)
    literal_count0.

(** The number of clauses among the first [C] whose action bit of literal
    [k] is set. *)
Definition including_clauses (ta_state : list Z) (K B : nat) (C k : nat) : nat :=
  length
    (List.filter
       (fun j => Z.testbit (ta_state !!! (j * K * B + (k / 32) * B + B - 1)%nat)
                   (Z.of_nat (k mod 32)))
       (seq 0 C)).

(** ** Counting the bits of a mask *)

(** The number of bits set in the words of [l]. *)
Fixpoint total_bits (l : list Z) : nat :=
  match l with
  | [] => O
  | x :: r => (popcount x + total_bits r)%nat
  end.

(** The per-chunk input of PredictEval and PatchwiseEval. *)
Definition plain_input (K : nat) (Xi : list Z) (patch k : nat) : Z :=
  Xi !!! (patch * K + k)%nat.

(** Every action bit of the clause is zero, the tail chunk under [flt]. *)
Definition all_exclude (ta_state : list Z) (base K B : nat) (flt : Z) : Prop :=
  (forall k, (k < K - 1)%nat -> action_word ta_state base B k = 0)
  /\ Z.land (action_word ta_state base B (K - 1)) flt = 0.

(** ** The random mask

    The words of [fb] are 32-bit words in which only bits of features below
    [F] are set. *)
Definition mask_within (F : Z) (fb : list Z) : Prop :=
  Forall is_word fb
  /\ forall (c : nat) (i : Z),
       (c < length fb)%nat -> 0 <= i -> Z.testbit (fb !!! c) i = true ->
       i < 32 /\ 32 * Z.of_nat c + i < F.

(** The feature that the [m]-th next draw of [g] names:
    [fast_rand() % number_of_features]. *)
Definition drawn_feature (F : Z) (g : rng) (m : nat) : Z :=
  (stream g (drawn g + m)%nat mod word_mod) mod F.

(** [active] after the two clamps of [cb_initialize_random_streams]. *)
Definition clamp_active (active F : Z) : nat :=
  Z.to_nat (let active := if active >=? F then F else active in
            if active <? 0 then 0 else active).

(** * Properties *)

(** ** Words and bits *)

Lemma b2w_range (b : bool) : 0 <= b2w b <= 1.
Proof. destruct b; simpl; lia. Qed.

Lemma word_max_ones : word_max = Z.ones 32.
Proof. reflexivity. Qed.

Lemma testbit_word_max (i : Z) :
  Z.testbit word_max i = (0 <=? i) && (i <? 32).
Proof.
  rewrite word_max_ones.
  destruct (Z.leb_spec 0 i) as [Hi|Hi]; simpl.
  - destruct (Z.ltb_spec i 32) as [Hj|Hj].
    + apply Z.ones_spec_low; lia.
    + apply Z.ones_spec_high; lia.
  - apply Z.testbit_neg_r; lia.
Qed.

Lemma testbit_wnot (x i : Z) :
  Z.testbit (wnot x) i = negb (Z.testbit x i) && ((0 <=? i) && (i <? 32)).
Proof.
  unfold wnot. rewrite Z.land_spec, testbit_word_max.
  destruct (Z.leb_spec 0 i) as [Hi|Hi]; simpl.
  - rewrite Z.lnot_spec by lia. reflexivity.
  - rewrite !andb_false_r. reflexivity.
Qed.

Lemma testbit_wnot_low (x i : Z) :
  0 <= i < 32 -> Z.testbit (wnot x) i = negb (Z.testbit x i).
Proof.
  intros Hi. rewrite testbit_wnot.
  destruct (Z.leb_spec 0 i); destruct (Z.ltb_spec i 32); try lia.
  simpl. apply andb_true_r.
Qed.

Lemma is_word_land_max (x : Z) : is_word (Z.land x word_max).
Proof.
  rewrite word_max_ones, Z.land_ones by lia.
  unfold is_word, word_mod. change 4294967296 with (2 ^ 32).
  apply Z.mod_pos_bound. lia.
Qed.

Lemma wnot_word (x : Z) : is_word (wnot x).
Proof. apply is_word_land_max. Qed.

Lemma is_word_land_id (x : Z) : is_word x -> Z.land x word_max = x.
Proof.
  intros Hx. rewrite word_max_ones, Z.land_ones by lia.
  apply Z.mod_small. exact Hx.
Qed.

Lemma is_word_testbit_high (x i : Z) :
  is_word x -> 32 <= i -> Z.testbit x i = false.
Proof.
  intros Hx Hi. rewrite <- (is_word_land_id x Hx).
  rewrite Z.land_spec, testbit_word_max.
  destruct (Z.ltb_spec i 32); lia.
Qed.

Lemma is_word_land_r (x y : Z) : is_word y -> is_word (Z.land x y).
Proof.
  intros Hy. rewrite <- (is_word_land_id y Hy), Z.land_assoc.
  apply is_word_land_max.
Qed.

Lemma is_word_land_l (x y : Z) : is_word x -> is_word (Z.land x y).
Proof. rewrite Z.land_comm. apply is_word_land_r. Qed.

Lemma is_word_lxor (x y : Z) : is_word x -> is_word y -> is_word (Z.lxor x y).
Proof.
  intros Hx Hy.
  replace (Z.lxor x y) with (Z.land (Z.lxor x y) word_max).
  - apply is_word_land_max.
  - apply Z.bits_inj'. intros i Hi.
    rewrite Z.land_spec, Z.lxor_spec, testbit_word_max.
    destruct (Z.ltb_spec i 32).
    + destruct (Z.leb_spec 0 i); try lia. apply andb_true_r.
    + rewrite (is_word_testbit_high x), (is_word_testbit_high y) by (assumption || lia).
      reflexivity.
Qed.

Lemma is_word_lor (x y : Z) : is_word x -> is_word y -> is_word (Z.lor x y).
Proof.
  intros Hx Hy.
  replace (Z.lor x y) with (Z.land (Z.lor x y) word_max).
  - apply is_word_land_max.
  - apply Z.bits_inj'. intros i Hi.
    rewrite Z.land_spec, Z.lor_spec, testbit_word_max.
    destruct (Z.ltb_spec i 32).
    + destruct (Z.leb_spec 0 i); try lia. apply andb_true_r.
    + rewrite (is_word_testbit_high x), (is_word_testbit_high y) by (assumption || lia).
      reflexivity.
Qed.

(** ** Counters *)

Lemma counter_from_ext (a a' : list Z) (base : nat) (i : Z) :
  forall n b,
    (forall idx, (base + b <= idx < base + b + n)%nat -> a !!! idx = a' !!! idx) ->
    counter_from a base b n i = counter_from a' base b n i.
Proof.
  induction n as [|n IH]; intros b H; simpl; [reflexivity|].
  rewrite (H (base + b)%nat) by lia.
  rewrite (IH (S b)); [reflexivity|].
  intros idx Hidx. apply H. lia.
Qed.

Lemma counter_from_range (a : list Z) (base : nat) (i : Z) :
  forall n b, 0 <= counter_from a base b n i < 2 ^ Z.of_nat n.
Proof.
  induction n as [|n IH]; intros b.
  - simpl. lia.
  - cbn [counter_from]. specialize (IH (S b)).
    pose proof (b2w_range (Z.testbit (a !!! (base + b)%nat) i)).
    rewrite Nat2Z.inj_succ, Z.pow_succ_r by lia. lia.
Qed.

Lemma counter_range (a : list Z) (base B : nat) (i : Z) :
  0 <= counter a base B i <= 2 ^ Z.of_nat B - 1.
Proof. pose proof (counter_from_range a base i B 0). unfold counter. lia. Qed.

(** The top plane is the most significant bit of the counter. *)
Lemma counter_from_top (a : list Z) (base : nat) (i : Z) :
  forall n b,
    Z.testbit (a !!! (base + b + n)%nat) i
    = (2 ^ Z.of_nat n <=? counter_from a base b (S n) i).
Proof.
  induction n as [|n IH]; intros b.
  - cbn [counter_from]. replace (base + b + 0)%nat with (base + b)%nat by lia.
    destruct (Z.testbit _ i); reflexivity.
  - change (counter_from a base b (S (S n)) i)
      with (b2w (Z.testbit (a !!! (base + b)%nat) i)
            + 2 * counter_from a base (S b) (S n) i).
    replace (base + b + S n)%nat with (base + S b + n)%nat by lia.
    rewrite IH.
    pose proof (b2w_range (Z.testbit (a !!! (base + b)%nat) i)).
    rewrite Nat2Z.inj_succ, Z.pow_succ_r by lia.
    destruct (Z.leb_spec (2 ^ Z.of_nat n) (counter_from a base (S b) (S n) i));
      destruct (Z.leb_spec (2 * 2 ^ Z.of_nat n)
                  (b2w (Z.testbit (a !!! (base + b)%nat) i)
                   + 2 * counter_from a base (S b) (S n) i)); lia.
Qed.

Lemma counter_top (a : list Z) (base B : nat) (i : Z) :
  (1 <= B)%nat ->
  Z.testbit (a !!! (base + B - 1)%nat) i
  = (2 ^ (Z.of_nat B - 1) <=? counter a base B i).
Proof.
  intros HB. destruct B as [|n]; [lia|].
  unfold counter.
  replace (Z.of_nat (S n) - 1) with (Z.of_nat n) by lia.
  replace (base + S n - 1)%nat with (base + 0 + n)%nat by lia.
  apply counter_from_top.
Qed.


Lemma counter_from_bits_ext (a a' : list Z) (base : nat) (i : Z) :
  forall n b,
    (forall idx, (base + b <= idx < base + b + n)%nat ->
                 Z.testbit (a !!! idx) i = Z.testbit (a' !!! idx) i) ->
    counter_from a base b n i = counter_from a' base b n i.
Proof.
  induction n as [|n IH]; intros b H; simpl; [reflexivity|].
  rewrite (H (base + b)%nat) by lia.
  rewrite (IH (S b)); [reflexivity|].
  intros idx Hidx. apply H. lia.
Qed.

Lemma counter_from_all_ones (a : list Z) (base : nat) (i : Z) :
  forall n b,
    (forall idx, (base + b <= idx < base + b + n)%nat ->
                 Z.testbit (a !!! idx) i = true) ->
    counter_from a base b n i = 2 ^ Z.of_nat n - 1.
Proof.
  induction n as [|n IH]; intros b H; [reflexivity|].
  cbn [counter_from]. rewrite (H (base + b)%nat) by lia.
  rewrite (IH (S b)) by (intros idx Hidx; apply H; lia).
  rewrite Nat2Z.inj_succ, Z.pow_succ_r by lia. simpl b2w. lia.
Qed.

Lemma counter_from_all_zeros (a : list Z) (base : nat) (i : Z) :
  forall n b,
    (forall idx, (base + b <= idx < base + b + n)%nat ->
                 Z.testbit (a !!! idx) i = false) ->
    counter_from a base b n i = 0.
Proof.
  induction n as [|n IH]; intros b H; [reflexivity|].
  cbn [counter_from]. rewrite (H (base + b)%nat) by lia.
  rewrite (IH (S b)) by (intros idx Hidx; apply H; lia).
  reflexivity.
Qed.

Lemma is_word_lookup (a : list Z) (idx : nat) :
  Forall is_word a -> is_word (a !!! idx).
Proof.
  intros Ha. rewrite list_lookup_total_alt.
  destruct (a !! idx) as [x|] eqn:E; simpl.
  - exact (Forall_lookup_1 _ _ _ _ Ha E).
  - unfold is_word, word_mod. simpl. lia.
Qed.

(** ** cb_inc *)

Lemma cb_inc_loop_length (base : nat) :
  forall n b a carry, length (fst (cb_inc_loop base n b a carry)) = length a.
Proof.
  induction n as [|n IH]; intros b a carry; simpl; [reflexivity|].
  destruct (carry =? 0); [reflexivity|].
  rewrite IH. apply length_insert.
Qed.

Lemma cb_inc_loop_frame (base : nat) :
  forall n b a carry idx,
    (idx < base + b \/ base + b + n <= idx)%nat ->
    fst (cb_inc_loop base n b a carry) !!! idx = a !!! idx.
Proof.
  induction n as [|n IH]; intros b a carry idx H; simpl; [reflexivity|].
  destruct (carry =? 0); [reflexivity|].
  rewrite IH by lia. apply list_lookup_total_insert_ne. lia.
Qed.

Lemma cb_inc_loop_words (base : nat) :
  forall n b a carry,
    Forall is_word a -> is_word carry ->
    Forall is_word (fst (cb_inc_loop base n b a carry))
    /\ is_word (snd (cb_inc_loop base n b a carry)).
Proof.
  induction n as [|n IH]; intros b a carry Ha Hc; simpl; [split; assumption|].
  destruct (carry =? 0); [split; assumption|].
  apply IH.
  - apply Forall_insert; [exact Ha|].
    apply is_word_lxor; [apply is_word_lookup; exact Ha | exact Hc].
  - apply is_word_land_r. exact Hc.
Qed.

Lemma cb_inc_saturate_length (base : nat) (carry : Z) :
  forall n b a, length (cb_inc_saturate base n b a carry) = length a.
Proof.
  induction n as [|n IH]; intros b a; simpl; [reflexivity|].
  rewrite IH. apply length_insert.
Qed.

Lemma cb_inc_saturate_frame (base : nat) (carry : Z) :
  forall n b a idx,
    (idx < base + b \/ base + b + n <= idx)%nat ->
    cb_inc_saturate base n b a carry !!! idx = a !!! idx.
Proof.
  induction n as [|n IH]; intros b a idx H; simpl; [reflexivity|].
  rewrite IH by lia. apply list_lookup_total_insert_ne. lia.
Qed.

Lemma cb_inc_saturate_words (base : nat) (carry : Z) :
  forall n b a,
    Forall is_word a -> is_word carry ->
    Forall is_word (cb_inc_saturate base n b a carry).
Proof.
  induction n as [|n IH]; intros b a Ha Hc; simpl; [exact Ha|].
  apply IH; [|exact Hc].
  apply Forall_insert; [exact Ha|].
  apply is_word_lor; [apply is_word_lookup; exact Ha | exact Hc].
Qed.

Lemma cb_inc_saturate_inside (base : nat) (carry : Z) :
  forall n b a idx,
    (base + b + n <= length a)%nat ->
    (base + b <= idx < base + b + n)%nat ->
    cb_inc_saturate base n b a carry !!! idx = Z.lor (a !!! idx) carry.
Proof.
  induction n as [|n IH]; intros b a idx Hlen H; simpl; [lia|].
  destruct (Nat.eq_dec idx (base + b)%nat) as [->|Hne].
  - rewrite cb_inc_saturate_frame by lia.
    apply list_lookup_total_insert_eq. lia.
  - rewrite IH by (rewrite ?length_insert; lia).
    rewrite list_lookup_total_insert_ne by lia. reflexivity.
Qed.

(** The ripple of the carry through the planes is an addition: what the
    planes hold afterwards, plus the carry out, is what they held plus the
    carry in. *)
Lemma cb_inc_loop_sum (base : nat) (i : Z) :
  forall n b a carry,
    0 <= carry -> (base + b + n <= length a)%nat ->
    0 <= snd (cb_inc_loop base n b a carry)
    /\ counter_from (fst (cb_inc_loop base n b a carry)) base b n i
       + 2 ^ Z.of_nat n * b2w (Z.testbit (snd (cb_inc_loop base n b a carry)) i)
       = counter_from a base b n i + b2w (Z.testbit carry i).
Proof.
  induction n as [|n IH]; intros b a carry Hc Hlen.
  - simpl. split; [exact Hc|]. lia.
  - cbn [cb_inc_loop].
    destruct (Z.eqb_spec carry 0) as [->|Hne].
    + cbn [fst snd]. rewrite Z.testbit_0_l. simpl b2w. lia.
    + set (w := a !!! (base + b)%nat).
      set (a1 := <[(base + b)%nat := Z.lxor w carry]> a).
      destruct (IH (S b) a1 (Z.land w carry)) as [Hc' Hsum].
      { apply Z.land_nonneg. right. exact Hc. }
      { unfold a1. rewrite length_insert. lia. }
      split; [exact Hc'|].
      cbn [counter_from].
      rewrite cb_inc_loop_frame by lia.
      unfold a1 at 1. rewrite list_lookup_total_insert_eq by lia.
      assert (Hext : counter_from a1 base (S b) n i = counter_from a base (S b) n i).
      { apply counter_from_ext. intros idx Hidx. unfold a1.
        apply list_lookup_total_insert_ne. lia. }
      rewrite Hext in Hsum.
      rewrite Z.land_spec in Hsum. rewrite Z.lxor_spec.
      rewrite Nat2Z.inj_succ, Z.pow_succ_r by lia.
      fold w.
      destruct (Z.testbit w i), (Z.testbit carry i); simpl in *; lia.
Qed.

Lemma cb_inc_length (a : list Z) (base : nat) (m : Z) (B : nat) :
  length (cb_inc a base m B) = length a.
Proof.
  unfold cb_inc.
  pose proof (cb_inc_loop_length base B 0 a m) as H.
  destruct (cb_inc_loop base B 0 a m) as [a' c']. simpl in H.
  destruct (c' >? 0); [rewrite cb_inc_saturate_length|]; exact H.
Qed.

Lemma cb_inc_frame (a : list Z) (base : nat) (m : Z) (B : nat) (idx : nat) :
  (idx < base \/ base + B <= idx)%nat ->
  cb_inc a base m B !!! idx = a !!! idx.
Proof.
  intros H. unfold cb_inc.
  pose proof (cb_inc_loop_frame base B 0 a m idx) as Hf.
  destruct (cb_inc_loop base B 0 a m) as [a' c']. simpl in Hf.
  destruct (c' >? 0); [rewrite cb_inc_saturate_frame by lia|]; apply Hf; lia.
Qed.

Lemma cb_inc_words (a : list Z) (base : nat) (m : Z) (B : nat) :
  Forall is_word a -> is_word m -> Forall is_word (cb_inc a base m B).
Proof.
  intros Ha Hm. unfold cb_inc.
  destruct (cb_inc_loop_words base B 0 a m Ha Hm) as [H1 H2].
  destruct (cb_inc_loop base B 0 a m) as [a' c']. simpl in H1, H2.
  destruct (c' >? 0); [apply cb_inc_saturate_words|]; assumption.
Qed.

(** [cb_inc] adds one to the counters that the mask selects, up to the
    largest value, and leaves the other counters of the stripe as they
    are. *)
Lemma cb_inc_counter (a : list Z) (base : nat) (m : Z) (B : nat) (i : Z) :
  0 <= m -> (base + B <= length a)%nat ->
  counter (cb_inc a base m B) base B i
  = if Z.testbit m i
    then Z.min (counter a base B i + 1) (2 ^ Z.of_nat B - 1)
    else counter a base B i.
Proof.
  intros Hm Hlen. unfold cb_inc, counter.
  destruct (cb_inc_loop_sum base i B 0 a m Hm) as [Hc Hsum]; [lia|].
  pose proof (cb_inc_loop_length base B 0 a m) as Hl.
  destruct (cb_inc_loop base B 0 a m) as [a' c']. cbn [fst snd] in *.
  pose proof (counter_from_range a base i B 0) as Hr.
  pose proof (counter_from_range a' base i B 0) as Hr'.
  assert (Hsat : counter_from
                   (if c' >? 0 then cb_inc_saturate base B 0 a' c' else a')
                   base 0 B i
                 = if Z.testbit c' i then 2 ^ Z.of_nat B - 1
                   else counter_from a' base 0 B i).
  { destruct (Z.gtb_spec c' 0) as [Hpos|Hzero].
    - destruct (Z.testbit c' i) eqn:Ebit.
      + apply counter_from_all_ones. intros idx Hidx.
        rewrite cb_inc_saturate_inside by lia.
        rewrite Z.lor_spec, Ebit. apply orb_true_r.
      + apply counter_from_bits_ext. intros idx Hidx.
        rewrite cb_inc_saturate_inside by lia.
        rewrite Z.lor_spec, Ebit. apply orb_false_r.
    - assert (c' = 0) as -> by lia. rewrite Z.testbit_0_l. reflexivity. }
  rewrite Hsat.
  destruct (Z.testbit c' i), (Z.testbit m i); simpl b2w in Hsum; lia.
Qed.


(** ** cb_dec *)

Lemma cb_dec_loop_length (base : nat) :
  forall n b a carry, length (fst (cb_dec_loop base n b a carry)) = length a.
Proof.
  induction n as [|n IH]; intros b a carry; simpl; [reflexivity|].
  destruct (carry =? 0); [reflexivity|].
  rewrite IH. apply length_insert.
Qed.

Lemma cb_dec_loop_frame (base : nat) :
  forall n b a carry idx,
    (idx < base + b \/ base + b + n <= idx)%nat ->
    fst (cb_dec_loop base n b a carry) !!! idx = a !!! idx.
Proof.
  induction n as [|n IH]; intros b a carry idx H; simpl; [reflexivity|].
  destruct (carry =? 0); [reflexivity|].
  rewrite IH by lia. apply list_lookup_total_insert_ne. lia.
Qed.

Lemma cb_dec_loop_words (base : nat) :
  forall n b a carry,
    Forall is_word a -> is_word carry ->
    Forall is_word (fst (cb_dec_loop base n b a carry))
    /\ is_word (snd (cb_dec_loop base n b a carry)).
Proof.
  induction n as [|n IH]; intros b a carry Ha Hc; simpl; [split; assumption|].
  destruct (carry =? 0); [split; assumption|].
  apply IH.
  - apply Forall_insert; [exact Ha|].
    apply is_word_lxor; [apply is_word_lookup; exact Ha | exact Hc].
  - apply is_word_land_r. exact Hc.
Qed.

Lemma cb_dec_saturate_length (base : nat) (carry : Z) :
  forall n b a, length (cb_dec_saturate base n b a carry) = length a.
Proof.
  induction n as [|n IH]; intros b a; simpl; [reflexivity|].
  rewrite IH. apply length_insert.
Qed.

Lemma cb_dec_saturate_frame (base : nat) (carry : Z) :
  forall n b a idx,
    (idx < base + b \/ base + b + n <= idx)%nat ->
    cb_dec_saturate base n b a carry !!! idx = a !!! idx.
Proof.
  induction n as [|n IH]; intros b a idx H; simpl; [reflexivity|].
  rewrite IH by lia. apply list_lookup_total_insert_ne. lia.
Qed.

Lemma cb_dec_saturate_words (base : nat) (carry : Z) :
  forall n b a,
    Forall is_word a ->
    Forall is_word (cb_dec_saturate base n b a carry).
Proof.
  induction n as [|n IH]; intros b a Ha; simpl; [exact Ha|].
  apply IH.
  apply Forall_insert; [exact Ha|].
  apply is_word_land_r. apply wnot_word.
Qed.

Lemma cb_dec_saturate_inside (base : nat) (carry : Z) :
  forall n b a idx,
    (base + b + n <= length a)%nat ->
    (base + b <= idx < base + b + n)%nat ->
    cb_dec_saturate base n b a carry !!! idx = Z.land (a !!! idx) (wnot carry).
Proof.
  induction n as [|n IH]; intros b a idx Hlen H; simpl; [lia|].
  destruct (Nat.eq_dec idx (base + b)%nat) as [->|Hne].
  - rewrite cb_dec_saturate_frame by lia.
    apply list_lookup_total_insert_eq. lia.
  - rewrite IH by (rewrite ?length_insert; lia).
    rewrite list_lookup_total_insert_ne by lia. reflexivity.
Qed.

(** The ripple of the borrow through the planes is a subtraction. *)
Lemma cb_dec_loop_sum (base : nat) (i : Z) :
  0 <= i < 32 ->
  forall n b a carry,
    0 <= carry -> (base + b + n <= length a)%nat ->
    0 <= snd (cb_dec_loop base n b a carry)
    /\ counter_from (fst (cb_dec_loop base n b a carry)) base b n i
       - 2 ^ Z.of_nat n * b2w (Z.testbit (snd (cb_dec_loop base n b a carry)) i)
       = counter_from a base b n i - b2w (Z.testbit carry i).
Proof.
  intros Hi.
  induction n as [|n IH]; intros b a carry Hc Hlen.
  - simpl. split; [exact Hc|]. lia.
  - cbn [cb_dec_loop].
    destruct (Z.eqb_spec carry 0) as [->|Hne].
    + cbn [fst snd]. rewrite Z.testbit_0_l. simpl b2w. lia.
    + set (w := a !!! (base + b)%nat).
      set (a1 := <[(base + b)%nat := Z.lxor w carry]> a).
      destruct (IH (S b) a1 (Z.land (wnot w) carry)) as [Hc' Hsum].
      { apply Z.land_nonneg. right. exact Hc. }
      { unfold a1. rewrite length_insert. lia. }
      split; [exact Hc'|].
      cbn [counter_from].
      rewrite cb_dec_loop_frame by lia.
      unfold a1 at 1. rewrite list_lookup_total_insert_eq by lia.
      assert (Hext : counter_from a1 base (S b) n i = counter_from a base (S b) n i).
      { apply counter_from_ext. intros idx Hidx. unfold a1.
        apply list_lookup_total_insert_ne. lia. }
      rewrite Hext in Hsum.
      rewrite Z.land_spec, testbit_wnot_low in Hsum by exact Hi.
      rewrite Z.lxor_spec.
      rewrite Nat2Z.inj_succ, Z.pow_succ_r by lia.
      fold w.
      destruct (Z.testbit w i), (Z.testbit carry i); simpl in *; lia.
Qed.

Lemma cb_dec_length (a : list Z) (base : nat) (m : Z) (B : nat) :
  length (cb_dec a base m B) = length a.
Proof.
  unfold cb_dec.
  pose proof (cb_dec_loop_length base B 0 a m) as H.
  destruct (cb_dec_loop base B 0 a m) as [a' c']. simpl in H.
  destruct (c' >? 0); [rewrite cb_dec_saturate_length|]; exact H.
Qed.

Lemma cb_dec_frame (a : list Z) (base : nat) (m : Z) (B : nat) (idx : nat) :
  (idx < base \/ base + B <= idx)%nat ->
  cb_dec a base m B !!! idx = a !!! idx.
Proof.
  intros H. unfold cb_dec.
  pose proof (cb_dec_loop_frame base B 0 a m idx) as Hf.
  destruct (cb_dec_loop base B 0 a m) as [a' c']. simpl in Hf.
  destruct (c' >? 0); [rewrite cb_dec_saturate_frame by lia|]; apply Hf; lia.
Qed.

Lemma cb_dec_words (a : list Z) (base : nat) (m : Z) (B : nat) :
  Forall is_word a -> is_word m -> Forall is_word (cb_dec a base m B).
Proof.
  intros Ha Hm. unfold cb_dec.
  destruct (cb_dec_loop_words base B 0 a m Ha Hm) as [H1 H2].
  destruct (cb_dec_loop base B 0 a m) as [a' c']. simpl in H1, H2.
  destruct (c' >? 0); [apply cb_dec_saturate_words|]; assumption.
Qed.

(** [cb_dec] takes one from the counters that the mask selects, down to
    zero, and leaves the other counters of the stripe as they are. *)
Lemma cb_dec_counter (a : list Z) (base : nat) (m : Z) (B : nat) (i : Z) :
  0 <= i < 32 -> 0 <= m -> (base + B <= length a)%nat ->
  counter (cb_dec a base m B) base B i
  = if Z.testbit m i
    then Z.max (counter a base B i - 1) 0
    else counter a base B i.
Proof.
  intros Hi Hm Hlen. unfold cb_dec, counter.
  destruct (cb_dec_loop_sum base i Hi B 0 a m Hm) as [Hc Hsum]; [lia|].
  pose proof (cb_dec_loop_length base B 0 a m) as Hl.
  destruct (cb_dec_loop base B 0 a m) as [a' c']. cbn [fst snd] in *.
  pose proof (counter_from_range a base i B 0) as Hr.
  pose proof (counter_from_range a' base i B 0) as Hr'.
  assert (Hsat : counter_from
                   (if c' >? 0 then cb_dec_saturate base B 0 a' c' else a')
                   base 0 B i
                 = if Z.testbit c' i then 0
                   else counter_from a' base 0 B i).
  { destruct (Z.gtb_spec c' 0) as [Hpos|Hzero].
    - destruct (Z.testbit c' i) eqn:Ebit.
      + apply counter_from_all_zeros. intros idx Hidx.
        rewrite cb_dec_saturate_inside by lia.
        rewrite Z.land_spec, testbit_wnot_low, Ebit by exact Hi.
        apply andb_false_r.
      + apply counter_from_bits_ext. intros idx Hidx.
        rewrite cb_dec_saturate_inside by lia.
        rewrite Z.land_spec, testbit_wnot_low, Ebit by exact Hi.
        apply andb_true_r.
    - assert (c' = 0) as -> by lia. rewrite Z.testbit_0_l. reflexivity. }
  rewrite Hsat.
  destruct (Z.testbit c' i), (Z.testbit m i); simpl b2w in Hsum; lia.
Qed.


(** ** Saturation *)

Lemma run_op_length (base B : nat) (a : list Z) (op : counter_op) :
  length (run_op base B a op) = length a.
Proof. destruct op; simpl; [apply cb_inc_length | apply cb_dec_length]. Qed.

Lemma run_op_counter (base B : nat) (a : list Z) (op : counter_op) (i : Z) :
  0 <= i < 32 -> is_word (op_mask op) -> (base + B <= length a)%nat ->
  counter (run_op base B a op) base B i
  = saturating_step B i (counter a base B i) op.
Proof.
  intros Hi Hm Hlen. destruct op as [m|m]; simpl in *.
  - apply cb_inc_counter; [apply Hm | exact Hlen].
  - apply cb_dec_counter; [exact Hi | apply Hm | exact Hlen].
Qed.

Lemma run_ops_counter (base B : nat) (i : Z) :
  0 <= i < 32 ->
  forall ops a,
    Forall (fun op => is_word (op_mask op)) ops ->
    (base + B <= length a)%nat ->
    counter (run_ops base B ops a) base B i
    = fold_left (saturating_step B i) ops (counter a base B i).
Proof.
  intros Hi. unfold run_ops.
  induction ops as [|op ops IH]; intros a Hops Hlen; simpl; [reflexivity|].
  inversion Hops as [|? ? Hop Hrest]; subst.
  rewrite IH by (rewrite ?run_op_length; assumption).
  rewrite run_op_counter by assumption. reflexivity.
Qed.

(** C6: a stripe of [B] words holds 32 counters of [B] bits that saturate.
    After any sequence of [cb_inc] and [cb_dec] with any masks, the value
    of counter [i] is in [[0, 2^B - 1]] and is what the same sequence of
    additions and subtractions of one, stopped at [2^B - 1] and at [0],
    gives; [cb_inc] leaves a counter at [2^B - 1] there, [cb_dec] leaves a
    counter at [0] there, and a counter that the mask does not select keeps
    its value. *)
Theorem counters_saturate (base B : nat) (a : list Z) (ops : list counter_op)
    (m : Z) (i : Z) :
  0 <= i < 32 ->
  (base + B <= length a)%nat ->
  Forall (fun op => is_word (op_mask op)) ops ->
  is_word m ->
  (0 <= counter (run_ops base B ops a) base B i <= 2 ^ Z.of_nat B - 1
   /\ counter (run_ops base B ops a) base B i
      = fold_left (saturating_step B i) ops (counter a base B i))
  /\ (counter a base B i = 2 ^ Z.of_nat B - 1 ->
      counter (cb_inc a base m B) base B i = 2 ^ Z.of_nat B - 1)
  /\ (counter a base B i = 0 -> counter (cb_dec a base m B) base B i = 0)
  /\ (Z.testbit m i = true ->
      counter (cb_inc a base m B) base B i
      = Z.min (counter a base B i + 1) (2 ^ Z.of_nat B - 1)
      /\ counter (cb_dec a base m B) base B i
         = Z.max (counter a base B i - 1) 0)
  /\ (Z.testbit m i = false ->
      counter (cb_inc a base m B) base B i = counter a base B i
      /\ counter (cb_dec a base m B) base B i = counter a base B i).
Proof.
  intros Hi Hlen Hops Hm.
  pose proof (counter_range a base B i) as Hr.
  assert (Hinc := cb_inc_counter a base m B i (proj1 Hm) Hlen).
  assert (Hdec := cb_dec_counter a base m B i Hi (proj1 Hm) Hlen).
  repeat split.
  - apply counter_range.
  - apply counter_range.
  - apply run_ops_counter; assumption.
  - intros Hmax. rewrite Hinc. destruct (Z.testbit m i); lia.
  - intros Hzero. rewrite Hdec. destruct (Z.testbit m i); lia.
  - rewrite Hinc, H. reflexivity.
  - rewrite Hdec, H. reflexivity.
  - rewrite Hinc, H. reflexivity.
  - rewrite Hdec, H. reflexivity.
Qed.


(** ** Clause evaluation *)

Lemma land_subset (a x : Z) :
  Z.land a x = a <->
  (forall i, 0 <= i -> Z.testbit a i = true -> Z.testbit x i = true).
Proof.
  split.
  - intros H i Hi Ha. rewrite <- H in Ha. rewrite Z.land_spec in Ha.
    apply andb_true_iff in Ha. destruct Ha as [_ Hx]. exact Hx.
  - intros H. apply Z.bits_inj'. intros i Hi. rewrite Z.land_spec.
    specialize (H i Hi). destruct (Z.testbit a i); [|reflexivity].
    rewrite H; reflexivity.
Qed.

Lemma land_filter_subset (a x flt : Z) :
  Z.land (Z.land a x) flt = Z.land a flt <->
  (forall i, 0 <= i -> Z.testbit flt i = true ->
             Z.testbit a i = true -> Z.testbit x i = true).
Proof.
  split.
  - intros H i Hi Hf Ha.
    assert (Hb : Z.testbit (Z.land (Z.land a x) flt) i = true).
    { rewrite H, Z.land_spec, Ha, Hf. reflexivity. }
    rewrite !Z.land_spec in Hb. rewrite Ha in Hb.
    destruct (Z.testbit x i); [reflexivity | discriminate].
  - intros H. apply Z.bits_inj'. intros i Hi. rewrite !Z.land_spec.
    specialize (H i Hi).
    destruct (Z.testbit flt i), (Z.testbit a i); simpl; try reflexivity;
      try apply andb_false_r.
    rewrite H; reflexivity.
Qed.

Section EvalFacts.

Variable ta : list Z.
Variable base K B : nat.
Variable flt : Z.
Variable literal_active Xi : list Z.

Lemma masked_chunks_false (patch : nat) :
  forall n k, masked_chunks ta base K B literal_active Xi patch n k false = false.
Proof. destruct n; reflexivity. Qed.

Lemma masked_chunks_true (patch : nat) :
  forall n k,
    masked_chunks ta base K B literal_active Xi patch n k true = true <->
    (forall k', (k <= k' < k + n)%nat ->
       Z.land (action_word ta base B k') (masked_input K literal_active Xi patch k')
       = action_word ta base B k').
Proof.
  induction n as [|n IH]; intros k.
  - simpl. split; [intros _ k' Hk'; lia | reflexivity].
  - cbn [masked_chunks]. rewrite andb_true_l.
    fold (masked_input K literal_active Xi patch k).
    destruct (Z.eqb_spec
                (Z.land (action_word ta base B k)
                        (masked_input K literal_active Xi patch k))
                (action_word ta base B k)) as [Heq|Hne]; cbn [negb].
    + rewrite IH. split.
      * intros H k' Hk'. destruct (Nat.eq_dec k' k) as [->|Hd]; [exact Heq|].
        apply H. lia.
      * intros H k' Hk'. apply H. lia.
    + split; [discriminate|]. intros H. exfalso. apply Hne, H. lia.
Qed.

(** The match test of Update and Feedback mode is [patch_matches] for the
    input [masked_input]. *)
Lemma masked_patch_output_spec (patch : nat) :
  (1 <= K)%nat ->
  masked_patch_output ta base K B flt literal_active Xi patch = true <->
  patch_matches ta base K B flt (masked_input K literal_active Xi patch).
Proof.
  intros HK. unfold masked_patch_output, patch_matches.
  rewrite andb_true_iff, masked_chunks_true, Z.eqb_eq.
  replace (patch * K + K - 1)%nat with (patch * K + (K - 1))%nat by lia.
  fold (masked_input K literal_active Xi patch (K - 1)).
  rewrite land_filter_subset.
  split.
  - intros [H1 H2] k i Hk Hi Hf Ha.
    destruct (Nat.eq_dec k (K - 1)%nat) as [->|Hd].
    + apply H2; auto.
    + specialize (H1 k). rewrite land_subset in H1. apply H1; auto. lia.
  - intros H. split.
    + intros k' Hk'. apply land_subset. intros i Hi Ha.
      apply (H k' i); auto; lia.
    + intros i Hi Hf Ha. apply (H (K - 1)%nat i); auto. lia.
Qed.

Lemma update_patches_range :
  forall n p,
    update_patches ta base K B flt literal_active Xi n p = 0
    \/ update_patches ta base K B flt literal_active Xi n p = 1.
Proof.
  induction n as [|n IH]; intros p; simpl; [left; reflexivity|].
  destruct (masked_patch_output _ _ _ _ _ _ _ p); [right; reflexivity | apply IH].
Qed.

Lemma update_patches_one :
  forall n p,
    update_patches ta base K B flt literal_active Xi n p = 1 <->
    exists patch, (p <= patch < p + n)%nat
      /\ masked_patch_output ta base K B flt literal_active Xi patch = true.
Proof.
  induction n as [|n IH]; intros p; cbn [update_patches].
  - split; [discriminate | intros (patch & Hp & _); lia].
  - destruct (masked_patch_output ta base K B flt literal_active Xi p) eqn:E.
    + split; [intros _; exists p; split; [lia | exact E] | reflexivity].
    + rewrite IH. split; intros (patch & Hp & Hm).
      * exists patch. split; [lia | exact Hm].
      * exists patch. split; [|exact Hm].
        destruct (Nat.eq_dec patch p) as [->|Hd]; [congruence | lia].
Qed.

Lemma predict_chunks_all_exclude (patch : nat) :
  forall n k,
    (forall k', (k <= k' < k + n)%nat -> action_word ta base B k' = 0) ->
    predict_chunks ta base K B Xi patch n k true true = (true, true).
Proof.
  induction n as [|n IH]; intros k H; cbn [predict_chunks]; [reflexivity|].
  rewrite (H k) by lia. rewrite Z.land_0_l. simpl.
  apply IH. intros k' Hk'. apply H. lia.
Qed.

Lemma predict_patches_all_exclude :
  (forall k, (k < K - 1)%nat -> action_word ta base B k = 0) ->
  Z.land (action_word ta base B (K - 1)) flt = 0 ->
  forall n p, predict_patches ta base K B flt Xi n p = 0.
Proof.
  intros Hhead Htail.
  induction n as [|n IH]; intros p; cbn [predict_patches]; [reflexivity|].
  rewrite predict_chunks_all_exclude by (intros k' Hk'; apply Hhead; lia).
  rewrite Htail. simpl. rewrite andb_false_r. apply IH.
Qed.

End EvalFacts.

(** C1: a literal that [literal_active] masks out is not treated as
    satisfied.  With [F = 2], one clause that includes literal 1, literal 1
    masked out ([literal_active = 01]) and a patch in which it is false,
    the per-chunk input that the claim gives, [Xi | ~literal_active], passes
    the comparison of the chunk, but the input that the code forms,
    [Xi | !literal_active], does not: UpdateEval outputs [0] and Feedback
    mode finds no matching patch. *)
Theorem masked_out_literal_fails_the_match :
  Z.testbit 1 1 = false
  /\ Z.land 2 (Z.lor 0 (wnot 1)) = 2
  /\ masked_input 1 [1] [0] 0 0 = 0
  /\ masked_patch_output [2] 0 1 1 (cb_filter 2) [1] [0] 0 = false
  /\ cb_calculate_clause_outputs_update [2] 1 2 1 1 [7] [1] [0] = [0]
  /\ (forall g, cb_calculate_clause_output_feedback [2] 0 1 1 (cb_filter 2) [1] [0] 1 g
                = (0, 0%nat, g)).
Proof. repeat split. Qed.


(** ** Loops *)

Lemma for_range_ext {A : Type} (body1 body2 : nat -> A -> A) :
  forall n k a,
    (forall k' a', (k <= k' < k + n)%nat -> body1 k' a' = body2 k' a') ->
    for_range n k body1 a = for_range n k body2 a.
Proof.
  induction n as [|n IH]; intros k a H; simpl; [reflexivity|].
  rewrite (H k) by lia. apply IH. intros k' a' Hk'. apply H. lia.
Qed.

(** An invariant of the body is an invariant of the loop. *)
Lemma for_range_invariant {A : Type} (body : nat -> A -> A) (Inv : A -> Prop) :
  forall n k a,
    (forall k' a', (k <= k' < k + n)%nat -> Inv a' -> Inv (body k' a')) ->
    Inv a -> Inv (for_range n k body a).
Proof.
  induction n as [|n IH]; intros k a H Ha; simpl; [exact Ha|].
  apply IH; [|apply H; [lia | exact Ha]].
  intros k' a' Hk'. apply H. lia.
Qed.

Lemma for_range_split {A : Type} (body : nat -> A -> A) :
  forall n m k a,
    for_range (n + m) k body a = for_range m (k + n) body (for_range n k body a).
Proof.
  induction n as [|n IH]; intros m k a; simpl.
  - replace (k + 0)%nat with k by lia. reflexivity.
  - rewrite IH. replace (S k + n)%nat with (k + S n)%nat by lia. reflexivity.
Qed.

Lemma for_range_insert_length (f : nat -> Z) :
  forall n k (out : list Z),
    length (for_range n k (fun j o => <[j := f j]> o) out) = length out.
Proof.
  induction n as [|n IH]; intros k out; simpl; [reflexivity|].
  rewrite IH. apply length_insert.
Qed.

Lemma for_range_insert_lookup (f : nat -> Z) :
  forall n k (out : list Z) j,
    (k <= j < k + n)%nat -> (j < length out)%nat ->
    for_range n k (fun j o => <[j := f j]> o) out !!! j = f j.
Proof.
  induction n as [|n IH]; intros k out j Hj Hlen; simpl; [lia|].
  destruct (Nat.eq_dec j k) as [->|Hd].
  - clear IH.
    assert (Hkeep : forall m k' (o : list Z), (k < k')%nat ->
              for_range m k' (fun j o => <[j := f j]> o) o !!! k = o !!! k).
    { induction m as [|m IHm]; intros k' o Hk'; simpl; [reflexivity|].
      rewrite IHm by lia. apply list_lookup_total_insert_ne. lia. }
    rewrite Hkeep by lia. apply list_lookup_total_insert_eq. exact Hlen.
  - apply IH; [lia | rewrite length_insert; exact Hlen].
Qed.

(** ** The chunks and the filter *)

Lemma number_of_ta_chunks_bounds (F : Z) :
  1 <= F ->
  (1 <= number_of_ta_chunks F)%nat
  /\ 32 * (Z.of_nat (number_of_ta_chunks F) - 1) < F
     <= 32 * Z.of_nat (number_of_ta_chunks F).
Proof.
  intros HF. unfold number_of_ta_chunks.
  rewrite Z.quot_div_nonneg by lia.
  pose proof (Z.div_mod (F - 1) 32 ltac:(lia)) as Hdm.
  pose proof (Z.mod_pos_bound (F - 1) 32 ltac:(lia)) as Hb.
  assert (0 <= (F - 1) / 32) by (apply Z.div_pos; lia).
  rewrite Z2Nat.id by lia. split; lia.
Qed.

(** C5: the all-exclude rule.  A clause whose action bits are all zero (in
    the tail chunk: under the filter) gets [0] from PredictEval whatever the
    patches are, while UpdateEval has no such rule: its output is [1]
    exactly when some patch passes its match test, so for the same clause
    and at least one patch it is [1].  In scenario S1 ([F = 4], one clause,
    one patch, three state bits, action plane zero, [Xi = 1111]) PredictEval
    gives [0] and UpdateEval gives [1]. *)
Theorem all_exclude_rule (ta : list Z) (C : nat) (F : Z) (B P : nat)
    (out literal_active Xi : list Z) (j : nat) :
  (j < C)%nat -> (C <= length out)%nat -> 1 <= F ->
  let K := number_of_ta_chunks F in
  let flt := cb_filter F in
  let predict_j := cb_calculate_clause_outputs_predict ta C F B P out Xi !!! j in
  let update_j :=
    cb_calculate_clause_outputs_update ta C F B P out literal_active Xi !!! j in
  ((forall k, (k < K - 1)%nat -> action_word ta (j * K * B) B k = 0) ->
   Z.land (action_word ta (j * K * B) B (K - 1)) flt = 0 ->
   predict_j = 0 /\ ((1 <= P)%nat -> update_j = 1))
  /\ (update_j = 1 <->
      exists patch, (patch < P)%nat
        /\ patch_matches ta (j * K * B) K B flt
             (masked_input K literal_active Xi patch))
  /\ (update_j = 0 \/ update_j = 1)
  /\ (forall x y o l,
        cb_calculate_clause_outputs_predict [x; y; 0] 1 4 3 1 [o] [15] = [0]
        /\ cb_calculate_clause_outputs_update [x; y; 0] 1 4 3 1 [o] l [15] = [1]).
Proof.
  intros Hj Hlen HF K flt predict_j update_j.
  destruct (number_of_ta_chunks_bounds F HF) as [HK _]. fold K in HK.
  assert (Hp : predict_j
               = cb_calculate_clause_output_predict ta (j * K * B) K B flt Xi P).
  { unfold predict_j, cb_calculate_clause_outputs_predict.
    apply (for_range_insert_lookup
             (fun j => cb_calculate_clause_output_predict ta
                         (j * number_of_ta_chunks F * B)
                         (number_of_ta_chunks F) B (cb_filter F) Xi P)); lia. }
  assert (Hu : update_j
               = cb_calculate_clause_output_update ta (j * K * B) K B flt
                   literal_active Xi P).
  { unfold update_j, cb_calculate_clause_outputs_update.
    apply (for_range_insert_lookup
             (fun j => cb_calculate_clause_output_update ta
                         (j * number_of_ta_chunks F * B)
                         (number_of_ta_chunks F) B (cb_filter F)
                         literal_active Xi P)); lia. }
  assert (Hchar : update_j = 1 <->
            exists patch, (patch < P)%nat
              /\ patch_matches ta (j * K * B) K B flt
                   (masked_input K literal_active Xi patch)).
  { rewrite Hu. unfold cb_calculate_clause_output_update.
    rewrite update_patches_one. split; intros (patch & Hpatch & Hm);
      exists patch; (split; [lia|]);
      apply (masked_patch_output_spec ta (j * K * B) K B flt literal_active Xi patch HK);
      exact Hm. }
  split; [|split; [exact Hchar | split]].
  - intros Hhead Htail. split.
    + rewrite Hp. apply predict_patches_all_exclude; assumption.
    + intros HP. apply Hchar. exists 0%nat. split; [lia|].
      intros k i Hk Hi Hf Ha.
      destruct (Nat.eq_dec k (K - 1)%nat) as [->|Hd].
      * assert (Hb : Z.testbit (Z.land (action_word ta (j * K * B) B (K - 1)) flt) i
                     = true)
          by (rewrite Z.land_spec, Ha, Hf; auto).
        rewrite Htail, Z.testbit_0_l in Hb. discriminate.
      * rewrite Hhead, Z.testbit_0_l in Ha by lia. discriminate.
  - rewrite Hu. apply update_patches_range.
  - intros x y o l. split; reflexivity.
Qed.


Lemma testbit_cb_filter (F : Z) (i : Z) :
  1 <= F ->
  Z.testbit (cb_filter F) i
  = (0 <=? i) && (i <? 32)
    && (32 * (Z.of_nat (number_of_ta_chunks F) - 1) + i <? F).
Proof.
  intros HF.
  destruct (number_of_ta_chunks_bounds F HF) as [HK HFK].
  set (K := Z.of_nat (number_of_ta_chunks F)) in *.
  unfold cb_filter. rewrite Z.rem_mod_nonneg by lia.
  pose proof (Z.div_mod F 32 ltac:(lia)) as Hdm.
  pose proof (Z.mod_pos_bound F 32 ltac:(lia)) as Hb.
  destruct (Z.eqb_spec (F mod 32) 0) as [Hz|Hnz]; cbn [negb].
  - rewrite testbit_word_max.
    assert (F = 32 * K) by lia.
    destruct (Z.leb_spec 0 i), (Z.ltb_spec i 32); simpl; lia.
  - assert (F = 32 * (K - 1) + F mod 32) by lia.
    rewrite testbit_wnot.
    destruct (Z.leb_spec 0 i); [|simpl; apply andb_false_r].
    destruct (Z.ltb_spec i 32); [|simpl; apply andb_false_r].
    simpl. rewrite !andb_true_r. unfold wshl.
    change word_mod with (2 ^ 32).
    rewrite Z.mod_pow2_bits_low by lia.
    rewrite Z.shiftl_spec by lia. rewrite testbit_word_max.
    destruct (Z.leb_spec 0 (i - F mod 32)), (Z.ltb_spec (i - F mod 32) 32),
      (Z.ltb_spec (32 * (K - 1) + i) F); simpl; lia.
Qed.

(** The filter is the word whose low [F mod 32] bits are set, and all of
    them when [F mod 32] is zero. *)
Lemma cb_filter_value (F : Z) :
  1 <= F ->
  cb_filter F = if F mod 32 =? 0 then word_max else 2 ^ (F mod 32) - 1.
Proof.
  intros HF.
  pose proof (Z.mod_pos_bound F 32 ltac:(lia)) as Hb.
  destruct (number_of_ta_chunks_bounds F HF) as [HK HFK].
  pose proof (Z.div_mod F 32 ltac:(lia)) as Hdm.
  apply Z.bits_inj'. intros i Hi. rewrite testbit_cb_filter by exact HF.
  destruct (Z.eqb_spec (F mod 32) 0) as [Hz|Hnz].
  - rewrite testbit_word_max.
    destruct (Z.leb_spec 0 i), (Z.ltb_spec i 32); simpl; lia.
  - replace (2 ^ (F mod 32) - 1) with (Z.ones (F mod 32))
      by (rewrite Z.ones_equiv; lia).
    destruct (Z.ltb_spec i (F mod 32)).
    + rewrite Z.ones_spec_low by lia.
      destruct (Z.leb_spec 0 i), (Z.ltb_spec i 32); simpl; lia.
    + rewrite Z.ones_spec_high by lia.
      destruct (Z.leb_spec 0 i), (Z.ltb_spec i 32); simpl; lia.
Qed.

Lemma land_swap (a x flt : Z) :
  Z.land (Z.land a x) flt = Z.land (Z.land a flt) x.
Proof.
  rewrite <- !Z.land_assoc. f_equal. apply Z.land_comm.
Qed.

(** ** Evaluation reads the action bits under the filter only *)

Section EvalCong.

Variable ta1 ta2 : list Z.
Variable base K B : nat.
Variable flt : Z.
Variable literal_active Xi : list Z.

Hypothesis head_agree :
  forall k, (k < K - 1)%nat -> action_word ta1 base B k = action_word ta2 base B k.
Hypothesis tail_agree :
  Z.land (action_word ta1 base B (K - 1)) flt
  = Z.land (action_word ta2 base B (K - 1)) flt.

Lemma masked_chunks_cong (patch : nat) :
  forall n k o, (k + n <= K - 1)%nat ->
    masked_chunks ta1 base K B literal_active Xi patch n k o
    = masked_chunks ta2 base K B literal_active Xi patch n k o.
Proof using Type*.
  induction n as [|n IH]; intros k o Hk; cbn [masked_chunks]; [reflexivity|].
  rewrite (head_agree k) by lia. rewrite IH by lia. reflexivity.
Qed.

Lemma masked_patch_output_cong (patch : nat) :
  masked_patch_output ta1 base K B flt literal_active Xi patch
  = masked_patch_output ta2 base K B flt literal_active Xi patch.
Proof using Type*.
  unfold masked_patch_output.
  rewrite masked_chunks_cong by lia.
  rewrite !(land_swap _ _ flt), tail_agree. reflexivity.
Qed.

Lemma update_patches_cong :
  forall n p,
    update_patches ta1 base K B flt literal_active Xi n p
    = update_patches ta2 base K B flt literal_active Xi n p.
Proof using Type*.
  induction n as [|n IH]; intros p; cbn [update_patches]; [reflexivity|].
  rewrite masked_patch_output_cong, IH. reflexivity.
Qed.

Lemma feedback_patches_cong :
  forall n p l,
    feedback_patches ta1 base K B flt literal_active Xi n p l
    = feedback_patches ta2 base K B flt literal_active Xi n p l.
Proof using Type*.
  induction n as [|n IH]; intros p l; cbn [feedback_patches]; [reflexivity|].
  rewrite masked_patch_output_cong, IH. reflexivity.
Qed.

Lemma feedback_output_cong (P : nat) (g : rng) :
  cb_calculate_clause_output_feedback ta1 base K B flt literal_active Xi P g
  = cb_calculate_clause_output_feedback ta2 base K B flt literal_active Xi P g.
Proof using Type*.
  unfold cb_calculate_clause_output_feedback.
  rewrite feedback_patches_cong. reflexivity.
Qed.

Lemma patchwise_chunks_cong (patch : nat) :
  forall n k o, (k + n <= K - 1)%nat ->
    patchwise_chunks ta1 base K B Xi patch n k o
    = patchwise_chunks ta2 base K B Xi patch n k o.
Proof using Type*.
  induction n as [|n IH]; intros k o Hk; cbn [patchwise_chunks]; [reflexivity|].
  rewrite (head_agree k) by lia. rewrite IH by lia. reflexivity.
Qed.

Lemma patchwise_patch_output_cong (patch : nat) :
  patchwise_patch_output ta1 base K B flt Xi patch
  = patchwise_patch_output ta2 base K B flt Xi patch.
Proof using Type*.
  unfold patchwise_patch_output.
  rewrite patchwise_chunks_cong by lia.
  rewrite !(land_swap _ _ flt), tail_agree. reflexivity.
Qed.

Lemma patchwise_patches_cong (obase : nat) :
  forall n p out,
    patchwise_patches ta1 base K B flt Xi n p out obase
    = patchwise_patches ta2 base K B flt Xi n p out obase.
Proof using Type*.
  induction n as [|n IH]; intros p out; cbn [patchwise_patches]; [reflexivity|].
  rewrite patchwise_patch_output_cong, IH. reflexivity.
Qed.

Lemma predict_chunks_cong (patch : nat) :
  forall n k o e, (k + n <= K - 1)%nat ->
    predict_chunks ta1 base K B Xi patch n k o e
    = predict_chunks ta2 base K B Xi patch n k o e.
Proof using Type*.
  induction n as [|n IH]; intros k o e Hk; cbn [predict_chunks]; [reflexivity|].
  rewrite (head_agree k) by lia. rewrite IH by lia. reflexivity.
Qed.

Lemma predict_patches_cong :
  forall n p,
    predict_patches ta1 base K B flt Xi n p
    = predict_patches ta2 base K B flt Xi n p.
Proof using Type*.
  induction n as [|n IH]; intros p; cbn [predict_patches]; [reflexivity|].
  rewrite predict_chunks_cong by lia.
  rewrite !(land_swap _ _ flt), tail_agree, IH. reflexivity.
Qed.

End EvalCong.


(** C9: the padding of the tail chunk has no influence on evaluation.  Two
    banks of words that agree at every literal position below [F], and so
    differ at most at the positions from [F] on of the tail chunks, give the
    same outputs in PredictEval, UpdateEval and PatchwiseEval and the same
    clause output and patch in Feedback mode; the filter that masks the tail
    comparison is the word whose low [F mod 32] bits are set (all of them
    when [F mod 32] is zero). *)
Theorem tail_masking (ta1 ta2 : list Z) (C : nat) (F : Z) (B P : nat)
    (out literal_active Xi : list Z) :
  1 <= F -> (1 <= B)%nat ->
  Forall is_word ta1 -> Forall is_word ta2 ->
  let K := number_of_ta_chunks F in
  (forall (j k b : nat) (i : Z),
      (j < C)%nat -> (k < K)%nat -> (b < B)%nat -> 0 <= i < 32 ->
      32 * Z.of_nat k + i < F ->
      Z.testbit (ta1 !!! (j * K * B + k * B + b)%nat) i
      = Z.testbit (ta2 !!! (j * K * B + k * B + b)%nat) i) ->
  cb_calculate_clause_outputs_predict ta1 C F B P out Xi
  = cb_calculate_clause_outputs_predict ta2 C F B P out Xi
  /\ cb_calculate_clause_outputs_update ta1 C F B P out literal_active Xi
     = cb_calculate_clause_outputs_update ta2 C F B P out literal_active Xi
  /\ cb_calculate_clause_outputs_patchwise ta1 C F B P out Xi
     = cb_calculate_clause_outputs_patchwise ta2 C F B P out Xi
  /\ (forall (j : nat) (g : rng), (j < C)%nat ->
        cb_calculate_clause_output_feedback ta1 (j * K * B) K B (cb_filter F)
          literal_active Xi P g
        = cb_calculate_clause_output_feedback ta2 (j * K * B) K B (cb_filter F)
            literal_active Xi P g)
  /\ cb_filter F = (if F mod 32 =? 0 then word_max else 2 ^ (F mod 32) - 1).
Proof.
  intros HF HB Hw1 Hw2 K Hagree.
  destruct (number_of_ta_chunks_bounds F HF) as [HK HFK]. fold K in HK, HFK.
  assert (Hhead : forall j, (j < C)%nat -> forall k, (k < K - 1)%nat ->
            action_word ta1 (j * K * B) B k = action_word ta2 (j * K * B) B k).
  { intros j Hj k Hk. unfold action_word.
    replace (j * K * B + (k * B + B - 1))%nat
      with (j * K * B + k * B + (B - 1))%nat by lia.
    apply Z.bits_inj'. intros i Hi.
    destruct (Z.ltb_spec i 32).
    - apply Hagree; lia.
    - rewrite !is_word_testbit_high by (try apply is_word_lookup; assumption).
      reflexivity. }
  assert (Htail : forall j, (j < C)%nat ->
            Z.land (action_word ta1 (j * K * B) B (K - 1)) (cb_filter F)
            = Z.land (action_word ta2 (j * K * B) B (K - 1)) (cb_filter F)).
  { intros j Hj. unfold action_word.
    replace (j * K * B + ((K - 1) * B + B - 1))%nat
      with (j * K * B + (K - 1) * B + (B - 1))%nat by lia.
    apply Z.bits_inj'. intros i Hi. rewrite !Z.land_spec.
    destruct (Z.testbit (cb_filter F) i) eqn:Ef;
      [|rewrite !andb_false_r; reflexivity].
    rewrite testbit_cb_filter in Ef by exact HF. fold K in Ef.
    rewrite !andb_true_r. apply Hagree; lia. }
  repeat split.
  - unfold cb_calculate_clause_outputs_predict. apply for_range_ext.
    intros j o Hj. f_equal. unfold cb_calculate_clause_output_predict.
    apply predict_patches_cong; [apply Hhead | apply Htail]; lia.
  - unfold cb_calculate_clause_outputs_update. apply for_range_ext.
    intros j o Hj. f_equal. unfold cb_calculate_clause_output_update.
    apply update_patches_cong; [apply Hhead | apply Htail]; lia.
  - unfold cb_calculate_clause_outputs_patchwise. apply for_range_ext.
    intros j o Hj. unfold cb_calculate_clause_output_patchwise.
    apply patchwise_patches_cong; [apply Hhead | apply Htail]; lia.
  - intros j g Hj. apply feedback_output_cong; [apply Hhead | apply Htail]; lia.
  - apply cb_filter_value. exact HF.
Qed.


(** ** What a loop over the chunks of a clause may touch *)

Lemma stripe_in_region (cp K B k idx : nat) :
  (k < K)%nat ->
  (idx < cp \/ cp + K * B <= idx)%nat ->
  (idx < cp + k * B \/ cp + k * B + B <= idx)%nat.
Proof.
  intros Hk [H|H]; [left; lia | right].
  assert (k * B + B <= K * B)%nat by nia. lia.
Qed.

Lemma region_disjoint (j j' M idx : nat) :
  j <> j' ->
  (j * M <= idx < j * M + M)%nat ->
  (idx < j' * M \/ j' * M + M <= idx)%nat.
Proof.
  intros Hne Hidx.
  destruct (Nat.lt_ge_cases j j') as [Hlt|Hge].
  - left. assert (j * M + M <= j' * M)%nat by nia. lia.
  - right. assert (j' * M + M <= j * M)%nat by nia. lia.
Qed.

Lemma chunk_loop_frame (body : nat -> list Z -> list Z) (cp K B : nat) :
  (forall k a idx, (k < K)%nat ->
     (idx < cp + k * B \/ cp + k * B + B <= idx)%nat ->
     body k a !!! idx = a !!! idx) ->
  forall a idx,
    (idx < cp \/ cp + K * B <= idx)%nat ->
    for_range K 0 body a !!! idx = a !!! idx.
Proof.
  intros Hbody a idx Hidx.
  apply (for_range_invariant body (fun a' => a' !!! idx = a !!! idx));
    [|reflexivity].
  intros k a' Hk Ha'. rewrite Hbody; [exact Ha' | lia |].
  apply stripe_in_region with (K := K); [lia | exact Hidx].
Qed.

Lemma chunk_loop_length (body : nat -> list Z -> list Z) (K : nat) :
  (forall k a, length (body k a) = length a) ->
  forall a, length (for_range K 0 body a) = length a.
Proof.
  intros Hbody a.
  apply (for_range_invariant body (fun a' => length a' = length a));
    [|reflexivity].
  intros k a' _ Ha'. rewrite Hbody. exact Ha'.
Qed.

Lemma chunk_loop_words (body : nat -> list Z -> list Z) (K : nat) :
  (forall k a, Forall is_word a -> Forall is_word (body k a)) ->
  forall a, Forall is_word a -> Forall is_word (for_range K 0 body a).
Proof.
  intros Hbody a Ha.
  apply (for_range_invariant body (Forall is_word)); [|exact Ha].
  intros k a' _ Ha'. apply Hbody. exact Ha'.
Qed.

Lemma type_ia_chunk_frame cp K B boost L Xi fb patch k a idx :
  (idx < cp + k * B \/ cp + k * B + B <= idx)%nat ->
  type_ia_chunk cp K B boost L Xi fb patch k a !!! idx = a !!! idx.
Proof.
  intros H. unfold type_ia_chunk.
  rewrite cb_dec_frame by exact H.
  destruct (boost =? 1); apply cb_inc_frame; exact H.
Qed.

Lemma type_ia_chunk_length cp K B boost L Xi fb patch k a :
  length (type_ia_chunk cp K B boost L Xi fb patch k a) = length a.
Proof.
  unfold type_ia_chunk. rewrite cb_dec_length.
  destruct (boost =? 1); apply cb_inc_length.
Qed.

Lemma type_ib_chunk_frame cp B L fb k a idx :
  (idx < cp + k * B \/ cp + k * B + B <= idx)%nat ->
  type_ib_chunk cp B L fb k a !!! idx = a !!! idx.
Proof. intros H. unfold type_ib_chunk. apply cb_dec_frame. exact H. Qed.

Lemma type_ib_chunk_length cp B L fb k a :
  length (type_ib_chunk cp B L fb k a) = length a.
Proof. unfold type_ib_chunk. apply cb_dec_length. Qed.

Lemma type_ii_chunk_frame cp K B L Xi patch k a idx :
  (idx < cp + k * B \/ cp + k * B + B <= idx)%nat ->
  type_ii_chunk cp K B L Xi patch k a !!! idx = a !!! idx.
Proof. intros H. unfold type_ii_chunk. apply cb_inc_frame. exact H. Qed.

Lemma type_ii_chunk_length cp K B L Xi patch k a :
  length (type_ii_chunk cp K B L Xi patch k a) = length a.
Proof. unfold type_ii_chunk. apply cb_inc_length. Qed.

Lemma type_iii_inc_chunk_frame j cp K B L Xi cat patch k a idx :
  (idx < cp + k * B \/ cp + k * B + B <= idx)%nat ->
  type_iii_inc_chunk j cp K B L Xi cat patch k a !!! idx = a !!! idx.
Proof. intros H. unfold type_iii_inc_chunk. apply cb_inc_frame. exact H. Qed.

Lemma type_iii_dec_chunk_frame j cp K B L Xi cat patch k a idx :
  (idx < cp + k * B \/ cp + k * B + B <= idx)%nat ->
  type_iii_dec_chunk j cp K B L Xi cat patch k a !!! idx = a !!! idx.
Proof. intros H. unfold type_iii_dec_chunk. apply cb_dec_frame. exact H. Qed.

Lemma type_iii_invert_chunk_frame j K target k a idx :
  (idx < j * K + k * 1 \/ j * K + k * 1 + 1 <= idx)%nat ->
  type_iii_invert_chunk j K target k a !!! idx = a !!! idx.
Proof.
  intros H. unfold type_iii_invert_chunk.
  rewrite !list_lookup_total_insert_ne by lia. reflexivity.
Qed.

Lemma type_iii_ta_chunk_frame cpt cpi Bt Bi L ind k a idx :
  (idx < cpt + k * Bt \/ cpt + k * Bt + Bt <= idx)%nat ->
  type_iii_ta_chunk cpt cpi Bt Bi L ind k a !!! idx = a !!! idx.
Proof. intros H. unfold type_iii_ta_chunk. apply cb_dec_frame. exact H. Qed.

Lemma type_iii_ta_chunk_length cpt cpi Bt Bi L ind k a :
  length (type_iii_ta_chunk cpt cpi Bt Bi L ind k a) = length a.
Proof. unfold type_iii_ta_chunk. apply cb_dec_length. Qed.

Lemma type_iii_mask_word cpi Bi L ind k : is_word (type_iii_mask cpi Bi L ind k).
Proof. unfold type_iii_mask. apply is_word_land_r, wnot_word. Qed.

Lemma type_iii_ta_chunk_words cpt cpi Bt Bi L ind k a :
  Forall is_word a -> Forall is_word (type_iii_ta_chunk cpt cpi Bt Bi L ind k a).
Proof.
  intros Ha. unfold type_iii_ta_chunk.
  apply cb_dec_words; [exact Ha | apply type_iii_mask_word].
Qed.


(** ** Words with no, one or several bits set *)

Lemma popcount_upto_zero (x : Z) :
  forall m, (forall i, 0 <= i < Z.of_nat m -> Z.testbit x i = false) ->
            popcount_upto m x = 0%nat.
Proof.
  induction m as [|m IH]; intros H; [reflexivity|].
  cbn [popcount_upto]. rewrite IH by (intros i Hi; apply H; lia).
  rewrite H by lia. reflexivity.
Qed.

Lemma popcount_upto_pos (x : Z) :
  forall m i, 0 <= i < Z.of_nat m -> Z.testbit x i = true ->
              (1 <= popcount_upto m x)%nat.
Proof.
  induction m as [|m IH]; intros i Hi Hb; [lia|].
  cbn [popcount_upto].
  destruct (Z.eq_dec i (Z.of_nat m)) as [->|Hne].
  - rewrite Hb. lia.
  - specialize (IH i ltac:(lia) Hb). lia.
Qed.

Lemma popcount_upto_two (x : Z) :
  forall m i j, 0 <= i < j -> j < Z.of_nat m ->
    Z.testbit x i = true -> Z.testbit x j = true ->
    (2 <= popcount_upto m x)%nat.
Proof.
  induction m as [|m IH]; intros i j Hij Hj Hbi Hbj; [lia|].
  cbn [popcount_upto].
  destruct (Z.eq_dec j (Z.of_nat m)) as [->|Hne].
  - rewrite Hbj. pose proof (popcount_upto_pos x m i ltac:(lia) Hbi). lia.
  - specialize (IH i j Hij ltac:(lia) Hbi Hbj). lia.
Qed.

Lemma popcount_upto_pow2 (n : Z) :
  0 <= n ->
  forall m, popcount_upto m (2 ^ n) = if n <? Z.of_nat m then 1%nat else 0%nat.
Proof.
  intros Hn. induction m as [|m IH].
  - cbn [popcount_upto]. destruct (Z.ltb_spec n (Z.of_nat 0)); [lia | reflexivity].
  - cbn [popcount_upto]. rewrite IH, Z.pow2_bits_eqb by lia.
    destruct (Z.ltb_spec n (Z.of_nat m)), (Z.ltb_spec n (Z.of_nat (S m))),
      (Z.eqb_spec n (Z.of_nat m)); lia.
Qed.

Lemma popcount_zero : popcount 0 = 0%nat.
Proof. reflexivity. Qed.

Lemma popcount_pow2 (n : Z) : 0 <= n < 32 -> popcount (2 ^ n) = 1%nat.
Proof.
  intros Hn. unfold popcount. rewrite popcount_upto_pow2 by lia.
  destruct (Z.ltb_spec n (Z.of_nat 32)); lia.
Qed.

Lemma word_log2 (x : Z) :
  is_word x -> x <> 0 ->
  0 <= Z.log2 x < 32 /\ Z.testbit x (Z.log2 x) = true
  /\ 2 ^ Z.log2 x <= x < 2 ^ (Z.log2 x + 1).
Proof.
  intros [Hlo Hhi] Hnz. assert (Hpos : 0 < x) by lia.
  pose proof (Z.log2_nonneg x).
  pose proof (Z.log2_spec x Hpos) as Hspec.
  split; [split; [lia|] | split].
  - apply Z.log2_lt_pow2; [exact Hpos | exact Hhi].
  - apply Z.bit_log2. exact Hpos.
  - replace (Z.log2 x + 1) with (Z.succ (Z.log2 x)) by lia. exact Hspec.
Qed.

Lemma pow2_land_pred (n : Z) : 0 <= n -> Z.land (2 ^ n) (2 ^ n - 1) = 0.
Proof.
  intros Hn. apply Z.bits_inj'. intros i Hi.
  rewrite Z.land_spec, Z.testbit_0_l, Z.pow2_bits_eqb by lia.
  destruct (Z.eqb_spec n i) as [->|Hne]; [|reflexivity].
  replace (2 ^ i - 1) with (Z.ones i) by (rewrite Z.ones_equiv; lia).
  rewrite Z.ones_spec_high by lia. reflexivity.
Qed.

Lemma wdec_pos (x : Z) : is_word x -> x <> 0 -> wdec x = x - 1.
Proof.
  intros [Hlo Hhi] Hnz. unfold wdec. apply Z.mod_small.
  unfold word_mod in *. lia.
Qed.

(** [x & (x - 1)] is zero for a word with exactly one bit set. *)
Lemma single_bit_test (x : Z) :
  is_word x -> x <> 0 ->
  (Z.land x (wdec x) >? 0) = false ->
  x = 2 ^ Z.log2 x.
Proof.
  intros Hw Hnz Htest.
  destruct (word_log2 x Hw Hnz) as (Hn & Hbit & Hlo & Hhi).
  rewrite wdec_pos in Htest by assumption.
  destruct (Z.eq_dec x (2 ^ Z.log2 x)) as [Heq|Hne]; [exact Heq|].
  exfalso.
  assert (Hlog : Z.log2 (x - 1) = Z.log2 x).
  { apply Z.log2_unique; [lia|].
    replace (Z.succ (Z.log2 x)) with (Z.log2 x + 1) by lia. lia. }
  assert (Hbit' : Z.testbit (x - 1) (Z.log2 x) = true).
  { rewrite <- Hlog. apply Z.bit_log2.
    assert (0 < 2 ^ Z.log2 x) by (apply Z.pow_pos_nonneg; lia). lia. }
  assert (Hland : Z.land x (x - 1) = 0).
  { assert (0 <= Z.land x (x - 1)) by (apply Z.land_nonneg; left; apply Hw).
    destruct (Z.gtb_spec (Z.land x (x - 1)) 0); [discriminate | lia]. }
  assert (Hb : Z.testbit (Z.land x (x - 1)) (Z.log2 x) = true)
    by (rewrite Z.land_spec, Hbit, Hbit'; reflexivity).
  rewrite Hland, Z.testbit_0_l in Hb. discriminate.
Qed.

(** [x & (x - 1)] is positive only for a word with two bits set or more. *)
Lemma multi_bit_test (x : Z) :
  is_word x ->
  (Z.land x (wdec x) >? 0) = true ->
  (2 <= popcount x)%nat.
Proof.
  intros Hw Htest.
  destruct (Z.eq_dec x 0) as [->|Hnz]; [discriminate|].
  destruct (word_log2 x Hw Hnz) as (Hn & Hbit & Hlo & Hhi).
  rewrite wdec_pos in Htest by assumption.
  destruct (le_lt_dec 2 (popcount x)) as [Hge|Hlt]; [exact Hge|].
  exfalso.
  assert (Heq : x = 2 ^ Z.log2 x).
  { apply Z.bits_inj'. intros i Hi. rewrite Z.pow2_bits_eqb by lia.
    destruct (Z.eqb_spec (Z.log2 x) i) as [<-|Hne]; [exact Hbit|].
    destruct (Z.testbit x i) eqn:Ebit; [|reflexivity].
    exfalso.
    destruct (Z.ltb_spec i 32) as [Hi32|Hi32];
      [|rewrite is_word_testbit_high in Ebit by assumption; discriminate].
    unfold popcount in Hlt.
    destruct (Z.lt_ge_cases i (Z.log2 x)).
    - pose proof (popcount_upto_two x 32 i (Z.log2 x) ltac:(lia) ltac:(lia)
                    Ebit Hbit). lia.
    - pose proof (popcount_upto_two x 32 (Z.log2 x) i ltac:(lia) ltac:(lia)
                    Hbit Ebit). lia. }
  rewrite Heq in Htest at 1 2.
  rewrite pow2_land_pred in Htest by lia. discriminate.
Qed.

Lemma log2_pow2_eq (x c : Z) : 0 <= c -> x = 2 ^ c -> Z.log2 x = c.
Proof. intros Hc ->. apply Z.log2_pow2. exact Hc. Qed.


(** ** The search for a single offending literal *)

Section SingleFalseLiteral.

Variable ta : list Z.
Variable base K B : nat.
Variable flt : Z.
Variable literal_active Xi : list Z.

Hypothesis ta_words : Forall is_word ta.
Hypothesis flt_word : is_word flt.
Hypothesis K_pos : (1 <= K)%nat.

Lemma offending_word_word (patch k : nat) :
  is_word (offending_word ta base K B literal_active Xi patch k).
Proof using Type*.
  unfold offending_word, action_word.
  apply is_word_lxor; [apply is_word_land_l|]; apply is_word_lookup, ta_words.
Qed.

Lemma offending_tail_word (patch : nat) :
  is_word (offending_tail ta base K B flt literal_active Xi patch).
Proof using Type*.
  unfold offending_tail.
  apply is_word_lxor; apply is_word_land_r, flt_word.
Qed.

Lemma offending_literals_head (patch k : nat) :
  (k < K - 1)%nat ->
  offending_literals ta base K B flt literal_active Xi patch k
  = offending_word ta base K B literal_active Xi patch k.
Proof using Type*.
  intros Hk. unfold offending_literals.
  destruct (Nat.eqb_spec k (K - 1)); [lia | reflexivity].
Qed.

Lemma offending_literals_tail (patch : nat) :
  offending_literals ta base K B flt literal_active Xi patch (K - 1)
  = offending_tail ta base K B flt literal_active Xi patch.
Proof using Type*. unfold offending_literals. rewrite Nat.eqb_refl. reflexivity. Qed.

Lemma popcount_chunks_split (patch : nat) :
  forall n m k,
    popcount_chunks ta base K B flt literal_active Xi patch (n + m) k
    = (popcount_chunks ta base K B flt literal_active Xi patch n k
       + popcount_chunks ta base K B flt literal_active Xi patch m (k + n))%nat.
Proof using Type*.
  induction n as [|n IH]; intros m k; cbn [popcount_chunks Nat.add].
  - replace (k + 0)%nat with k by lia. reflexivity.
  - rewrite IH. replace (S k + n)%nat with (k + S n)%nat by lia. lia.
Qed.

Lemma stripe_popcount_split (patch : nat) :
  stripe_popcount ta base K B flt literal_active Xi patch
  = (popcount_chunks ta base K B flt literal_active Xi patch (K - 1) 0
     + popcount (offending_tail ta base K B flt literal_active Xi patch))%nat.
Proof using Type*.
  unfold stripe_popcount.
  transitivity
    (popcount_chunks ta base K B flt literal_active Xi patch ((K - 1) + 1) 0);
    [f_equal; lia|].
  rewrite popcount_chunks_split. cbn [popcount_chunks Nat.add].
  rewrite offending_literals_tail. lia.
Qed.

(** The loop over the chunks before the tail counts up to two: with [T] the
    number of offending bits found so far. *)
Lemma sfl_chunks_spec (patch : nat) :
  forall n k (a : bool) (id : Z),
    (k + n <= K - 1)%nat ->
    let T := ((if a then 1 else 0)
              + popcount_chunks ta base K B flt literal_active Xi patch n k)%nat in
    let r := sfl_chunks ta base K B literal_active Xi patch n k true a id in
    (T = 0%nat -> r = (true, false, id))
    /\ (T = 1%nat ->
        exists id', r = (true, true, id')
          /\ (a = true -> id' = id)
          /\ (a = false ->
              0 <= id' < 32
              /\ exists k', (k <= k' < k + n)%nat
                   /\ offending_word ta base K B literal_active Xi patch k'
                      = 2 ^ id'))
    /\ ((2 <= T)%nat -> fst (fst r) = false).
Proof using Type*.
  induction n as [|n IH]; intros k a id Hk.
  - cbn [popcount_chunks sfl_chunks]. cbn zeta. split; [|split].
    + intros HT. destruct a; [exfalso; lia | reflexivity].
    + intros HT. destruct a; [|exfalso; lia].
      exists id. split; [reflexivity | split; [reflexivity | discriminate]].
    + intros HT. exfalso. destruct a; lia.
  - cbn [popcount_chunks sfl_chunks]. cbn zeta.
    rewrite offending_literals_head by lia.
    set (x := offending_word ta base K B literal_active Xi patch k).
    pose proof (offending_word_word patch k) as Hx. fold x in Hx.
    destruct (Z.land x (wdec x) >? 0) eqn:Emulti.
    { pose proof (multi_bit_test x Hx Emulti).
      split; [|split]; intros HT; try (exfalso; lia). reflexivity. }
    destruct (Z.eqb_spec x 0) as [Hz|Hnz]; cbn [negb].
    { rewrite Hz, popcount_zero. cbn [Nat.add].
      specialize (IH (S k) a id ltac:(lia)). cbn zeta in IH.
      destruct IH as (IH0 & IH1 & IH2).
      split; [exact IH0 | split; [|exact IH2]].
      intros HT. destruct (IH1 HT) as (id' & Hr & Ha & Hb).
      exists id'. split; [exact Hr | split; [exact Ha|]].
      intros Hfalse. destruct (Hb Hfalse) as (Hrange & k' & Hk' & Hoff).
      split; [exact Hrange|]. exists k'. split; [lia | exact Hoff]. }
    pose proof (single_bit_test x Hx Hnz Emulti) as Hpow.
    destruct (word_log2 x Hx Hnz) as (Hlog & _ & _).
    assert (Hpc : popcount x = 1%nat)
      by (rewrite Hpow; apply popcount_pow2; exact Hlog).
    rewrite Hpc.
    destruct a; cbn [negb].
    { split; [|split]; intros HT; try (exfalso; lia). reflexivity. }
    specialize (IH (S k) true (Z.log2 x) ltac:(lia)). cbn zeta in IH.
    destruct IH as (IH0 & IH1 & IH2).
    split; [intros; exfalso; lia | split; [|intros HT; apply IH2; lia]].
    intros HT. destruct (IH1 ltac:(lia)) as (id' & Hr & Ha & _).
    exists id'. split; [exact Hr | split; [discriminate|]].
    intros _. rewrite (Ha eq_refl).
    split; [exact Hlog|]. exists k. split; [lia | exact Hpow].
Qed.

Lemma offending_at_head (patch k : nat) (c : Z) :
  (k < K - 1)%nat ->
  offending_word ta base K B literal_active Xi patch k = 2 ^ c ->
  offending_at ta base K B flt literal_active Xi patch c.
Proof using Type*.
  intros Hk Hoff. exists k. split; [lia|].
  rewrite offending_literals_head by exact Hk. exact Hoff.
Qed.

Lemma offending_at_tail (patch : nat) (c : Z) :
  offending_tail ta base K B flt literal_active Xi patch = 2 ^ c ->
  offending_at ta base K B flt literal_active Xi patch c.
Proof using Type*.
  intros Hoff. exists (K - 1)%nat. split; [lia|].
  rewrite offending_literals_tail. exact Hoff.
Qed.

(** One turn of the patch loop, by the number of offending bits of the
    patch: none, the patch is passed over; one, its position is recorded;
    more, nothing is recorded and the loop goes on or stops. *)
Lemma sfl_patches_step (n p : nat) (cands : list Z) (id : Z) :
  let tot := stripe_popcount ta base K B flt literal_active Xi p in
  let run := sfl_patches ta base K B flt literal_active Xi in
  (tot = 0%nat -> run (S n) p cands id = run n (S p) cands id)
  /\ (tot = 1%nat ->
      exists c, 0 <= c < 32
        /\ offending_at ta base K B flt literal_active Xi p c
        /\ run (S n) p cands id = run n (S p) (cands ++ [c]) c)
  /\ ((2 <= tot)%nat ->
      run (S n) p cands id = cands
      \/ exists id', run (S n) p cands id = run n (S p) cands id').
Proof using Type*.
  cbn zeta. rewrite stripe_popcount_split. cbn [sfl_patches].
  pose proof (sfl_chunks_spec p (K - 1) 0 false id ltac:(lia)) as Hhead.
  cbn zeta in Hhead. cbn [Nat.add] in Hhead.
  destruct Hhead as (H0 & H1 & H2).
  set (Th := popcount_chunks ta base K B flt literal_active Xi p (K - 1) 0) in *.
  set (t := offending_tail ta base K B flt literal_active Xi p).
  pose proof (offending_tail_word p) as Ht. fold t in Ht.
  destruct (sfl_chunks ta base K B literal_active Xi p (K - 1) 0 true false id)
    as [[m a'] id1] eqn:Echunks.
  destruct (Z.land t (wdec t) >? 0) eqn:Emulti.
  { pose proof (multi_bit_test t Ht Emulti).
    split; [|split]; intros HT; try (exfalso; lia). left. reflexivity. }
  destruct (Z.eqb_spec t 0) as [Hz|Hnz]; cbn [negb].
  - rewrite Hz, popcount_zero. rewrite Nat.add_0_r.
    split; [|split]; intros HT.
    + specialize (H0 HT). inversion H0; subst. reflexivity.
    + destruct (H1 HT) as (id' & Hr & _ & Hb). inversion Hr; subst.
      destruct (Hb eq_refl) as (Hrange & k' & Hk' & Hoff).
      exists id'. split; [exact Hrange | split; [|reflexivity]].
      apply offending_at_head with (k := k'); [lia | exact Hoff].
    + specialize (H2 HT). cbn [fst] in H2. subst m. right. exists id1.
      reflexivity.
  - pose proof (single_bit_test t Ht Hnz Emulti) as Hpow.
    destruct (word_log2 t Ht Hnz) as (Hlog & _ & _).
    assert (Hpc : popcount t = 1%nat)
      by (rewrite Hpow; apply popcount_pow2; exact Hlog).
    rewrite Hpc.
    split; [|split]; intros HT.
    + exfalso. lia.
    + specialize (H0 ltac:(lia)). inversion H0; subst. cbn [negb andb].
      exists (Z.log2 t). split; [exact Hlog | split; [|reflexivity]].
      apply offending_at_tail. exact Hpow.
    + destruct a'; cbn [negb]; [left; reflexivity|].
      destruct (Nat.eq_dec Th 1%nat) as [HTh|HTh].
      * destruct (H1 HTh) as (id' & Hr & _). inversion Hr.
      * specialize (H2 ltac:(lia)). cbn [fst] in H2. subst m. cbn [andb].
        right. exists (Z.log2 t). reflexivity.
Qed.

(** The candidates collected are, in patch order, the positions of the
    offending bit of the patches with exactly one offending bit, among the
    first [n'] patches looked at; the loop looks at all the patches when no
    patch has more than one offending bit. *)
Lemma sfl_patches_spec :
  forall n p cands id,
    exists (n' : nat) (cs : list Z),
      (n' <= n)%nat
      /\ sfl_patches ta base K B flt literal_active Xi n p cands id = cands ++ cs
      /\ Forall2 (offending_at ta base K B flt literal_active Xi)
           (List.filter
              (fun q => stripe_popcount ta base K B flt literal_active Xi q =? 1)%nat
              (seq p n'))
           cs
      /\ Forall (fun c => 0 <= c < 32) cs
      /\ ((n' < n)%nat ->
          (2 <= stripe_popcount ta base K B flt literal_active Xi (p + n'))%nat).
Proof using Type*.
  induction n as [|n IH]; intros p cands id.
  - exists 0%nat, []. cbn. rewrite app_nil_r.
    repeat split; [lia | constructor | constructor | lia].
  - destruct (sfl_patches_step n p cands id) as (S0 & S1 & S2).
    cbn zeta in S0, S1, S2.
    set (tot := stripe_popcount ta base K B flt literal_active Xi p) in *.
    destruct (Nat.eq_dec tot 0%nat) as [E0|N0];
      [|destruct (Nat.eq_dec tot 1%nat) as [E1|N1]].
    + rewrite (S0 E0).
      destruct (IH (S p) cands id) as (n' & cs & Hn' & Hrun & Hall & Hrange & Hstop).
      exists (S n'), cs. split; [lia|]. split; [exact Hrun|]. split; [|split].
      * cbn [seq List.filter]. fold tot. rewrite E0. exact Hall.
      * exact Hrange.
      * intros Hlt. replace (p + S n')%nat with (S p + n')%nat by lia.
        apply Hstop. lia.
    + destruct (S1 E1) as (c & Hc & Hat & Hrun1). rewrite Hrun1.
      destruct (IH (S p) (cands ++ [c]) c)
        as (n' & cs & Hn' & Hrun & Hall & Hrange & Hstop).
      exists (S n'), (c :: cs). split; [lia|]. split; [|split; [|split]].
      * rewrite Hrun, <- app_assoc. reflexivity.
      * cbn [seq List.filter]. fold tot. rewrite E1. cbn.
        constructor; [exact Hat | exact Hall].
      * constructor; [exact Hc | exact Hrange].
      * intros Hlt. replace (p + S n')%nat with (S p + n')%nat by lia.
        apply Hstop. lia.
    + destruct (S2 ltac:(lia)) as [Hstop1|(id' & Hrun1)].
      * exists 0%nat, []. rewrite Hstop1, app_nil_r.
        repeat split; [lia | constructor | constructor |].
        intros _. replace (p + 0)%nat with p by lia. fold tot. lia.
      * rewrite Hrun1.
        destruct (IH (S p) cands id')
          as (n' & cs & Hn' & Hrun & Hall & Hrange & Hstop).
        exists (S n'), cs. split; [lia|]. split; [exact Hrun|]. split; [|split].
        -- cbn [seq List.filter]. fold tot.
           destruct (Nat.eqb_spec tot 1%nat); [lia | exact Hall].
        -- exact Hrange.
        -- intros Hlt. replace (p + S n')%nat with (S p + n')%nat by lia.
           apply Hstop. lia.
Qed.

End SingleFalseLiteral.


Lemma cb_filter_word (F : Z) : is_word (cb_filter F).
Proof.
  unfold cb_filter. destruct (negb _); [apply wnot_word|].
  unfold is_word, word_max, word_mod. lia.
Qed.

Lemma offending_at_below_features (ta : list Z) (base : nat) (F : Z) (B : nat)
    (literal_active Xi : list Z) (patch : nat) (c : Z) :
  1 <= F -> 0 <= c < 32 ->
  offending_at ta base (number_of_ta_chunks F) B (cb_filter F)
    literal_active Xi patch c ->
  c < F.
Proof.
  intros HF Hc (k & Hk & Hoff).
  destruct (number_of_ta_chunks_bounds F HF) as [HK HFK].
  unfold offending_literals in Hoff.
  destruct (Nat.eqb_spec k (number_of_ta_chunks F - 1)) as [->|Hne].
  - assert (Hbit : Z.testbit (cb_filter F) c = true).
    { assert (Hb : Z.testbit (2 ^ c) c = true)
        by (rewrite Z.pow2_bits_eqb by lia; apply Z.eqb_refl).
      rewrite <- Hoff in Hb. unfold offending_tail in Hb.
      rewrite Z.lxor_spec, !Z.land_spec in Hb.
      destruct (Z.testbit (cb_filter F) c); [reflexivity|].
      rewrite !andb_false_r in Hb. discriminate. }
    rewrite testbit_cb_filter in Hbit by exact HF.
    apply andb_true_iff in Hbit. destruct Hbit as [_ Hlt].
    apply Z.ltb_lt in Hlt. lia.
  - lia.
Qed.

Lemma Forall2_strengthen {A C : Type} (R R' : A -> C -> Prop) (Q : C -> Prop)
    (l : list A) (cs : list C) :
  Forall2 R l cs -> Forall Q cs ->
  (forall q c, In q l -> R q c -> Q c -> R' q c) ->
  Forall2 R' l cs.
Proof.
  intros H. induction H as [|q c l cs Hqc _ IH]; intros HQ Himp; constructor.
  - apply (Himp q c); [left; reflexivity | exact Hqc|].
    inversion HQ; assumption.
  - apply IH; [inversion HQ; assumption|].
    intros q' c' Hin. apply Himp. right. exact Hin.
Qed.

Lemma popcount_upto_none (x : Z) :
  forall m, popcount_upto m x = 0%nat ->
            forall i, 0 <= i < Z.of_nat m -> Z.testbit x i = false.
Proof.
  induction m as [|m IH]; intros H i Hi; [lia|].
  cbn [popcount_upto] in H.
  destruct (Z.testbit x (Z.of_nat m)) eqn:Eb; [lia|].
  destruct (Z.eq_dec i (Z.of_nat m)) as [->|Hne]; [exact Eb|].
  apply IH; lia.
Qed.

Lemma popcount_nonzero (x : Z) : is_word x -> x <> 0 -> (1 <= popcount x)%nat.
Proof.
  intros Hx Hne.
  destruct (Nat.eq_dec (popcount x) 0%nat) as [Hz|Hnz]; [|lia].
  exfalso. apply Hne. apply Z.bits_inj'. intros i Hi. rewrite Z.bits_0.
  destruct (Z.ltb_spec i 32) as [Hlt|Hge].
  - apply (popcount_upto_none x 32 Hz). lia.
  - apply is_word_testbit_high; assumption.
Qed.

Lemma popcount_chunks_one ta base K B flt L Xi (patch : nat) :
  forall n k0 b, (k0 <= b < k0 + n)%nat ->
    (popcount (offending_literals ta base K B flt L Xi patch b)
     <= popcount_chunks ta base K B flt L Xi patch n k0)%nat.
Proof.
  induction n as [|n IH]; intros k0 b Hb; [lia|].
  cbn [popcount_chunks].
  destruct (Nat.eq_dec b k0) as [->|Hne]; [lia|].
  specialize (IH (S k0) b ltac:(lia)). lia.
Qed.

Lemma popcount_chunks_two ta base K B flt L Xi (patch : nat) :
  forall n k0 a b, (k0 <= a)%nat -> (a < b)%nat -> (b < k0 + n)%nat ->
    (popcount (offending_literals ta base K B flt L Xi patch a)
     + popcount (offending_literals ta base K B flt L Xi patch b)
     <= popcount_chunks ta base K B flt L Xi patch n k0)%nat.
Proof.
  induction n as [|n IH]; intros k0 a b Ha Hab Hb; [lia|].
  cbn [popcount_chunks].
  destruct (Nat.eq_dec a k0) as [->|Hne].
  - pose proof (popcount_chunks_one ta base K B flt L Xi patch n (S k0) b
                  ltac:(lia)). lia.
  - specialize (IH (S k0) a b ltac:(lia) Hab ltac:(lia)). lia.
Qed.

Lemma offending_literals_word ta base K B flt L Xi (patch k : nat) :
  Forall is_word ta -> is_word flt ->
  is_word (offending_literals ta base K B flt L Xi patch k).
Proof.
  intros Hta Hflt. unfold offending_literals.
  destruct (k =? K - 1)%nat.
  - unfold offending_tail. apply is_word_lxor; apply is_word_land_r, Hflt.
  - unfold offending_word, action_word.
    apply is_word_lxor; [apply is_word_land_l|]; apply is_word_lookup, Hta.
Qed.

(** The index collected for a patch with one offending bit is the position
    of that bit when the bit is in the first chunk. *)
Lemma first_chunk_index ta base K B flt L Xi (patch : nat) (c : Z) :
  Forall is_word ta -> is_word flt ->
  stripe_popcount ta base K B flt L Xi patch = 1%nat ->
  0 <= c < 32 ->
  offending_at ta base K B flt L Xi patch c ->
  offending_literals ta base K B flt L Xi patch 0 <> 0 ->
  offending_literals ta base K B flt L Xi patch 0 = 2 ^ c.
Proof.
  intros Hta Hflt Hone Hc (k & Hk & Hoff) Hfirst.
  destruct (Nat.eq_dec k 0%nat) as [->|Hne]; [exact Hoff|].
  exfalso.
  pose proof (popcount_nonzero _ (offending_literals_word ta base K B flt L Xi
                                    patch 0 Hta Hflt) Hfirst) as H0.
  pose proof (popcount_chunks_two ta base K B flt L Xi patch K 0%nat 0%nat k
                ltac:(lia) ltac:(lia) ltac:(lia)) as Htwo.
  rewrite Hoff, popcount_pow2 in Htwo by exact Hc.
  unfold stripe_popcount in Hone. lia.
Qed.

(** C2, as the code has it: a patch with more than one offending bit adds no
    index.  The patches are looked at in order, and every patch before the
    first one with more than one offending bit is looked at, all of them
    when there is none.  The indices collected are, in patch order, those of
    the patches looked at that have exactly one offending bit; for an
    offending bit among the first 32 literals the index is that literal.
    The search answers [-1] exactly when nothing was collected, and
    otherwise the index at position [r mod count] for the draw [r], which is
    in [[0, F)]. *)
Theorem single_false_literal_search (ta : list Z) (base : nat) (F : Z)
    (B P : nat) (literal_active Xi : list Z) (g : rng) :
  1 <= F -> Forall is_word ta ->
  let K := number_of_ta_chunks F in
  let flt := cb_filter F in
  let count := stripe_popcount ta base K B flt literal_active Xi in
  let result :=
    cb_calculate_clause_output_single_false_literal ta base K B flt
      literal_active Xi P g in
  exists (n' : nat) (candidates : list Z),
    (n' <= P)%nat
    /\ ((n' < P)%nat -> (2 <= count n')%nat)
    /\ (forall m, (m <= P)%nat ->
          (forall q, (q < m)%nat -> (count q <= 1)%nat) -> (m <= n')%nat)
    /\ Forall2 (collected_index ta base K B flt literal_active Xi F)
         (List.filter (fun q => count q =? 1)%nat (seq 0 n')) candidates
    /\ result
       = (if (0 <? length candidates)%nat
          then (nth (Z.to_nat (fst (fast_rand g) mod Z.of_nat (length candidates)))
                    candidates 0,
                snd (fast_rand g))
          else (-1, g))
    /\ (fst result = -1 <-> candidates = [])
    /\ (fst result = -1 \/ 0 <= fst result < F).
Proof.
  intros HF Hta K flt count result.
  destruct (number_of_ta_chunks_bounds F HF) as [HK _]. fold K in HK.
  destruct (sfl_patches_spec ta base K B flt literal_active Xi Hta
              (cb_filter_word F) HK P 0 [] 0)
    as (n' & cs & Hn' & Hrun & Hall & Hrange & Hstop).
  cbn [app Nat.add] in Hrun, Hstop.
  assert (Hcol : Forall2 (collected_index ta base K B flt literal_active Xi F)
                   (List.filter (fun q => count q =? 1)%nat (seq 0 n')) cs).
  { apply (Forall2_strengthen _ _ _ _ _ Hall Hrange).
    intros q c Hq Hat Hc.
    apply filter_In in Hq. destruct Hq as [_ Hone]. apply Nat.eqb_eq in Hone.
    split.
    - split; [lia|].
      apply (offending_at_below_features ta base F B literal_active Xi q c HF
               Hc Hat).
    - apply first_chunk_index;
        [exact Hta | apply cb_filter_word | exact Hone | exact Hc | exact Hat]. }
  assert (Hin : Forall (fun c => 0 <= c < F) cs).
  { clear - Hcol. induction Hcol as [|q c l cs' Hqc _ IH]; constructor.
    - apply Hqc.
    - exact IH. }
  assert (Hres : result
       = (if (0 <? length cs)%nat
          then (nth (Z.to_nat (fst (fast_rand g) mod Z.of_nat (length cs))) cs 0,
                snd (fast_rand g))
          else (-1, g))).
  { unfold result, cb_calculate_clause_output_single_false_literal.
    fold K flt. rewrite Hrun. destruct (0 <? length cs)%nat; reflexivity. }
  assert (Hpick : (0 < length cs)%nat ->
            0 <= nth (Z.to_nat (fst (fast_rand g) mod Z.of_nat (length cs))) cs 0
            < F).
  { intros Hpos. rewrite Forall_forall in Hin. apply Hin.
    apply list_elem_of_In. apply nth_In.
    pose proof (Z.mod_pos_bound (fst (fast_rand g)) (Z.of_nat (length cs))
                  ltac:(lia)). lia. }
  exists n', cs.
  split; [exact Hn'|]. split; [exact Hstop|]. split; [|split; [exact Hcol|]].
  - intros m Hm Hle. destruct (Nat.le_gt_cases m n') as [Hok|Hlt]; [exact Hok|].
    exfalso. specialize (Hstop ltac:(lia)). specialize (Hle n' Hlt).
    unfold count in Hle. lia.
  - split; [exact Hres|]. rewrite Hres.
    destruct (Nat.ltb_spec 0 (length cs)) as [Hpos|Hzero]; cbn [fst].
    + specialize (Hpick Hpos). split; [split|right; exact Hpick].
      * intros Hm. lia.
      * intros ->. cbn in Hpos. lia.
    + split; [split|left; reflexivity].
      * intros _. destruct cs; [reflexivity | cbn in Hzero; lia].
      * reflexivity.
Qed.

(** C2, as stated, fails: with one chunk and two patches, patch 0 has the
    single offending bit 0 and patch 1 has two offending bits, yet the
    search answers literal 0 and not [-1]. *)
Lemma single_false_literal_not_none :
  ~ (forall (ta : list Z) (base : nat) (F : Z) (B P : nat)
            (literal_active Xi : list Z) (g : rng),
        1 <= F -> Forall is_word ta ->
        (exists patch, (patch < P)%nat
           /\ (1 < stripe_popcount ta base (number_of_ta_chunks F) B
                     (cb_filter F) literal_active Xi patch)%nat) ->
        fst (cb_calculate_clause_output_single_false_literal ta base
               (number_of_ta_chunks F) B (cb_filter F) literal_active Xi P g)
        = -1).
Proof.
  intros H.
  specialize (H [15] 0%nat 4 1%nat 2%nat [15] [14; 12] (rng_of_list [])).
  assert (HF : 1 <= 4) by lia.
  assert (Hw : Forall is_word [15]) by (repeat constructor; unfold word_mod; lia).
  assert (Hpatch : exists patch, (patch < 2)%nat
           /\ Nat.lt 1 (stripe_popcount [15] 0 (number_of_ta_chunks 4) 1
                          (cb_filter 4) [15] [14; 12] patch)).
  { exists 1%nat. split; [lia|]. vm_compute. apply Nat.lt_succ_diag_r. }
  specialize (H HF Hw Hpatch). vm_compute in H. discriminate.
Qed.


(** ** The generator *)

Lemma fast_rand_drawn (g : rng) : drawn (snd (fast_rand g)) = S (drawn g).
Proof. reflexivity. Qed.

Lemma fast_rand_stream (g : rng) : stream (snd (fast_rand g)) = stream g.
Proof. reflexivity. Qed.

Lemma fast_rand_value (g : rng) :
  fst (fast_rand g) = stream g (drawn g) mod word_mod.
Proof. reflexivity. Qed.

Lemma skip_draws_succ (n : nat) (g : rng) :
  skip_draws (S n) g = skip_draws n (snd (fast_rand g)).
Proof. unfold skip_draws, fast_rand. cbn. f_equal. lia. Qed.

Lemma skip_draws_zero (g : rng) : skip_draws 0 g = g.
Proof. destruct g as [s d]. unfold skip_draws. cbn. f_equal. lia. Qed.

Lemma feedback_output_rng ta base K B flt L Xi P g :
  let g' := snd (cb_calculate_clause_output_feedback ta base K B flt L Xi P g) in
  stream g' = stream g /\ (drawn g <= drawn g' <= S (drawn g))%nat.
Proof.
  unfold cb_calculate_clause_output_feedback.
  destruct (0 <? length _)%nat; cbn; split; (reflexivity || lia).
Qed.

Lemma single_false_literal_rng ta base K B flt L Xi P g :
  let g' :=
    snd (cb_calculate_clause_output_single_false_literal ta base K B flt L Xi P g) in
  stream g' = stream g /\ (drawn g <= drawn g' <= S (drawn g))%nat.
Proof.
  unfold cb_calculate_clause_output_single_false_literal.
  destruct (0 <? length _)%nat; cbn; split; (reflexivity || lia).
Qed.

Lemma single_false_literal_range ta base K B flt L Xi P g :
  Forall is_word ta -> is_word flt -> (1 <= K)%nat ->
  let r :=
    fst (cb_calculate_clause_output_single_false_literal ta base K B flt L Xi P g) in
  r = -1 \/ 0 <= r < 32.
Proof.
  intros Hta Hflt HK.
  destruct (sfl_patches_spec ta base K B flt L Xi Hta Hflt HK P 0 [] 0)
    as (n' & cs & _ & Hrun & _ & Hrange & _).
  cbn [app] in Hrun.
  unfold cb_calculate_clause_output_single_false_literal. rewrite Hrun.
  destruct (Nat.ltb_spec 0 (length cs)) as [Hpos|Hzero]; cbn; [right | left; reflexivity].
  rewrite Forall_forall in Hrange. apply Hrange.
  apply list_elem_of_In, nth_In.
  pose proof (Z.mod_pos_bound (stream g (drawn g) mod word_mod)
                (Z.of_nat (length cs)) ltac:(lia)).
  lia.
Qed.

Lemma redraw_feature_drawn :
  forall fuel fb F f g f' g',
    redraw_feature fuel fb F f g = Some (f', g') ->
    (drawn g <= drawn g')%nat.
Proof.
  induction fuel as [|fuel IH]; intros fb F f g f' g' H; [discriminate|].
  cbn [redraw_feature] in H.
  destruct (negb _).
  - unfold fast_rand in H. apply IH in H. cbn in H. lia.
  - inversion H; subst. lia.
Qed.

Lemma set_active_features_drawn (fuel : nat) :
  forall active fb F g fb' g',
    set_active_features fuel active fb F g = Some (fb', g') ->
    (drawn g <= drawn g')%nat.
Proof.
  induction active as [|active IH]; intros fb F g fb' g' H.
  - inversion H; subst. lia.
  - cbn [set_active_features] in H. unfold fast_rand in H.
    destruct (redraw_feature _ _ _ _ _) as [[f g2]|] eqn:E; [|discriminate].
    apply redraw_feature_drawn in E. apply IH in H. cbn in E. lia.
Qed.

(** ** One clause of Type I and of Type II *)

Lemma type_i_clause_inactive fuel F B P up s boost ca L Xi j ta g :
  ca !!! j = 0 ->
  type_i_clause fuel F B P up s boost ca L Xi j (ta, g)
  = Some (ta, snd (fast_rand g)).
Proof.
  intros H. unfold type_i_clause, fast_rand. rewrite H. cbn.
  rewrite orb_true_r. reflexivity.
Qed.

Lemma type_ii_clause_inactive F B P up ca L Xi j ta g :
  ca !!! j = 0 ->
  type_ii_clause F B P up ca L Xi j (ta, g) = (ta, snd (fast_rand g)).
Proof.
  intros H. unfold type_ii_clause, fast_rand. rewrite H. cbn.
  rewrite orb_true_r. reflexivity.
Qed.

Lemma type_i_clause_frame fuel F B P up s boost ca L Xi j ta g ta' g' :
  type_i_clause fuel F B P up s boost ca L Xi j (ta, g) = Some (ta', g') ->
  length ta' = length ta
  /\ forall idx,
       (idx < j * number_of_ta_chunks F * B
        \/ j * number_of_ta_chunks F * B + number_of_ta_chunks F * B <= idx)%nat ->
       ta' !!! idx = ta !!! idx.
Proof.
  unfold type_i_clause, fast_rand. cbn zeta.
  destruct (_ || _); [intros H; inversion H; subst; auto|].
  destruct (cb_calculate_clause_output_feedback _ _ _ _ _ _ _ _ _)
    as [[co cp] g2].
  destruct (cb_initialize_random_streams _ _ _ _ _) as [[fb g3]|];
    [|discriminate].
  destruct (negb (co =? 0)); intros H; inversion H; subst; split.
  - apply chunk_loop_length. intros. apply type_ia_chunk_length.
  - intros idx Hidx. apply chunk_loop_frame
      with (cp := (j * number_of_ta_chunks F * B)%nat) (B := B); [|exact Hidx].
    intros. apply type_ia_chunk_frame. assumption.
  - apply chunk_loop_length. intros. apply type_ib_chunk_length.
  - intros idx Hidx. apply chunk_loop_frame
      with (cp := (j * number_of_ta_chunks F * B)%nat) (B := B); [|exact Hidx].
    intros. apply type_ib_chunk_frame. assumption.
Qed.

Lemma type_ii_clause_frame F B P up ca L Xi j ta g :
  let ta' := fst (type_ii_clause F B P up ca L Xi j (ta, g)) in
  length ta' = length ta
  /\ forall idx,
       (idx < j * number_of_ta_chunks F * B
        \/ j * number_of_ta_chunks F * B + number_of_ta_chunks F * B <= idx)%nat ->
       ta' !!! idx = ta !!! idx.
Proof.
  unfold type_ii_clause, fast_rand. cbn zeta.
  destruct (_ || _); [cbn; auto|].
  destruct (cb_calculate_clause_output_feedback _ _ _ _ _ _ _ _ _)
    as [[co cp] g2].
  destruct (negb (co =? 0)); cbn; [|auto]. split.
  - apply chunk_loop_length. intros. apply type_ii_chunk_length.
  - intros idx Hidx. apply chunk_loop_frame
      with (cp := (j * number_of_ta_chunks F * B)%nat) (B := B); [|exact Hidx].
    intros. apply type_ii_chunk_frame. assumption.
Qed.


(** ** One clause of Type III *)

Lemma type_iii_toggle_frame j K target ol cat idx :
  (1 <= K)%nat -> (ol = -1 \/ 0 <= ol < 32) ->
  (idx < j * K \/ j * K + K <= idx)%nat ->
  type_iii_toggle j K target ol cat !!! idx = cat !!! idx.
Proof.
  intros HK Hol Hidx. unfold type_iii_toggle.
  destruct (Z.eqb_spec ol (-1)) as [|Hne]; cbn [negb]; [reflexivity|].
  assert (Hchunk : Z.to_nat (ol / 32) = 0%nat)
    by (rewrite Z.div_small by lia; reflexivity).
  rewrite Hchunk.
  destruct (_ =? 0); [apply list_lookup_total_insert_ne; lia|].
  destruct (negb _); [apply list_lookup_total_insert_ne; lia | reflexivity].
Qed.

Lemma type_iii_clause_inactive F Bt Bi P up d ca L Xi target j bk g :
  ca !!! j = 0 ->
  type_iii_clause F Bt Bi P up d ca L Xi target j (bk, g) = (bk, g).
Proof. intros H. unfold type_iii_clause. rewrite H. reflexivity. Qed.

(** What an active clause goes through: [ind_state] and the ledger are
    updated inside the region of the clause, then the draw for [update_p]
    is taken, and [ta_state] is decremented when the draw passes. *)
Lemma type_iii_clause_active F Bt Bi P up d ca L Xi target j bk g :
  ca !!! j <> 0 ->
  let K := number_of_ta_chunks F in
  exists ind1 cat2 g3,
    type_iii_clause F Bt Bi P up d ca L Xi target j (bk, g)
    = ({| ta_state :=
            if draw_gt (fst (fast_rand g3)) up then ta_state bk
            else for_range K 0
                   (type_iii_ta_chunk (j * K * Bt) (j * K * Bi) Bt Bi L ind1)
                   (ta_state bk);
          ind_state := ind1;
          clause_and_target := cat2 |}, snd (fast_rand g3))
    /\ stream g3 = stream g /\ (drawn g <= drawn g3)%nat
    /\ (forall idx, (idx < j * K * Bi \/ j * K * Bi + K * Bi <= idx)%nat ->
                    ind1 !!! idx = ind_state bk !!! idx)
    /\ (Forall is_word (ta_state bk) -> 1 <= F ->
        forall idx, (idx < j * K \/ j * K + K <= idx)%nat ->
                    cat2 !!! idx = clause_and_target bk !!! idx).
Proof.
  intros Hact K. unfold type_iii_clause. fold K.
  destruct (Z.eqb_spec (ca !!! j) 0) as [|_]; [contradiction|].
  pose proof (feedback_output_rng (ta_state bk) (j * K * Bt) K Bt (cb_filter F)
                L Xi P g) as Hfb.
  destruct (cb_calculate_clause_output_feedback _ _ _ _ _ _ _ _ _)
    as [[co cp] g1]. cbn [snd] in Hfb. destruct Hfb as [Hs1 Hd1].
  assert (Hdecframe : forall ind0 idx,
            (idx < j * K * Bi \/ j * K * Bi + K * Bi <= idx)%nat ->
            for_range K 0
              (type_iii_dec_chunk j (j * K * Bi) K Bi L Xi (clause_and_target bk) cp)
              ind0 !!! idx = ind0 !!! idx).
  { intros ind0 idx Hidx.
    apply chunk_loop_frame with (cp := (j * K * Bi)%nat) (B := Bi); [|exact Hidx].
    intros. apply type_iii_dec_chunk_frame. assumption. }
  assert (Hincframe : forall ind0 idx,
            (idx < j * K * Bi \/ j * K * Bi + K * Bi <= idx)%nat ->
            for_range K 0
              (type_iii_inc_chunk j (j * K * Bi) K Bi L Xi (clause_and_target bk) cp)
              ind0 !!! idx = ind0 !!! idx).
  { intros ind0 idx Hidx.
    apply chunk_loop_frame with (cp := (j * K * Bi)%nat) (B := Bi); [|exact Hidx].
    intros. apply type_iii_inc_chunk_frame. assumption. }
  assert (Hinvframe : forall idx,
            (idx < j * K \/ j * K + K <= idx)%nat ->
            for_range K 0 (type_iii_invert_chunk j K target) (clause_and_target bk)
              !!! idx = clause_and_target bk !!! idx).
  { intros idx Hidx.
    apply chunk_loop_frame with (cp := (j * K)%nat) (B := 1%nat); [|lia].
    intros. apply type_iii_invert_chunk_frame. assumption. }
  destruct (Z.eqb_spec co 0) as [Hco|Hco]; cbn [negb].
  - pose proof (single_false_literal_rng (ta_state bk) (j * K * Bt) K Bt
                  (cb_filter F) L Xi P g1) as Hsfl.
    pose proof (fun Hw HK => single_false_literal_range (ta_state bk) (j * K * Bt)
                  K Bt (cb_filter F) L Xi P g1 Hw (cb_filter_word F) HK) as Hrange.
    destruct (cb_calculate_clause_output_single_false_literal _ _ _ _ _ _ _ _ _)
      as [ol g2]. cbn [fst snd] in Hsfl, Hrange. destruct Hsfl as [Hs2 Hd2].
    exists (ind_state bk), (type_iii_toggle j K target ol (clause_and_target bk)), g2.
    split.
    { unfold fast_rand. cbn [fst snd]. rewrite orb_false_r.
      destruct (draw_gt _ up); reflexivity. }
    split; [congruence|]. split; [lia|]. split; [reflexivity|].
    intros Hw HF idx Hidx.
    destruct (number_of_ta_chunks_bounds F HF) as [HK _]. fold K in HK.
    apply type_iii_toggle_frame; auto.
  - destruct (Z.eqb_spec target 0) as [Htg|Htg]; cbn [negb].
    + eexists _, _, g1. split.
      { unfold fast_rand. cbn [fst snd]. rewrite orb_false_r.
        destruct (draw_gt _ up); reflexivity. }
      split; [exact Hs1|]. split; [lia|]. split.
      * intros idx Hidx. apply Hdecframe. exact Hidx.
      * intros _ _ idx Hidx. apply Hinvframe. exact Hidx.
    + unfold fast_rand at 1. cbn [fst snd].
      destruct (draw_le_decay _ d).
      * eexists _, _, {| stream := stream g1; drawn := S (drawn g1) |}. split.
        { unfold fast_rand. cbn [fst snd]. rewrite orb_false_r.
          destruct (draw_gt _ up); reflexivity. }
        split; [exact Hs1|]. split; [cbn; lia|]. split.
        -- intros idx Hidx. rewrite Hdecframe by exact Hidx.
           apply Hincframe. exact Hidx.
        -- intros _ _ idx Hidx. apply Hinvframe. exact Hidx.
      * eexists _, _, {| stream := stream g1; drawn := S (drawn g1) |}. split.
        { unfold fast_rand. cbn [fst snd]. rewrite orb_false_r.
          destruct (draw_gt _ up); reflexivity. }
        split; [exact Hs1|]. split; [cbn; lia|]. split.
        -- intros idx Hidx. apply Hdecframe. exact Hidx.
        -- intros _ _ idx Hidx. apply Hinvframe. exact Hidx.
Qed.


Lemma type_iii_clause_frame F Bt Bi P up d ca L Xi target j bk g :
  1 <= F -> Forall is_word (ta_state bk) ->
  let K := number_of_ta_chunks F in
  let bk' := fst (type_iii_clause F Bt Bi P up d ca L Xi target j (bk, g)) in
  Forall is_word (ta_state bk')
  /\ length (ta_state bk') = length (ta_state bk)
  /\ (forall idx, (idx < j * K * Bt \/ j * K * Bt + K * Bt <= idx)%nat ->
                  ta_state bk' !!! idx = ta_state bk !!! idx)
  /\ (forall idx, (idx < j * K * Bi \/ j * K * Bi + K * Bi <= idx)%nat ->
                  ind_state bk' !!! idx = ind_state bk !!! idx)
  /\ (forall idx, (idx < j * K \/ j * K + K <= idx)%nat ->
                  clause_and_target bk' !!! idx = clause_and_target bk !!! idx).
Proof.
  intros HF Hw K.
  destruct (Z.eq_dec (ca !!! j) 0) as [Hin|Hact].
  - rewrite type_iii_clause_inactive by exact Hin. cbn. auto.
  - destruct (type_iii_clause_active F Bt Bi P up d ca L Xi target j bk g Hact)
      as (ind1 & cat2 & g3 & Heq & _ & _ & Hind & Hcat).
    fold K in Heq, Hind, Hcat. rewrite Heq. cbn [fst ta_state ind_state clause_and_target].
    split; [|split; [|split; [|split]]].
    + destruct (draw_gt _ up); [exact Hw|].
      apply chunk_loop_words; [|exact Hw].
      intros. apply type_iii_ta_chunk_words. assumption.
    + destruct (draw_gt _ up); [reflexivity|].
      apply chunk_loop_length. intros. apply type_iii_ta_chunk_length.
    + intros idx Hidx. destruct (draw_gt _ up); [reflexivity|].
      apply chunk_loop_frame with (cp := (j * K * Bt)%nat) (B := Bt); [|exact Hidx].
      intros. apply type_iii_ta_chunk_frame. assumption.
    + exact Hind.
    + apply Hcat; assumption.
Qed.

Lemma for_range_opt_invariant {A : Type} (body : nat -> A -> option A)
    (Inv : A -> Prop) :
  forall n k a a',
    (forall k' x x', (k <= k' < k + n)%nat -> Inv x -> body k' x = Some x' -> Inv x') ->
    Inv a -> for_range_opt n k body a = Some a' -> Inv a'.
Proof.
  induction n as [|n IH]; intros k a a' Hbody Ha Hrun; cbn in Hrun.
  - inversion Hrun; subst. exact Ha.
  - destruct (body k a) as [a1|] eqn:E; [|discriminate].
    apply (IH (S k) a1 a'); [|apply (Hbody k a a1); [lia | exact Ha | exact E] | exact Hrun].
    intros k' x x' Hk'. apply Hbody. lia.
Qed.

Lemma cell_in_region (j K B k b : nat) :
  (k < K)%nat -> (b < B)%nat ->
  (j * (K * B) <= j * K * B + k * B + b < j * (K * B) + K * B)%nat.
Proof. intros Hk Hb. assert (k * B + b < K * B)%nat by nia. nia. Qed.

Lemma outside_other_region (j j' K B idx : nat) :
  j <> j' ->
  (j * (K * B) <= idx < j * (K * B) + K * B)%nat ->
  (idx < j' * K * B \/ j' * K * B + K * B <= idx)%nat.
Proof.
  intros Hne Hidx.
  pose proof (region_disjoint j j' (K * B) idx Hne Hidx). nia.
Qed.

(** The cells that belong to clause [j] are left alone by the turns of the
    clause loop for other clauses, and by the turn of clause [j] itself when
    the clause is inactive. *)
Lemma type_i_loop_frame fuel F B P up s boost ca L Xi (j : nat) :
  forall n k ta g ta' g',
    ca !!! j = 0 \/ (j < k \/ k + n <= j)%nat ->
    for_range_opt n k (type_i_clause fuel F B P up s boost ca L Xi) (ta, g)
    = Some (ta', g') ->
    length ta' = length ta
    /\ forall idx,
         (j * (number_of_ta_chunks F * B) <= idx
          < j * (number_of_ta_chunks F * B) + number_of_ta_chunks F * B)%nat ->
         ta' !!! idx = ta !!! idx.
Proof.
  intros n k ta g ta' g' Hj Hrun.
  apply (for_range_opt_invariant
           (type_i_clause fuel F B P up s boost ca L Xi)
           (fun st =>
              length (fst st) = length ta
              /\ forall idx,
                   (j * (number_of_ta_chunks F * B) <= idx
                    < j * (number_of_ta_chunks F * B) + number_of_ta_chunks F * B)%nat ->
                   fst st !!! idx = ta !!! idx)
           n k (ta, g) (ta', g'));
    [|cbn; auto | exact Hrun].
  intros j' [ta1 g1] [ta2 g2] Hj' [Hlen Hinv] Hstep. cbn [fst] in *.
  destruct (Nat.eq_dec j j') as [<-|Hne].
  - destruct Hj as [Hin|Hout]; [|lia].
    rewrite type_i_clause_inactive in Hstep by exact Hin.
    inversion Hstep; subst. auto.
  - apply type_i_clause_frame in Hstep. destruct Hstep as [Hlen2 Hframe].
    split; [lia|]. intros idx Hidx.
    rewrite Hframe; [apply Hinv; exact Hidx|].
    apply outside_other_region with (j := j); assumption.
Qed.

Lemma type_ii_loop_frame F B P up ca L Xi (j : nat) :
  forall n k ta g,
    ca !!! j = 0 \/ (j < k \/ k + n <= j)%nat ->
    let ta' := fst (for_range n k (type_ii_clause F B P up ca L Xi) (ta, g)) in
    length ta' = length ta
    /\ forall idx,
         (j * (number_of_ta_chunks F * B) <= idx
          < j * (number_of_ta_chunks F * B) + number_of_ta_chunks F * B)%nat ->
         ta' !!! idx = ta !!! idx.
Proof.
  intros n k ta g Hj. cbn zeta.
  apply (for_range_invariant (type_ii_clause F B P up ca L Xi)
           (fun st =>
              length (fst st) = length ta
              /\ forall idx,
                   (j * (number_of_ta_chunks F * B) <= idx
                    < j * (number_of_ta_chunks F * B) + number_of_ta_chunks F * B)%nat ->
                   fst st !!! idx = ta !!! idx)); [|cbn; auto].
  intros j' [ta1 g1] Hj' [Hlen Hinv]. cbn [fst] in *.
  destruct (Nat.eq_dec j j') as [<-|Hne].
  - destruct Hj as [Hin|Hout]; [|lia].
    rewrite type_ii_clause_inactive by exact Hin. auto.
  - destruct (type_ii_clause_frame F B P up ca L Xi j' ta1 g1) as [Hlen2 Hframe].
    split; [lia|]. intros idx Hidx.
    rewrite Hframe; [apply Hinv; exact Hidx|].
    apply outside_other_region with (j := j); assumption.
Qed.

Lemma type_iii_loop_frame F Bt Bi P up d ca L Xi target (j : nat) :
  1 <= F ->
  forall n k bk g,
    ca !!! j = 0 \/ (j < k \/ k + n <= j)%nat ->
    Forall is_word (ta_state bk) ->
    let K := number_of_ta_chunks F in
    let bk' :=
      fst (for_range n k (type_iii_clause F Bt Bi P up d ca L Xi target) (bk, g)) in
    (Forall is_word (ta_state bk')
     /\ length (ta_state bk') = length (ta_state bk))
    /\ (forall idx, (j * (K * Bt) <= idx < j * (K * Bt) + K * Bt)%nat ->
                    ta_state bk' !!! idx = ta_state bk !!! idx)
    /\ (forall idx, (j * (K * Bi) <= idx < j * (K * Bi) + K * Bi)%nat ->
                    ind_state bk' !!! idx = ind_state bk !!! idx)
    /\ (forall idx, (j * (K * 1) <= idx < j * (K * 1) + K * 1)%nat ->
                    clause_and_target bk' !!! idx = clause_and_target bk !!! idx).
Proof.
  intros HF n k bk g Hj Hw K.
  set (Inv := fun st : bank * rng =>
    (Forall is_word (ta_state (fst st))
     /\ length (ta_state (fst st)) = length (ta_state bk))
    /\ (forall idx, (j * (K * Bt) <= idx < j * (K * Bt) + K * Bt)%nat ->
                    ta_state (fst st) !!! idx = ta_state bk !!! idx)
    /\ (forall idx, (j * (K * Bi) <= idx < j * (K * Bi) + K * Bi)%nat ->
                    ind_state (fst st) !!! idx = ind_state bk !!! idx)
    /\ (forall idx, (j * (K * 1) <= idx < j * (K * 1) + K * 1)%nat ->
                    clause_and_target (fst st) !!! idx
                    = clause_and_target bk !!! idx)).
  assert (Hfinal : Inv (for_range n k
                          (type_iii_clause F Bt Bi P up d ca L Xi target) (bk, g))).
  { apply for_range_invariant; [|unfold Inv; cbn; auto].
    intros j' [bk1 g1] Hj' ((Hw1 & Hlen) & Hta & Hind & Hcat). cbn [fst] in *.
    destruct (Nat.eq_dec j j') as [<-|Hne].
    - destruct Hj as [Hin|Hout]; [|lia].
      rewrite type_iii_clause_inactive by exact Hin. unfold Inv. cbn. auto.
    - destruct (type_iii_clause_frame F Bt Bi P up d ca L Xi target j' bk1 g1 HF Hw1)
        as (Hw2 & Hlen2 & Fta & Find & Fcat). fold K in Fta, Find, Fcat.
      unfold Inv. split; [split; [exact Hw2 | lia]|]. split; [|split].
      + intros idx Hidx. rewrite Fta; [apply Hta; exact Hidx|].
        apply outside_other_region with (j := j); assumption.
      + intros idx Hidx. rewrite Find; [apply Hind; exact Hidx|].
        apply outside_other_region with (j := j); assumption.
      + intros idx Hidx. rewrite Fcat; [apply Hcat; exact Hidx|].
        pose proof (outside_other_region j j' K 1 idx Hne Hidx). lia. }
  exact Hfinal.
Qed.

(** C8: a feedback call of any type leaves the part of [ta_state], of
    [ind_state] and of [clause_and_target] that belongs to a clause with
    [clause_active[j] == 0] exactly as it was. *)
Theorem inactive_clause_untouched (call : feedback_call) (bk bk' : bank)
    (C : nat) (F : Z) (B P : nat) (clause_active literal_active Xi : list Z)
    (g g' : rng) (j B_ind : nat) :
  1 <= F -> Forall is_word (ta_state bk) ->
  run_feedback call bk C F B P clause_active literal_active Xi g = Some (bk', g') ->
  (j < C)%nat -> clause_active !!! j = 0 ->
  match call with TypeIII b _ _ _ => b = B_ind | _ => True end ->
  let K := number_of_ta_chunks F in
  (forall k b, (k < K)%nat -> (b < B)%nat ->
     ta_state bk' !!! (j * K * B + k * B + b)%nat
     = ta_state bk !!! (j * K * B + k * B + b)%nat)
  /\ (forall k b, (k < K)%nat -> (b < B_ind)%nat ->
        ind_state bk' !!! (j * K * B_ind + k * B_ind + b)%nat
        = ind_state bk !!! (j * K * B_ind + k * B_ind + b)%nat)
  /\ (forall k, (k < K)%nat ->
        clause_and_target bk' !!! (j * K + k)%nat
        = clause_and_target bk !!! (j * K + k)%nat).
Proof.
  intros HF Hw Hrun Hj Hin Hbits K.
  destruct call as [fuel up s boost | up | Bi up d target]; cbn [run_feedback] in Hrun.
  - unfold cb_type_i_feedback in Hrun.
    destruct (for_range_opt _ _ _ _) as [[ta' g1]|] eqn:E; [|discriminate].
    inversion Hrun; subst. cbn [ta_state ind_state clause_and_target].
    split; [|auto]. intros k b Hk Hb.
    apply (type_i_loop_frame fuel F B P up s boost clause_active literal_active Xi
             j _ _ _ _ _ _ (or_introl Hin) E).
    apply cell_in_region; assumption.
  - unfold cb_type_ii_feedback in Hrun.
    pose proof (type_ii_loop_frame F B P up clause_active literal_active Xi j
                  C 0 (ta_state bk) g (or_introl Hin)) as Hframe.
    cbn zeta in Hframe.
    destruct (for_range _ _ _ _) as [ta' g1]. cbn [fst] in Hframe.
    inversion Hrun; subst. cbn [ta_state ind_state clause_and_target].
    split; [|auto]. intros k b Hk Hb. apply Hframe.
    apply cell_in_region; assumption.
  - subst Bi. unfold cb_type_iii_feedback in Hrun.
    pose proof (type_iii_loop_frame F B B_ind P up d clause_active literal_active
                  Xi target j HF C 0 bk g (or_introl Hin) Hw) as Hframe.
    cbn zeta in Hframe. fold K in Hframe.
    destruct (for_range _ _ _ _) as [bk1 g1]. cbn [fst] in Hframe.
    inversion Hrun; subst. destruct Hframe as (_ & H1 & H2 & H3).
    split; [|split].
    + intros k b Hk Hb. apply H1. apply cell_in_region; assumption.
    + intros k b Hk Hb. apply H2. apply cell_in_region; assumption.
    + intros k Hk. apply H3. lia.
Qed.


(** ** Draws *)

Lemma cb_initialize_random_streams_drawn fuel F K s g fb g' :
  cb_initialize_random_streams fuel F K s g = Some (fb, g') ->
  (drawn g <= drawn g')%nat.
Proof using normal_forward.
  unfold cb_initialize_random_streams. intros H.
  pose proof (normal_forward F s g) as Hn.
  destruct (normal F s g) as [active g1]. cbn [snd] in Hn.
  apply set_active_features_drawn in H. lia.
Qed.

Lemma type_i_clause_drawn fuel F B P up s boost ca L Xi j ta g ta' g' :
  type_i_clause fuel F B P up s boost ca L Xi j (ta, g) = Some (ta', g') ->
  (S (drawn g) <= drawn g')%nat.
Proof using normal_forward.
  unfold type_i_clause, fast_rand. cbn zeta.
  destruct (_ || _); [intros H; inversion H; subst; cbn; lia|].
  match goal with
  | |- context [cb_calculate_clause_output_feedback ?a ?b ?c ?d ?e ?f ?h ?p ?q] =>
      pose proof (feedback_output_rng a b c d e f h p q) as Hfb
  end.
  destruct (cb_calculate_clause_output_feedback _ _ _ _ _ _ _ _ _)
    as [[co cp] g2]. cbn [snd] in Hfb. cbn [drawn] in Hfb.
  destruct (cb_initialize_random_streams _ _ _ _ _) as [[fb g3]|] eqn:E;
    [|discriminate].
  apply cb_initialize_random_streams_drawn in E.
  destruct (negb (co =? 0)); intros H; inversion H; subst; lia.
Qed.

Lemma type_ii_clause_drawn F B P up ca L Xi j ta g :
  (S (drawn g) <= drawn (snd (type_ii_clause F B P up ca L Xi j (ta, g))))%nat.
Proof.
  unfold type_ii_clause, fast_rand. cbn zeta.
  destruct (_ || _); [cbn; lia|].
  match goal with
  | |- context [cb_calculate_clause_output_feedback ?a ?b ?c ?d ?e ?f ?h ?p ?q] =>
      pose proof (feedback_output_rng a b c d e f h p q) as Hfb
  end.
  destruct (cb_calculate_clause_output_feedback _ _ _ _ _ _ _ _ _)
    as [[co cp] g2]. cbn [snd] in Hfb. cbn [drawn] in Hfb.
  destruct (negb (co =? 0)); cbn; lia.
Qed.

Lemma type_iii_clause_drawn F Bt Bi P up d ca L Xi target j bk g :
  ca !!! j <> 0 ->
  (S (drawn g)
   <= drawn (snd (type_iii_clause F Bt Bi P up d ca L Xi target j (bk, g))))%nat.
Proof.
  intros Hact.
  destruct (type_iii_clause_active F Bt Bi P up d ca L Xi target j bk g Hact)
    as (ind1 & cat2 & g3 & Heq & _ & Hd & _).
  rewrite Heq. cbn. lia.
Qed.

Lemma type_i_loop_drawn fuel F B P up s boost ca L Xi :
  forall n k ta g ta' g',
    for_range_opt n k (type_i_clause fuel F B P up s boost ca L Xi) (ta, g)
    = Some (ta', g') ->
    (drawn g + n <= drawn g')%nat.
Proof using normal_forward.
  induction n as [|n IH]; intros k ta g ta' g' H; cbn [for_range_opt] in H.
  - inversion H; subst. lia.
  - destruct (type_i_clause _ _ _ _ _ _ _ _ _ _ _ _) as [[ta1 g1]|] eqn:E;
      [|discriminate].
    apply type_i_clause_drawn in E. apply IH in H. lia.
Qed.

Lemma type_ii_loop_drawn F B P up ca L Xi :
  forall n k ta g,
    (drawn g + n
     <= drawn (snd (for_range n k (type_ii_clause F B P up ca L Xi) (ta, g))))%nat.
Proof.
  induction n as [|n IH]; intros k ta g; cbn [for_range]; [cbn; lia|].
  pose proof (type_ii_clause_drawn F B P up ca L Xi k ta g) as Hstep.
  destruct (type_ii_clause _ _ _ _ _ _ _ _ _) as [ta1 g1]. cbn [snd] in Hstep.
  specialize (IH (S k) ta1 g1). lia.
Qed.

Lemma type_iii_loop_drawn F Bt Bi P up d ca L Xi target :
  forall n k bk g,
    (drawn g + active_clauses ca k n
     <= drawn (snd (for_range n k (type_iii_clause F Bt Bi P up d ca L Xi target)
                      (bk, g))))%nat.
Proof.
  unfold active_clauses.
  induction n as [|n IH]; intros k bk g; cbn [for_range seq List.filter];
    [cbn; lia|].
  destruct (Z.eqb_spec (ca !!! k) 0) as [Hin|Hact]; cbn [negb].
  - rewrite type_iii_clause_inactive by exact Hin. apply IH.
  - pose proof (type_iii_clause_drawn F Bt Bi P up d ca L Xi target k bk g Hact)
      as Hstep.
    destruct (type_iii_clause _ _ _ _ _ _ _ _ _ _ _ _) as [bk1 g1].
    cbn [snd] in Hstep. specialize (IH (S k) bk1 g1). cbn [length]. lia.
Qed.

Lemma type_i_loop_inactive fuel F B P up s boost ca L Xi :
  forall n k ta g,
    (forall j, (k <= j < k + n)%nat -> ca !!! j = 0) ->
    for_range_opt n k (type_i_clause fuel F B P up s boost ca L Xi) (ta, g)
    = Some (ta, skip_draws n g).
Proof.
  induction n as [|n IH]; intros k ta g H; cbn [for_range_opt].
  - rewrite skip_draws_zero. reflexivity.
  - rewrite type_i_clause_inactive by (apply H; lia).
    rewrite IH by (intros j Hj; apply H; lia).
    rewrite skip_draws_succ. reflexivity.
Qed.

Lemma type_ii_loop_inactive F B P up ca L Xi :
  forall n k ta g,
    (forall j, (k <= j < k + n)%nat -> ca !!! j = 0) ->
    for_range n k (type_ii_clause F B P up ca L Xi) (ta, g)
    = (ta, skip_draws n g).
Proof.
  induction n as [|n IH]; intros k ta g H; cbn [for_range].
  - rewrite skip_draws_zero. reflexivity.
  - rewrite type_ii_clause_inactive by (apply H; lia).
    rewrite IH by (intros j Hj; apply H; lia).
    rewrite skip_draws_succ. reflexivity.
Qed.

Lemma type_iii_loop_inactive F Bt Bi P up d ca L Xi target :
  forall n k bk g,
    (forall j, (k <= j < k + n)%nat -> ca !!! j = 0) ->
    for_range n k (type_iii_clause F Bt Bi P up d ca L Xi target) (bk, g)
    = (bk, g).
Proof.
  induction n as [|n IH]; intros k bk g H; cbn [for_range]; [reflexivity|].
  rewrite type_iii_clause_inactive by (apply H; lia).
  apply IH. intros j Hj. apply H. lia.
Qed.

(** C10: Type I and Type II take the draw for [update_p] first, for every
    clause in index order, and look at [clause_active[j]] afterwards: a
    clause that is inactive, or whose draw fails, costs exactly that one
    draw and changes nothing, a call takes at least one draw per clause,
    and with every clause inactive it leaves the bank as it is and the
    generator [C] draws further.  Type III looks at [clause_active[j]]
    first: an inactive clause costs no draw, an active one at least one,
    and with every clause inactive the call changes neither the bank nor
    the generator. *)
Theorem update_draw_order (fuel : nat) (ta : list Z) (bk : bank) (C : nat)
    (F : Z) (B B_ind P : nat) (update_p s d : float) (boost target : Z)
    (clause_active literal_active Xi : list Z) (g : rng) :
  let step_i :=
    type_i_clause fuel F B P update_p s boost clause_active literal_active Xi in
  let call_i :=
    cb_type_i_feedback fuel ta C F B P update_p s boost clause_active
      literal_active Xi g in
  let step_ii := type_ii_clause F B P update_p clause_active literal_active Xi in
  let call_ii :=
    cb_type_ii_feedback ta C F B P update_p clause_active literal_active Xi g in
  let step_iii :=
    type_iii_clause F B B_ind P update_p d clause_active literal_active Xi target in
  let call_iii :=
    cb_type_iii_feedback bk C F B B_ind P update_p d clause_active
      literal_active Xi target g in
  let all_inactive := forall j, (j < C)%nat -> clause_active !!! j = 0 in
  ((forall j ta0 g0,
      clause_active !!! j = 0 \/ draw_gt (fst (fast_rand g0)) update_p = true ->
      step_i j (ta0, g0) = Some (ta0, snd (fast_rand g0)))
   /\ (forall ta' g', call_i = Some (ta', g') -> (drawn g + C <= drawn g')%nat)
   /\ (all_inactive -> call_i = Some (ta, skip_draws C g)))
  /\ ((forall j ta0 g0,
         clause_active !!! j = 0 \/ draw_gt (fst (fast_rand g0)) update_p = true ->
         step_ii j (ta0, g0) = (ta0, snd (fast_rand g0)))
      /\ (drawn g + C <= drawn (snd call_ii))%nat
      /\ (all_inactive -> call_ii = (ta, skip_draws C g)))
  /\ ((forall j bk0 g0,
         clause_active !!! j = 0 -> step_iii j (bk0, g0) = (bk0, g0))
      /\ (forall j bk0 g0,
            clause_active !!! j <> 0 ->
            (S (drawn g0) <= drawn (snd (step_iii j (bk0, g0))))%nat)
      /\ (drawn g + active_clauses clause_active 0 C <= drawn (snd call_iii))%nat
      /\ (all_inactive -> call_iii = (bk, g))).
Proof using normal_forward.
  cbn zeta. split; [|split]; repeat split.
  - intros j ta0 g0 [Hin|Hfail].
    + apply type_i_clause_inactive. exact Hin.
    + unfold type_i_clause, fast_rand in *. cbn [fst snd] in *.
      rewrite Hfail. reflexivity.
  - intros ta' g' H. apply type_i_loop_drawn in H. exact H.
  - intros H. apply type_i_loop_inactive. intros j Hj. apply H. lia.
  - intros j ta0 g0 [Hin|Hfail].
    + apply type_ii_clause_inactive. exact Hin.
    + unfold type_ii_clause, fast_rand in *. cbn [fst snd] in *.
      rewrite Hfail. reflexivity.
  - apply type_ii_loop_drawn.
  - intros H. apply type_ii_loop_inactive. intros j Hj. apply H. lia.
  - intros j bk0 g0 Hin. apply type_iii_clause_inactive. exact Hin.
  - intros j bk0 g0 Hact. apply type_iii_clause_drawn. exact Hact.
  - apply type_iii_loop_drawn.
  - intros H. apply type_iii_loop_inactive. intros j Hj. apply H. lia.
Qed.


(** ** What a loop over the chunks does to a counter *)

Lemma for_range_at {A : Type} (body : nat -> A -> A) (n j : nat) (a : A) :
  (j < n)%nat ->
  for_range n 0 body a
  = for_range (n - S j) (S j) body (body j (for_range j 0 body a)).
Proof.
  intros Hj.
  replace n with (j + S (n - S j))%nat at 1 by lia.
  rewrite for_range_split. reflexivity.
Qed.

Lemma counter_other_stripe (a a' : list Z) (cp k k' B : nat) (i : Z) :
  k <> k' ->
  (forall idx, (idx < cp + k' * B \/ cp + k' * B + B <= idx)%nat ->
               a' !!! idx = a !!! idx) ->
  counter a' (cp + k * B) B i = counter a (cp + k * B) B i.
Proof.
  intros Hne Hframe. unfold counter. apply counter_from_ext.
  intros idx Hidx. apply Hframe.
  pose proof (region_disjoint k k' B (idx - cp) Hne ltac:(lia)). lia.
Qed.

(** Chunk [k] of the loop changes the counters of stripe [k] only, and what
    it does to them depends on that stripe only: after the loop, a counter
    of stripe [k] is what the body of turn [k] makes of it. *)
Lemma chunk_loop_counter (body : nat -> list Z -> list Z) (cp K B : nat) (i : Z)
    (f : nat -> Z -> list Z -> Z) :
  (forall k a idx, (k < K)%nat ->
     (idx < cp + k * B \/ cp + k * B + B <= idx)%nat ->
     body k a !!! idx = a !!! idx) ->
  (forall k a, length (body k a) = length a) ->
  (forall k a, (k < K)%nat -> (cp + K * B <= length a)%nat ->
     counter (body k a) (cp + k * B) B i = f k (counter a (cp + k * B) B i) a) ->
  (forall k c a a', (k < K)%nat ->
     (forall idx, (cp + k * B <= idx < cp + k * B + B)%nat -> a !!! idx = a' !!! idx) ->
     f k c a = f k c a') ->
  forall k a, (k < K)%nat -> (cp + K * B <= length a)%nat ->
    counter (for_range K 0 body a) (cp + k * B) B i
    = f k (counter a (cp + k * B) B i) a.
Proof.
  intros Hframe Hlen Heffect Hlocal k a Hk Ha.
  assert (Hother : forall n k0 a0,
            (k < k0 \/ k0 + n <= k)%nat -> (k0 + n <= K)%nat ->
            length (for_range n k0 body a0) = length a0
            /\ forall idx, (cp + k * B <= idx < cp + k * B + B)%nat ->
                 for_range n k0 body a0 !!! idx = a0 !!! idx).
  { intros n k0 a0 Hout HK.
    apply (for_range_invariant body
             (fun a' => length a' = length a0
                        /\ forall idx, (cp + k * B <= idx < cp + k * B + B)%nat ->
                             a' !!! idx = a0 !!! idx)); [|auto].
    intros k' a' Hk' [Hl Hc]. split; [rewrite Hlen; exact Hl|].
    intros idx Hidx. rewrite Hframe; [apply Hc; exact Hidx | lia |].
    pose proof (region_disjoint k k' B (idx - cp) ltac:(lia) ltac:(lia)). lia. }
  rewrite (for_range_at body K k a Hk).
  destruct (Hother k 0%nat a ltac:(lia) ltac:(lia)) as [Hl1 Hc1].
  set (ak := for_range k 0 body a) in *.
  destruct (Hother (K - S k)%nat (S k) (body k ak) ltac:(lia) ltac:(lia))
    as [Hl2 Hc2].
  transitivity (counter (body k ak) (cp + k * B) B i).
  - unfold counter. apply counter_from_ext. intros idx Hidx. apply Hc2. lia.
  - rewrite Heffect by (try rewrite Hl1; assumption).
    rewrite (Hlocal k _ ak a Hk Hc1). f_equal.
    unfold counter. apply counter_from_ext. intros idx Hidx. apply Hc1. lia.
Qed.

Lemma type_ii_mask_low_counter cp K B L Xi patch k a i :
  (1 <= B)%nat -> 0 <= i < 32 ->
  Z.testbit (type_ii_mask cp K B L Xi patch k a) i = true ->
  counter a (cp + k * B) B i + 1 <= 2 ^ Z.of_nat B - 1.
Proof.
  intros HB Hi Hm. unfold type_ii_mask in Hm.
  rewrite !Z.land_spec, !testbit_wnot_low in Hm by exact Hi.
  apply andb_true_iff in Hm. destruct Hm as [_ Htop].
  apply negb_true_iff in Htop.
  rewrite (counter_top a (cp + k * B) B i HB) in Htop.
  apply Z.leb_gt in Htop.
  assert (2 ^ Z.of_nat B = 2 * 2 ^ (Z.of_nat B - 1)).
  { rewrite <- Z.pow_succ_r by lia. f_equal. lia. }
  lia.
Qed.

(** Type II: the loop over the chunks adds one to the counters of the mask
    and to no other. *)
Lemma type_ii_loop_counter cp K B L Xi patch a k i :
  (1 <= B)%nat -> (k < K)%nat -> (cp + K * B <= length a)%nat -> 0 <= i < 32 ->
  counter (for_range K 0 (type_ii_chunk cp K B L Xi patch) a) (cp + k * B) B i
  = counter a (cp + k * B) B i
    + b2w (Z.testbit (type_ii_mask cp K B L Xi patch k a) i).
Proof.
  intros HB Hk Hlen Hi.
  rewrite (chunk_loop_counter (type_ii_chunk cp K B L Xi patch) cp K B i
             (fun k c a =>
                if Z.testbit (type_ii_mask cp K B L Xi patch k a) i
                then Z.min (c + 1) (2 ^ Z.of_nat B - 1) else c)).
  - destruct (Z.testbit _ i) eqn:Em; simpl b2w; [|lia].
    pose proof (type_ii_mask_low_counter cp K B L Xi patch k a i HB Hi Em). lia.
  - intros. apply type_ii_chunk_frame. assumption.
  - intros. apply type_ii_chunk_length.
  - intros k' a' Hk' Hlen'. unfold type_ii_chunk. apply cb_inc_counter.
    + unfold type_ii_mask. apply Z.land_nonneg. right. apply wnot_word.
    + assert (k' * B + B <= K * B)%nat by nia. lia.
  - intros k' c a1 a2 Hk' Hsame. unfold type_ii_mask.
    rewrite (Hsame (cp + k' * B + B - 1)%nat) by lia. reflexivity.
  - exact Hk.
  - exact Hlen.
Qed.

(** Type III: the last loop over the chunks takes one from the counters of
    the mask and from no other. *)
Lemma type_iii_loop_counter cpt cpi K Bt Bi L ind a k i :
  (k < K)%nat -> (cpt + K * Bt <= length a)%nat -> 0 <= i < 32 ->
  counter (for_range K 0 (type_iii_ta_chunk cpt cpi Bt Bi L ind) a)
    (cpt + k * Bt) Bt i
  = if Z.testbit (type_iii_mask cpi Bi L ind k) i
    then Z.max (counter a (cpt + k * Bt) Bt i - 1) 0
    else counter a (cpt + k * Bt) Bt i.
Proof.
  intros Hk Hlen Hi.
  rewrite (chunk_loop_counter (type_iii_ta_chunk cpt cpi Bt Bi L ind) cpt K Bt i
             (fun k c _ =>
                if Z.testbit (type_iii_mask cpi Bi L ind k) i
                then Z.max (c - 1) 0 else c)).
  - reflexivity.
  - intros. apply type_iii_ta_chunk_frame. assumption.
  - intros. apply type_iii_ta_chunk_length.
  - intros k' a' Hk' Hlen'. unfold type_iii_ta_chunk. apply cb_dec_counter.
    + exact Hi.
    + apply type_iii_mask_word.
    + assert (k' * Bt + Bt <= K * Bt)%nat by nia. lia.
  - reflexivity.
  - exact Hk.
  - exact Hlen.
Qed.

(** Type Ia: in a chunk, a counter goes up by one when the first mask
    selects it and then down by one when the second does. *)
Lemma type_ia_loop_counter cp K B boost L Xi fb patch a k i :
  Forall is_word L ->
  (k < K)%nat -> (cp + K * B <= length a)%nat -> 0 <= i < 32 ->
  let m_inc :=
    if boost =? 1 then Z.land (L !!! k) (Xi !!! (patch * K + k)%nat)
    else Z.land (Z.land (L !!! k) (Xi !!! (patch * K + k)%nat)) (wnot (fb !!! k)) in
  let m_dec :=
    Z.land (Z.land (L !!! k) (wnot (Xi !!! (patch * K + k)%nat))) (fb !!! k) in
  let c := counter a (cp + k * B) B i in
  let c1 := if Z.testbit m_inc i then Z.min (c + 1) (2 ^ Z.of_nat B - 1) else c in
  counter (for_range K 0 (type_ia_chunk cp K B boost L Xi fb patch) a)
    (cp + k * B) B i
  = if Z.testbit m_dec i then Z.max (c1 - 1) 0 else c1.
Proof.
  intros HL Hk Hlen Hi. cbn zeta.
  rewrite (chunk_loop_counter (type_ia_chunk cp K B boost L Xi fb patch) cp K B i
             (fun k c _ =>
                let m_inc :=
                  if boost =? 1 then Z.land (L !!! k) (Xi !!! (patch * K + k)%nat)
                  else Z.land (Z.land (L !!! k) (Xi !!! (patch * K + k)%nat))
                              (wnot (fb !!! k)) in
                let m_dec :=
                  Z.land (Z.land (L !!! k) (wnot (Xi !!! (patch * K + k)%nat)))
                         (fb !!! k) in
                let c1 := if Z.testbit m_inc i
                          then Z.min (c + 1) (2 ^ Z.of_nat B - 1) else c in
                if Z.testbit m_dec i then Z.max (c1 - 1) 0 else c1)).
  - reflexivity.
  - intros. apply type_ia_chunk_frame. assumption.
  - intros. apply type_ia_chunk_length.
  - intros k' a' Hk' Hlen'. unfold type_ia_chunk. cbn zeta.
    assert (HLk : 0 <= L !!! k') by (apply is_word_lookup; exact HL).
    assert (Hin : (cp + k' * B + B <= length a')%nat).
    { assert (k' * B + B <= K * B)%nat by nia. lia. }
    rewrite cb_dec_counter.
    + destruct (boost =? 1); rewrite cb_inc_counter; try reflexivity;
        try exact Hin; repeat (apply Z.land_nonneg; left); exact HLk.
    + exact Hi.
    + repeat (apply Z.land_nonneg; left). exact HLk.
    + destruct (boost =? 1); rewrite cb_inc_length; exact Hin.
  - reflexivity.
  - exact Hk.
  - exact Hlen.
Qed.

(** Type Ib: in a chunk, a counter goes down by one when the mask selects
    it. *)
Lemma type_ib_loop_counter cp K B L fb a k i :
  Forall is_word L ->
  (k < K)%nat -> (cp + K * B <= length a)%nat -> 0 <= i < 32 ->
  counter (for_range K 0 (type_ib_chunk cp B L fb) a) (cp + k * B) B i
  = if Z.testbit (Z.land (L !!! k) (fb !!! k)) i
    then Z.max (counter a (cp + k * B) B i - 1) 0
    else counter a (cp + k * B) B i.
Proof.
  intros HL Hk Hlen Hi.
  rewrite (chunk_loop_counter (type_ib_chunk cp B L fb) cp K B i
             (fun k c _ =>
                if Z.testbit (Z.land (L !!! k) (fb !!! k)) i
                then Z.max (c - 1) 0 else c)).
  - reflexivity.
  - intros. apply type_ib_chunk_frame. assumption.
  - intros. apply type_ib_chunk_length.
  - intros k' a' Hk' Hlen'. unfold type_ib_chunk. apply cb_dec_counter.
    + exact Hi.
    + apply Z.land_nonneg. left. apply is_word_lookup. exact HL.
    + assert (k' * B + B <= K * B)%nat by nia. lia.
  - reflexivity.
  - exact Hk.
  - exact Hlen.
Qed.


(** ** The effect of a call on the counters of a clause *)

Lemma action_word_region (ta1 ta2 : list Z) (j K B k : nat) :
  (1 <= B)%nat -> (k < K)%nat ->
  (forall idx, (j * (K * B) <= idx < j * (K * B) + K * B)%nat ->
               ta1 !!! idx = ta2 !!! idx) ->
  action_word ta1 (j * K * B) B k = action_word ta2 (j * K * B) B k.
Proof.
  intros HB Hk Hsame. unfold action_word. apply Hsame.
  pose proof (cell_in_region j K B k (B - 1) Hk ltac:(lia)). lia.
Qed.

Lemma feedback_output_region (ta1 ta2 : list Z) (j K B : nat) (flt : Z)
    (L Xi : list Z) (P : nat) (g : rng) :
  (1 <= B)%nat -> (1 <= K)%nat ->
  (forall idx, (j * (K * B) <= idx < j * (K * B) + K * B)%nat ->
               ta1 !!! idx = ta2 !!! idx) ->
  cb_calculate_clause_output_feedback ta1 (j * K * B) K B flt L Xi P g
  = cb_calculate_clause_output_feedback ta2 (j * K * B) K B flt L Xi P g.
Proof.
  intros HB HK Hsame. apply feedback_output_cong.
  - intros k Hk. apply action_word_region; [exact HB | lia | exact Hsame].
  - f_equal. apply action_word_region; [exact HB | lia | exact Hsame].
Qed.

Lemma counter_region (ta1 ta2 : list Z) (j K B k : nat) (i : Z) :
  (k < K)%nat ->
  (forall idx, (j * (K * B) <= idx < j * (K * B) + K * B)%nat ->
               ta1 !!! idx = ta2 !!! idx) ->
  counter ta1 (j * K * B + k * B) B i = counter ta2 (j * K * B + k * B) B i.
Proof.
  intros Hk Hsame. unfold counter. apply counter_from_ext.
  intros idx Hidx. apply Hsame.
  assert (k * B + B <= K * B)%nat by nia. nia.
Qed.

Lemma type_ii_clause_counter F B P up ca L Xi j ta g k i :
  (1 <= B)%nat -> (k < number_of_ta_chunks F)%nat ->
  (j * number_of_ta_chunks F * B + number_of_ta_chunks F * B <= length ta)%nat ->
  0 <= i < 32 ->
  let K := number_of_ta_chunks F in
  let fb :=
    cb_calculate_clause_output_feedback ta (j * K * B) K B (cb_filter F) L Xi P
      (snd (fast_rand g)) in
  counter (fst (type_ii_clause F B P up ca L Xi j (ta, g))) (j * K * B + k * B) B i
  = counter ta (j * K * B + k * B) B i
    + b2w (selected up ca j g && negb (fst (fst fb) =? 0)
           && Z.testbit (type_ii_mask (j * K * B) K B L Xi (snd (fst fb)) k ta) i).
Proof.
  intros HB Hk Hlen Hi K fb. unfold type_ii_clause, selected. fold K.
  unfold fast_rand at 1 2. cbn [fst snd]. cbn zeta.
  destruct (draw_gt _ up); cbn [orb negb andb fst]; [simpl b2w; lia|].
  destruct (Z.eqb_spec (ca !!! j) 0); cbn [negb andb fst]; [simpl b2w; lia|].
  subst fb. unfold fast_rand. cbn [snd].
  destruct (cb_calculate_clause_output_feedback _ _ _ _ _ _ _ _ _)
    as [[co cp] g2]. cbn [fst snd].
  destruct (Z.eqb_spec co 0); cbn [negb andb fst]; [simpl b2w; lia|].
  apply type_ii_loop_counter; assumption.
Qed.


(** Type II, the whole call: the counters of clause [j] change at the turn
    of clause [j] only, where the generator is the one that the turns of the
    clauses before [j] leave. *)
Lemma type_ii_call_counter ta C F B P up ca L Xi g j k i :
  1 <= F -> (1 <= B)%nat ->
  length ta = (C * number_of_ta_chunks F * B)%nat ->
  (j < C)%nat -> (k < number_of_ta_chunks F)%nat -> 0 <= i < 32 ->
  let K := number_of_ta_chunks F in
  let g_j := snd (cb_type_ii_feedback ta j F B P up ca L Xi g) in
  let fb :=
    cb_calculate_clause_output_feedback ta (j * K * B) K B (cb_filter F) L Xi P
      (snd (fast_rand g_j)) in
  counter (fst (cb_type_ii_feedback ta C F B P up ca L Xi g)) (j * K * B + k * B) B i
  = counter ta (j * K * B + k * B) B i
    + b2w (selected up ca j g_j && negb (fst (fst fb) =? 0)
           && Z.testbit (type_ii_mask (j * K * B) K B L Xi (snd (fst fb)) k ta) i).
Proof.
  intros HF HB Hlen Hj Hk Hi K g_j fb.
  destruct (number_of_ta_chunks_bounds F HF) as [HK _]. fold K in HK, Hk, Hlen.
  unfold cb_type_ii_feedback in *.
  set (body := type_ii_clause F B P up ca L Xi) in *.
  rewrite (for_range_at body C j (ta, g) Hj).
  pose proof (type_ii_loop_frame F B P up ca L Xi j j 0 ta g
                (or_intror (or_intror (Nat.le_refl _)))) as Hpre.
  cbn zeta in Hpre. fold body K in Hpre.
  destruct (for_range j 0 body (ta, g)) as [ta_j gj] eqn:Ej.
  cbn [fst snd] in Hpre, g_j. destruct Hpre as [Hlen_j Hpre]. subst g_j.
  pose proof (type_ii_clause_frame F B P up ca L Xi j ta_j gj) as Hstep.
  cbn zeta in Hstep. destruct Hstep as [Hlen_s _].
  pose proof (type_ii_clause_counter F B P up ca L Xi j ta_j gj k i HB Hk) as Hc.
  cbn zeta in Hc. fold K body in Hc, Hlen_s.
  destruct (body j (ta_j, gj)) as [ta_s g_s] eqn:Es. cbn [fst] in Hc, Hlen_s.
  pose proof (type_ii_loop_frame F B P up ca L Xi j (C - S j) (S j) ta_s g_s
                (or_intror (or_introl (Nat.lt_succ_diag_r j)))) as Hpost.
  cbn zeta in Hpost. fold body K in Hpost. destruct Hpost as [_ Hpost].
  rewrite (counter_region _ ta_s j K B k i Hk Hpost).
  assert (Hreg : (j * K * B + K * B <= length ta_j)%nat) by nia.
  rewrite Hc by (exact Hreg || exact Hi).
  rewrite (counter_region ta_j ta j K B k i Hk Hpre).
  rewrite (feedback_output_region ta_j ta j K B (cb_filter F) L Xi P _ HB HK Hpre).
  fold fb.
  assert (Hmask : type_ii_mask (j * K * B) K B L Xi (snd (fst fb)) k ta_j
                  = type_ii_mask (j * K * B) K B L Xi (snd (fst fb)) k ta).
  { unfold type_ii_mask. rewrite Hpre; [reflexivity|].
    pose proof (cell_in_region j K B k (B - 1) Hk ltac:(lia)). lia. }
  rewrite Hmask. reflexivity.
Qed.


Lemma type_iii_clause_stream F Bt Bi P up d ca L Xi target j bk g :
  stream (snd (type_iii_clause F Bt Bi P up d ca L Xi target j (bk, g)))
  = stream g.
Proof.
  destruct (Z.eq_dec (ca !!! j) 0) as [Hin|Hact].
  - rewrite type_iii_clause_inactive by exact Hin. reflexivity.
  - destruct (type_iii_clause_active F Bt Bi P up d ca L Xi target j bk g Hact)
      as (ind1 & cat2 & g3 & Heq & Hs & _).
    rewrite Heq. cbn. exact Hs.
Qed.

Lemma type_iii_loop_stream F Bt Bi P up d ca L Xi target :
  forall n k bk g,
    stream (snd (for_range n k (type_iii_clause F Bt Bi P up d ca L Xi target)
                   (bk, g)))
    = stream g.
Proof.
  induction n as [|n IH]; intros k bk g; cbn [for_range]; [reflexivity|].
  pose proof (type_iii_clause_stream F Bt Bi P up d ca L Xi target k bk g) as Hs.
  destruct (type_iii_clause _ _ _ _ _ _ _ _ _ _ _ _) as [bk1 g1]. cbn [snd] in Hs.
  rewrite IH. exact Hs.
Qed.

(** Type III, one clause: the counters of the clause after the turn, by the
    last draw of the turn and the indicator words that the turn leaves. *)
Lemma type_iii_clause_counter F Bt Bi P up d ca L Xi target j bk g k i :
  (k < number_of_ta_chunks F)%nat ->
  (j * number_of_ta_chunks F * Bt + number_of_ta_chunks F * Bt
   <= length (ta_state bk))%nat ->
  0 <= i < 32 ->
  let K := number_of_ta_chunks F in
  let st' := type_iii_clause F Bt Bi P up d ca L Xi target j (bk, g) in
  let r := stream g (drawn (snd st') - 1) mod word_mod in
  let c := counter (ta_state bk) (j * K * Bt + k * Bt) Bt i in
  counter (ta_state (fst st')) (j * K * Bt + k * Bt) Bt i
  = if negb (ca !!! j =? 0) && negb (draw_gt r up)
       && Z.testbit (type_iii_mask (j * K * Bi) Bi L (ind_state (fst st')) k) i
    then Z.max (c - 1) 0 else c.
Proof.
  intros Hk Hlen Hi K. cbn zeta.
  destruct (Z.eqb_spec (ca !!! j) 0) as [Hin|Hact]; cbn [negb andb].
  - rewrite type_iii_clause_inactive by exact Hin. reflexivity.
  - destruct (type_iii_clause_active F Bt Bi P up d ca L Xi target j bk g Hact)
      as (ind1 & cat2 & g3 & Heq & Hs & _). fold K in Heq.
    rewrite Heq. cbn [fst snd ta_state ind_state].
    assert (Hr : stream g (drawn (snd (fast_rand g3)) - 1) mod word_mod
                 = fst (fast_rand g3)).
    { unfold fast_rand. cbn [fst snd drawn]. rewrite Hs.
      replace (S (drawn g3) - 1)%nat with (drawn g3) by lia. reflexivity. }
    rewrite Hr.
    destruct (draw_gt (fst (fast_rand g3)) up); cbn [negb andb]; [reflexivity|].
    apply type_iii_loop_counter; assumption.
Qed.

(** Type III, the whole call. *)
Lemma type_iii_call_counter bk C F Bt Bi P up d ca L Xi target g j k i :
  1 <= F -> (1 <= Bi)%nat ->
  Forall is_word (ta_state bk) ->
  length (ta_state bk) = (C * number_of_ta_chunks F * Bt)%nat ->
  (j < C)%nat -> (k < number_of_ta_chunks F)%nat -> 0 <= i < 32 ->
  let K := number_of_ta_chunks F in
  let call n := cb_type_iii_feedback bk n F Bt Bi P up d ca L Xi target g in
  let r := stream g (drawn (snd (call (S j))) - 1) mod word_mod in
  let bk' := fst (call C) in
  let c := counter (ta_state bk) (j * K * Bt + k * Bt) Bt i in
  counter (ta_state bk') (j * K * Bt + k * Bt) Bt i
  = if negb (ca !!! j =? 0) && negb (draw_gt r up)
       && Z.testbit (type_iii_mask (j * K * Bi) Bi L (ind_state bk') k) i
    then Z.max (c - 1) 0 else c.
Proof.
  intros HF HBi Hw Hlen Hj Hk Hi K. cbn zeta.
  unfold cb_type_iii_feedback.
  set (body := type_iii_clause F Bt Bi P up d ca L Xi target).
  fold K in Hk, Hlen.
  assert (Hnext : for_range (S j) 0 body (bk, g)
                  = body j (for_range j 0 body (bk, g))).
  { replace (S j) with (j + 1)%nat by lia. rewrite for_range_split. reflexivity. }
  rewrite Hnext. rewrite (for_range_at body C j (bk, g) Hj).
  pose proof (type_iii_loop_frame F Bt Bi P up d ca L Xi target j HF j 0 bk g
                (or_intror (or_intror (Nat.le_refl _))) Hw) as Hpre.
  cbn zeta in Hpre. fold body K in Hpre.
  pose proof (type_iii_loop_stream F Bt Bi P up d ca L Xi target j 0 bk g) as Hsj.
  fold body in Hsj.
  destruct (for_range j 0 body (bk, g)) as [bk_j g_j] eqn:Ej.
  cbn [fst snd] in Hpre, Hsj. destruct Hpre as ((Hw_j & Hlen_j) & Hta_j & _).
  pose proof (type_iii_clause_counter F Bt Bi P up d ca L Xi target j bk_j g_j k i Hk)
    as Hc. cbn zeta in Hc. fold K body in Hc.
  pose proof (type_iii_clause_frame F Bt Bi P up d ca L Xi target j bk_j g_j HF Hw_j)
    as Hstep. cbn zeta in Hstep. fold body in Hstep.
  destruct (body j (bk_j, g_j)) as [bk_s g_s] eqn:Es. cbn [fst snd] in Hc, Hstep |- *.
  destruct Hstep as (Hw_s & _).
  pose proof (type_iii_loop_frame F Bt Bi P up d ca L Xi target j HF (C - S j) (S j)
                bk_s g_s (or_intror (or_introl (Nat.lt_succ_diag_r j))) Hw_s)
    as Hpost.
  cbn zeta in Hpost. fold body K in Hpost.
  destruct Hpost as (_ & Hta_p & Hind_p & _).
  rewrite (counter_region _ (ta_state bk_s) j K Bt k i Hk Hta_p).
  rewrite Hc by (try exact Hi; nia).
  rewrite (counter_region (ta_state bk_j) (ta_state bk) j K Bt k i Hk Hta_j).
  rewrite Hsj.
  assert (Hmask : type_iii_mask (j * K * Bi) Bi L
                    (ind_state (fst (for_range (C - S j) (S j) body (bk_s, g_s)))) k
                  = type_iii_mask (j * K * Bi) Bi L (ind_state bk_s) k).
  { unfold type_iii_mask. rewrite Hind_p; [reflexivity|].
    pose proof (cell_in_region j K Bi k (Bi - 1) Hk ltac:(lia)). lia. }
  rewrite Hmask. reflexivity.
Qed.


Lemma for_range_opt_split {A : Type} (body : nat -> A -> option A) :
  forall n m k a,
    for_range_opt (n + m) k body a
    = match for_range_opt n k body a with
      | Some a1 => for_range_opt m (k + n) body a1
      | None => None
      end.
Proof.
  induction n as [|n IH]; intros m k a; cbn [for_range_opt Nat.add].
  - replace (k + 0)%nat with k by lia. reflexivity.
  - destruct (body k a) as [a1|]; [|reflexivity].
    rewrite IH. replace (S k + n)%nat with (k + S n)%nat by lia. reflexivity.
Qed.

Lemma for_range_opt_at {A : Type} (body : nat -> A -> option A) (n j : nat)
    (a a' : A) :
  (j < n)%nat ->
  for_range_opt n 0 body a = Some a' ->
  exists aj aj1,
    for_range_opt j 0 body a = Some aj
    /\ body j aj = Some aj1
    /\ for_range_opt (n - S j) (S j) body aj1 = Some a'.
Proof.
  intros Hj Hrun.
  replace n with (j + S (n - S j))%nat in Hrun at 1 by lia.
  rewrite for_range_opt_split in Hrun.
  destruct (for_range_opt j 0 body a) as [aj|]; [|discriminate].
  cbn [for_range_opt Nat.add] in Hrun.
  destruct (body j aj) as [aj1|] eqn:E; [|discriminate].
  exists aj, aj1. auto.
Qed.

(** Type I, one clause: a counter of the clause keeps its value when the
    clause is not selected and when [literal_active] masks the literal out,
    and does not go up when the clause output is [0] (Type Ib). *)
Lemma type_i_clause_counter fuel F B P up s boost ca L Xi j ta g ta' g' k i :
  type_i_clause fuel F B P up s boost ca L Xi j (ta, g) = Some (ta', g') ->
  Forall is_word L ->
  (k < number_of_ta_chunks F)%nat ->
  (j * number_of_ta_chunks F * B + number_of_ta_chunks F * B <= length ta)%nat ->
  0 <= i < 32 ->
  let K := number_of_ta_chunks F in
  let fb :=
    cb_calculate_clause_output_feedback ta (j * K * B) K B (cb_filter F) L Xi P
      (snd (fast_rand g)) in
  let c := counter ta (j * K * B + k * B) B i in
  let c' := counter ta' (j * K * B + k * B) B i in
  (selected up ca j g = false -> c' = c)
  /\ (Z.testbit (L !!! k) i = false -> c' = c)
  /\ (fst (fst fb) = 0 -> c' <= c).
Proof.
  intros Hstep HL Hk Hlen Hi K. cbn zeta.
  pose proof (counter_range ta (j * K * B + k * B) B i) as Hrange.
  unfold type_i_clause, selected in *. fold K in Hstep.
  unfold fast_rand in *. cbn [fst snd] in *. cbn zeta in Hstep.
  destruct (draw_gt _ up); cbn [orb negb andb] in *;
    [inversion Hstep; subst; repeat split; intros; lia|].
  destruct (Z.eqb_spec (ca !!! j) 0); cbn [negb] in *;
    [inversion Hstep; subst; repeat split; intros; lia|].
  destruct (cb_calculate_clause_output_feedback _ _ _ _ _ _ _ _ _)
    as [[co cp] g2]. cbn [fst snd].
  destruct (cb_initialize_random_streams _ _ _ _ _) as [[fb g3]|];
    [|discriminate].
  destruct (Z.eqb_spec co 0) as [Hco|Hco]; cbn [negb] in Hstep;
    inversion Hstep; subst ta' g'.
  - rewrite type_ib_loop_counter by assumption.
    split; [discriminate|]. split.
    + intros HLbit. rewrite Z.land_spec, HLbit. reflexivity.
    + intros _. destruct (Z.testbit _ i); lia.
  - pose proof (type_ia_loop_counter (j * K * B) K B boost L Xi fb cp ta k i
                  HL Hk Hlen Hi) as Hia.
    cbn zeta in Hia. rewrite Hia.
    split; [discriminate|]. split; [|intros Hzero; contradiction].
    intros HLbit.
    assert (Hdec : Z.testbit
                     (Z.land (Z.land (L !!! k) (wnot (Xi !!! (cp * K + k)%nat)))
                             (fb !!! k)) i = false)
      by (rewrite !Z.land_spec, HLbit; reflexivity).
    assert (Hinc : Z.testbit
                     (if boost =? 1
                      then Z.land (L !!! k) (Xi !!! (cp * K + k)%nat)
                      else Z.land (Z.land (L !!! k) (Xi !!! (cp * K + k)%nat))
                                  (wnot (fb !!! k))) i = false)
      by (destruct (boost =? 1); rewrite !Z.land_spec, HLbit; reflexivity).
    rewrite Hdec, Hinc. reflexivity.
Qed.

(** Type I, the whole call. *)
Lemma type_i_call_counter fuel ta C F B P up s boost ca L Xi g ta' g' j k i :
  cb_type_i_feedback fuel ta C F B P up s boost ca L Xi g = Some (ta', g') ->
  1 <= F -> (1 <= B)%nat -> Forall is_word L ->
  length ta = (C * number_of_ta_chunks F * B)%nat ->
  (j < C)%nat -> (k < number_of_ta_chunks F)%nat -> 0 <= i < 32 ->
  let K := number_of_ta_chunks F in
  let c := counter ta (j * K * B + k * B) B i in
  let c' := counter ta' (j * K * B + k * B) B i in
  length ta' = length ta
  /\ exists ta_j g_j,
       cb_type_i_feedback fuel ta j F B P up s boost ca L Xi g = Some (ta_j, g_j)
       /\ (selected up ca j g_j = false -> c' = c)
       /\ (Z.testbit (L !!! k) i = false -> c' = c)
       /\ (fst (fst (cb_calculate_clause_output_feedback ta (j * K * B) K B
                       (cb_filter F) L Xi P (snd (fast_rand g_j)))) = 0 ->
           c' <= c).
Proof.
  intros Hrun HF HB HL Hlen Hj Hk Hi K. cbn zeta.
  destruct (number_of_ta_chunks_bounds F HF) as [HK _]. fold K in HK, Hk, Hlen.
  unfold cb_type_i_feedback in *.
  set (body := type_i_clause fuel F B P up s boost ca L Xi) in *.
  destruct (type_i_loop_frame fuel F B P up s boost ca L Xi C C 0 ta g ta' g'
              (or_intror (or_intror (Nat.le_refl _))) Hrun) as [Hlen' _].
  split; [exact Hlen'|].
  destruct (for_range_opt_at body C j (ta, g) (ta', g') Hj Hrun)
    as ([ta_j g_j] & [ta_s g_s] & Hpre_run & Hstep & Hpost_run).
  exists ta_j, g_j. split; [exact Hpre_run|].
  destruct (type_i_loop_frame fuel F B P up s boost ca L Xi j j 0 ta g ta_j g_j
              (or_intror (or_intror (Nat.le_refl _))) Hpre_run) as [Hlen_j Hpre].
  destruct (type_i_loop_frame fuel F B P up s boost ca L Xi j (C - S j) (S j)
              ta_s g_s ta' g'
              (or_intror (or_introl (Nat.lt_succ_diag_r j))) Hpost_run)
    as [_ Hpost].
  fold K in Hpre, Hpost.
  assert (Hreg : (j * K * B + K * B <= length ta_j)%nat) by nia.
  destruct (type_i_clause_counter fuel F B P up s boost ca L Xi j ta_j g_j ta_s g_s
              k i Hstep HL Hk Hreg Hi) as (H1 & H2 & H3).
  fold K in H1, H2, H3.
  rewrite (counter_region ta' ta_s j K B k i Hk Hpost).
  rewrite (counter_region ta_j ta j K B k i Hk Hpre) in H1, H2, H3.
  rewrite (feedback_output_region ta_j ta j K B (cb_filter F) L Xi P _ HB HK Hpre)
    in H3.
  auto.
Qed.


Lemma type_ii_loop_words F B P up ca L Xi :
  forall n k ta g,
    Forall is_word ta ->
    Forall is_word (fst (for_range n k (type_ii_clause F B P up ca L Xi) (ta, g))).
Proof.
  intros n k ta g Hw.
  apply (for_range_invariant (type_ii_clause F B P up ca L Xi)
           (fun st => Forall is_word (fst st))); [|exact Hw].
  intros j [ta1 g1] _ Hw1. cbn [fst] in Hw1.
  unfold type_ii_clause, fast_rand. cbn zeta.
  destruct (_ || _); [exact Hw1|].
  destruct (cb_calculate_clause_output_feedback _ _ _ _ _ _ _ _ _)
    as [[co cp] g2].
  destruct (negb (co =? 0)); cbn [fst]; [|exact Hw1].
  apply chunk_loop_words; [|exact Hw1].
  intros k' a Ha. unfold type_ii_chunk. apply cb_inc_words; [exact Ha|].
  unfold type_ii_mask. apply is_word_land_r, wnot_word.
Qed.

Lemma action_word_top (ta : list Z) (j K B k : nat) (i : Z) :
  (1 <= B)%nat ->
  Z.testbit (action_word ta (j * K * B) B k) i
  = (2 ^ (Z.of_nat B - 1) <=? counter ta (j * K * B + k * B) B i).
Proof.
  intros HB. rewrite <- (counter_top ta (j * K * B + k * B) B i HB).
  unfold action_word. do 2 f_equal. lia.
Qed.

(** C7: the whole effect of Type II on the counters.  For clause [j], with
    the generator that the clauses before [j] leave, the clause is selected
    when its draw passes the test on [update_p] and it is active; if it is
    and its Feedback-mode output is [1], every counter of chunk [k] that
    [literal_active & ~Xi[clause_patch] & ~action_bits] selects goes up by
    one, and every other counter keeps its value, so no counter goes down.
    In Type I, a clause whose output is [0] (Type Ib) makes no counter of
    its own go up; and Type I works on [ta_state] alone: on a bank it
    leaves [ind_state] and the ledger as they are and its result does not
    depend on them. *)
Theorem feedback_counter_effects (fuel : nat) (ta : list Z) (C : nat) (F : Z)
    (B P : nat) (update_p s : float) (boost : Z)
    (clause_active literal_active Xi : list Z) (g : rng) :
  1 <= F -> (1 <= B)%nat ->
  length ta = (C * number_of_ta_chunks F * B)%nat ->
  Forall is_word ta -> Forall is_word literal_active ->
  let K := number_of_ta_chunks F in
  let flt := cb_filter F in
  let call_ii n :=
    cb_type_ii_feedback ta n F B P update_p clause_active literal_active Xi g in
  let call_i n :=
    cb_type_i_feedback fuel ta n F B P update_p s boost clause_active
      literal_active Xi g in
  (length (fst (call_ii C)) = length ta
   /\ Forall is_word (fst (call_ii C))
   /\ forall (j k : nat) (i : Z),
        (j < C)%nat -> (k < K)%nat -> 0 <= i < 32 ->
        let g_j := snd (call_ii j) in
        let fb :=
          cb_calculate_clause_output_feedback ta (j * K * B) K B flt
            literal_active Xi P (snd (fast_rand g_j)) in
        let clause_output := fst (fst fb) in
        let clause_patch := snd (fst fb) in
        let mask :=
          Z.land (Z.land (literal_active !!! k)
                         (wnot (Xi !!! (clause_patch * K + k)%nat)))
                 (wnot (action_word ta (j * K * B) B k)) in
        counter (fst (call_ii C)) (j * K * B + k * B) B i
        = counter ta (j * K * B + k * B) B i
          + b2w (selected update_p clause_active j g_j
                 && negb (clause_output =? 0) && Z.testbit mask i)
        /\ counter ta (j * K * B + k * B) B i
           <= counter (fst (call_ii C)) (j * K * B + k * B) B i)
  /\ (forall (ta' ta_j : list Z) (g' g_j : rng) (j k : nat) (i : Z),
        call_i C = Some (ta', g') ->
        (j < C)%nat -> (k < K)%nat -> 0 <= i < 32 ->
        call_i j = Some (ta_j, g_j) ->
        fst (fst (cb_calculate_clause_output_feedback ta (j * K * B) K B flt
                    literal_active Xi P (snd (fast_rand g_j)))) = 0 ->
        counter ta' (j * K * B + k * B) B i
        <= counter ta (j * K * B + k * B) B i)
  /\ (forall (bk bk' : bank) (g' : rng),
        run_feedback (TypeI fuel update_p s boost) bk C F B P clause_active
          literal_active Xi g = Some (bk', g') ->
        ind_state bk' = ind_state bk
        /\ clause_and_target bk' = clause_and_target bk
        /\ cb_type_i_feedback fuel (ta_state bk) C F B P update_p s boost
             clause_active literal_active Xi g = Some (ta_state bk', g')).
Proof.
  intros HF HB Hlen Hw HL K flt call_ii call_i.
  split; [|split].
  - split; [|split].
    + pose proof (type_ii_loop_frame F B P update_p clause_active literal_active Xi
                    C C 0 ta g (or_intror (or_intror (Nat.le_refl _)))) as Hf.
      cbn zeta in Hf. apply Hf.
    + apply type_ii_loop_words. exact Hw.
    + intros j k i Hj Hk Hi. cbn zeta.
      pose proof (type_ii_call_counter ta C F B P update_p clause_active
                    literal_active Xi g j k i HF HB Hlen Hj Hk Hi) as Hc.
      cbn zeta in Hc. fold K flt in Hc.
      assert (Hmask : forall patch,
                type_ii_mask (j * K * B) K B literal_active Xi patch k ta
                = Z.land (Z.land (literal_active !!! k)
                                 (wnot (Xi !!! (patch * K + k)%nat)))
                         (wnot (action_word ta (j * K * B) B k))).
      { intros patch. unfold type_ii_mask, action_word. do 3 f_equal. lia. }
      rewrite Hmask in Hc. unfold call_ii. rewrite Hc.
      split; [reflexivity|].
      match goal with |- _ <= _ + b2w ?b => pose proof (b2w_range b) end. lia.
  - intros ta' ta_j g' g_j j k i Hrun Hj Hk Hi Hrun_j Hzero.
    destruct (type_i_call_counter fuel ta C F B P update_p s boost clause_active
                literal_active Xi g ta' g' j k i Hrun HF HB HL Hlen Hj Hk Hi)
      as (_ & ta_j' & g_j' & Hrun_j' & _ & _ & Hle).
    unfold call_i in Hrun_j. rewrite Hrun_j in Hrun_j'.
    inversion Hrun_j'; subst ta_j' g_j'. apply Hle. exact Hzero.
  - intros bk bk' g' Hrun. cbn [run_feedback] in Hrun.
    destruct (cb_type_i_feedback fuel (ta_state bk) C F B P update_p s boost
                clause_active literal_active Xi g) as [[ta1 g1]|]; [|discriminate].
    inversion Hrun; subst. cbn. auto.
Qed.

(** C3, as the code has it: for an active clause whose last draw passes the
    test on [update_p], the last step of Type III takes one, in every chunk
    [k], from exactly the counters that
    [literal_active[k] & ~top_bit_plane(ind_state)] selects, a counter at
    zero staying at zero; the action bit plays no part, so the counter of an
    excluded literal goes down like that of an included one.  The indicator
    words are those that the call leaves. *)
Theorem type_iii_final_decrement (bk : bank) (C : nat) (F : Z)
    (B_ta B_ind P : nat) (update_p d : float)
    (clause_active literal_active Xi : list Z) (target : Z) (g : rng)
    (j k : nat) (i : Z) :
  1 <= F -> (1 <= B_ind)%nat ->
  Forall is_word (ta_state bk) ->
  length (ta_state bk) = (C * number_of_ta_chunks F * B_ta)%nat ->
  (j < C)%nat -> (k < number_of_ta_chunks F)%nat -> 0 <= i < 32 ->
  clause_active !!! j <> 0 ->
  let K := number_of_ta_chunks F in
  let call n :=
    cb_type_iii_feedback bk n F B_ta B_ind P update_p d clause_active
      literal_active Xi target g in
  let r := stream g (drawn (snd (call (S j))) - 1) mod word_mod in
  let bk' := fst (call C) in
  let mask :=
    Z.land (literal_active !!! k)
           (wnot (ind_state bk' !!! (j * K * B_ind + k * B_ind + B_ind - 1)%nat)) in
  let c := counter (ta_state bk) (j * K * B_ta + k * B_ta) B_ta i in
  counter (ta_state bk') (j * K * B_ta + k * B_ta) B_ta i
  = if negb (draw_gt r update_p) && Z.testbit mask i
    then Z.max (c - 1) 0 else c.
Proof.
  intros HF HBi Hw Hlen Hj Hk Hi Hact K call r bk' mask c.
  pose proof (type_iii_call_counter bk C F B_ta B_ind P update_p d clause_active
                literal_active Xi target g j k i HF HBi Hw Hlen Hj Hk Hi) as Hc.
  cbn zeta in Hc. fold K in Hc.
  destruct (Z.eqb_spec (clause_active !!! j) 0) as [|_]; [contradiction|].
  cbn [negb andb] in Hc. exact Hc.
Qed.

(** C4, as the code has it: a feedback call does not switch on an action
    bit beyond bit [F-1] of the tail chunk when [literal_active] has no bit
    set there (Type I and Type II then leave the counters of the padding as
    they are); Type III switches on no action bit at all, whatever
    [literal_active] holds. *)
Theorem padding_not_activated (call : feedback_call) (bk bk' : bank)
    (C : nat) (F : Z) (B P : nat) (clause_active literal_active Xi : list Z)
    (g g' : rng) (j : nat) (i : Z) :
  1 <= F -> (1 <= B)%nat ->
  Forall is_word (ta_state bk) -> Forall is_word literal_active ->
  length (ta_state bk) = (C * number_of_ta_chunks F * B)%nat ->
  run_feedback call bk C F B P clause_active literal_active Xi g = Some (bk', g') ->
  let K := number_of_ta_chunks F in
  match call with
  | TypeIII b _ _ _ => (1 <= b)%nat
  | _ => forall i', 0 <= i' < 32 -> F <= 32 * (Z.of_nat K - 1) + i' ->
                    Z.testbit (literal_active !!! (K - 1)%nat) i' = false
  end ->
  (j < C)%nat -> 0 <= i < 32 -> F <= 32 * (Z.of_nat K - 1) + i ->
  Z.testbit (action_word (ta_state bk) (j * K * B) B (K - 1)) i = false ->
  Z.testbit (action_word (ta_state bk') (j * K * B) B (K - 1)) i = false.
Proof.
  intros HF HB Hw HL Hlen Hrun K Hside Hj Hi Hpad Hbefore.
  destruct (number_of_ta_chunks_bounds F HF) as [HK _]. fold K in HK.
  assert (Hk : (K - 1 < K)%nat) by lia.
  rewrite action_word_top in Hbefore |- * by exact HB.
  apply Z.leb_gt in Hbefore. apply Z.leb_gt.
  destruct call as [fuel up s boost | up | Bi up d target];
    cbn [run_feedback] in Hrun.
  - destruct (cb_type_i_feedback _ _ _ _ _ _ _ _ _ _ _ _ _) as [[ta1 g1]|] eqn:E;
      [|discriminate].
    inversion Hrun; subst bk' g'. cbn [ta_state].
    destruct (type_i_call_counter fuel (ta_state bk) C F B P up s boost clause_active
                literal_active Xi g ta1 g1 j (K - 1)%nat i E HF HB HL Hlen Hj Hk Hi)
      as (_ & ta_j & g_j & _ & _ & Hsame & _).
    fold K in Hsame. rewrite Hsame; [exact Hbefore|].
    apply Hside; assumption.
  - pose proof (type_ii_call_counter (ta_state bk) C F B P up clause_active
                  literal_active Xi g j (K - 1)%nat i HF HB Hlen Hj Hk Hi) as Hc.
    cbn zeta in Hc. fold K in Hc.
    destruct (cb_type_ii_feedback _ _ _ _ _ _ _ _ _ _) as [ta1 g1] eqn:E.
    inversion Hrun; subst bk' g'. cbn [ta_state fst] in *.
    rewrite Hc.
    match goal with
    | |- context [Z.testbit (type_ii_mask ?a ?b ?c ?d ?e ?f ?h ?t) i] =>
        assert (Hm : Z.testbit (type_ii_mask a b c d e f h t) i = false)
    end.
    { unfold type_ii_mask. rewrite !Z.land_spec.
      rewrite (Hside i Hi Hpad). reflexivity. }
    rewrite Hm, andb_false_r. simpl b2w. lia.
  - inversion Hrun as [Hcall].
    pose proof (type_iii_call_counter bk C F B Bi P up d clause_active
                  literal_active Xi target g j (K - 1)%nat i HF Hside Hw Hlen Hj
                  Hk Hi) as Hc.
    cbv beta zeta in Hc. fold K in Hc. rewrite Hcall in Hc. cbn [fst] in Hc.
    rewrite Hc.
    pose proof (counter_range (ta_state bk) (j * K * B + (K - 1) * B) B i).
    destruct (_ && _); lia.
Qed.


(** * Further properties *)

(** ** cb_inc and cb_dec undo each other *)

Lemma list_eq_total (l1 l2 : list Z) :
  length l1 = length l2 ->
  (forall idx, (idx < length l1)%nat -> l1 !!! idx = l2 !!! idx) ->
  l1 = l2.
Proof.
  intros Hlen H. apply list_eq. intros idx.
  destruct (Nat.lt_ge_cases idx (length l1)) as [Hlt|Hge].
  - rewrite (list_lookup_lookup_total_lt l1 idx Hlt).
    rewrite (list_lookup_lookup_total_lt l2 idx) by lia.
    f_equal. apply H. exact Hlt.
  - rewrite !lookup_ge_None_2 by lia. reflexivity.
Qed.

Lemma counter_from_inj (a a' : list Z) (base : nat) (i : Z) :
  forall n b,
    counter_from a base b n i = counter_from a' base b n i ->
    forall idx, (base + b <= idx < base + b + n)%nat ->
      Z.testbit (a !!! idx) i = Z.testbit (a' !!! idx) i.
Proof.
  induction n as [|n IH]; intros b Heq idx Hidx; [lia|].
  cbn [counter_from] in Heq.
  assert (Hhead : Z.testbit (a !!! (base + b)%nat) i
                  = Z.testbit (a' !!! (base + b)%nat) i
                  /\ counter_from a base (S b) n i = counter_from a' base (S b) n i).
  { destruct (Z.testbit (a !!! (base + b)%nat) i),
             (Z.testbit (a' !!! (base + b)%nat) i); simpl b2w in Heq;
      split; (reflexivity || lia). }
  destruct Hhead as [Hbit Hrest].
  destruct (Nat.eq_dec idx (base + b)%nat) as [->|Hne]; [exact Hbit|].
  apply (IH (S b) Hrest). lia.
Qed.

(** Two arrays of words of the same length are equal when they agree
    outside a stripe and hold the same counters in it. *)
Lemma stripe_eq (a a' : list Z) (base B : nat) :
  Forall is_word a -> Forall is_word a' ->
  length a' = length a ->
  (forall idx, (idx < base \/ base + B <= idx)%nat -> a' !!! idx = a !!! idx) ->
  (forall i, 0 <= i < 32 -> counter a' base B i = counter a base B i) ->
  a' = a.
Proof.
  intros Hw Hw' Hlen Hframe Hcount.
  apply list_eq_total; [exact Hlen|]. intros idx Hidx.
  destruct (Nat.lt_ge_cases idx base) as [Hlt|Hge]; [apply Hframe; lia|].
  destruct (Nat.lt_ge_cases idx (base + B)) as [Hin|Hout]; [|apply Hframe; lia].
  apply Z.bits_inj'. intros i Hi.
  destruct (Z.ltb_spec i 32) as [Hi32|Hi32].
  - apply (counter_from_inj a' a base i B 0); [apply Hcount; lia | lia].
  - rewrite !is_word_testbit_high by (try apply is_word_lookup; assumption).
    reflexivity.
Qed.

(** X1: an increment followed by a decrement with the same mask gives the
    array back when no selected counter was at its largest value, and a
    decrement followed by an increment gives it back when no selected
    counter was at zero; with the mask [0] both calls leave the array as it
    is. *)
Theorem inc_dec_round_trip (a : list Z) (base : nat) (m : Z) (B : nat) :
  Forall is_word a -> is_word m -> (base + B <= length a)%nat ->
  ((forall i, 0 <= i < 32 -> Z.testbit m i = true ->
      counter a base B i < 2 ^ Z.of_nat B - 1) ->
   cb_dec (cb_inc a base m B) base m B = a)
  /\ ((forall i, 0 <= i < 32 -> Z.testbit m i = true -> 0 < counter a base B i) ->
      cb_inc (cb_dec a base m B) base m B = a)
  /\ cb_inc a base 0 B = a /\ cb_dec a base 0 B = a.
Proof.
  intros Hw Hm Hlen.
  assert (Hm0 : 0 <= m) by apply Hm.
  split; [|split; [|split]].
  - intros Hroom. apply (stripe_eq a _ base B).
    + exact Hw.
    + apply cb_dec_words; [apply cb_inc_words|]; assumption.
    + rewrite cb_dec_length, cb_inc_length. reflexivity.
    + intros idx Hidx. rewrite cb_dec_frame, cb_inc_frame by exact Hidx.
      reflexivity.
    + intros i Hi.
      rewrite cb_dec_counter by (rewrite ?cb_inc_length; assumption).
      rewrite cb_inc_counter by assumption.
      pose proof (counter_range a base B i).
      destruct (Z.testbit m i) eqn:Eb; [|reflexivity].
      specialize (Hroom i Hi Eb). lia.
  - intros Hroom. apply (stripe_eq a _ base B).
    + exact Hw.
    + apply cb_inc_words; [apply cb_dec_words|]; assumption.
    + rewrite cb_inc_length, cb_dec_length. reflexivity.
    + intros idx Hidx. rewrite cb_inc_frame, cb_dec_frame by exact Hidx.
      reflexivity.
    + intros i Hi.
      rewrite cb_inc_counter by (rewrite ?cb_dec_length; assumption).
      rewrite cb_dec_counter by assumption.
      pose proof (counter_range a base B i).
      destruct (Z.testbit m i) eqn:Eb; [|reflexivity].
      specialize (Hroom i Hi Eb). lia.
  - unfold cb_inc. destruct B; reflexivity.
  - unfold cb_dec. destruct B; reflexivity.
Qed.

(** X2: [cb_inc] and [cb_dec] write inside the stripe of
    [number_of_state_bits] words they are given and nowhere else; the array
    keeps its length and stays an array of 32-bit words. *)
Theorem counter_update_frame (a : list Z) (base : nat) (m : Z) (B : nat)
    (idx : nat) :
  (idx < base \/ base + B <= idx)%nat ->
  (cb_inc a base m B !!! idx = a !!! idx
   /\ cb_dec a base m B !!! idx = a !!! idx)
  /\ (length (cb_inc a base m B) = length a
      /\ length (cb_dec a base m B) = length a)
  /\ (Forall is_word a -> is_word m ->
      Forall is_word (cb_inc a base m B) /\ Forall is_word (cb_dec a base m B)).
Proof.
  intros Hidx. split; [split|split; [split|]].
  - apply cb_inc_frame. exact Hidx.
  - apply cb_dec_frame. exact Hidx.
  - apply cb_inc_length.
  - apply cb_dec_length.
  - intros Hw Hm. split; [apply cb_inc_words | apply cb_dec_words]; assumption.
Qed.


(** ** The evaluation modes *)

Lemma feedback_patches_filter ta base K B flt L Xi :
  forall n p l,
    feedback_patches ta base K B flt L Xi n p l
    = l ++ List.filter (masked_patch_output ta base K B flt L Xi) (seq p n).
Proof.
  induction n as [|n IH]; intros p l; cbn [feedback_patches seq List.filter].
  - rewrite app_nil_r. reflexivity.
  - rewrite IH.
    destruct (masked_patch_output ta base K B flt L Xi p);
      [rewrite <- app_assoc|]; reflexivity.
Qed.

Lemma nth_In_nat (l : list nat) (n : nat) :
  (n < length l)%nat -> In (nth n l 0%nat) l.
Proof. apply nth_In. Qed.

(** X3: Feedback mode.  [clause_output] is [1] exactly when some patch
    matches, and then [clause_patch] is one of the matching patches and one
    pseudo-random number has been drawn; otherwise it is [0] and nothing is
    drawn.  [clause_output] is the value that UpdateEval returns. *)
Theorem feedback_mode_output ta base K B flt L Xi (P : nat) (g : rng) :
  (1 <= K)%nat ->
  let r := cb_calculate_clause_output_feedback ta base K B flt L Xi P g in
  let clause_output := fst (fst r) in
  let clause_patch := snd (fst r) in
  (clause_output = 1 <->
     exists p, (p < P)%nat
       /\ patch_matches ta base K B flt (masked_input K L Xi p))
  /\ (clause_output = 1 ->
        (clause_patch < P)%nat
        /\ patch_matches ta base K B flt (masked_input K L Xi clause_patch)
        /\ snd r = snd (fast_rand g))
  /\ (clause_output <> 1 -> clause_output = 0 /\ snd r = g)
  /\ clause_output = cb_calculate_clause_output_update ta base K B flt L Xi P.
Proof.
  intros HK. cbv zeta.
  unfold cb_calculate_clause_output_feedback.
  rewrite feedback_patches_filter. cbn [app].
  set (l := List.filter (masked_patch_output ta base K B flt L Xi) (seq 0 P)).
  assert (Hin : forall p, In p l <->
                  (p < P)%nat
                  /\ patch_matches ta base K B flt (masked_input K L Xi p)).
  { intros p. unfold l. rewrite filter_In, in_seq.
    rewrite masked_patch_output_spec by exact HK. split; intros [H1 H2];
      (split; [lia | exact H2]). }
  assert (Hup : cb_calculate_clause_output_update ta base K B flt L Xi P = 1 <->
                exists p, In p l).
  { unfold cb_calculate_clause_output_update. rewrite update_patches_one.
    split; intros (p & Hp).
    - exists p. apply Hin. rewrite <- masked_patch_output_spec by exact HK.
      split; [lia | apply Hp].
    - exists p. apply Hin in Hp.
      rewrite <- masked_patch_output_spec in Hp by exact HK.
      split; [lia | apply Hp]. }
  destruct (Nat.ltb_spec 0 (length l)) as [Hpos|Hzero].
  - destruct (fast_rand g) as [r g'] eqn:Er. cbn [fst snd].
    assert (Hnth : In (nth (Z.to_nat (r mod Z.of_nat (length l))) l 0%nat) l).
    { apply nth_In_nat.
      pose proof (Z.mod_pos_bound r (Z.of_nat (length l)) ltac:(lia)). lia. }
    split; [|split; [|split]].
    + split; [intros _|reflexivity].
      eexists. apply Hin. exact Hnth.
    + intros _. apply Hin in Hnth. destruct Hnth as [H1 H2].
      split; [exact H1 | split; [exact H2 | reflexivity]].
    + intros H. exfalso. apply H. reflexivity.
    + symmetry. apply Hup. eexists. exact Hnth.
  - assert (Hnil : l = []) by (destruct l; [reflexivity | cbn in Hzero; lia]).
    cbn [fst snd].
    split; [|split; [|split]].
    + split; [discriminate|]. intros (p & Hp). apply Hin in Hp.
      rewrite Hnil in Hp. destruct Hp.
    + discriminate.
    + intros _. split; reflexivity.
    + destruct (update_patches_range ta base K B flt L Xi P 0) as [H0|H1].
      * symmetry. exact H0.
      * exfalso. apply Hup in H1. destruct H1 as (p & Hp).
        rewrite Hnil in Hp. destruct Hp.
Qed.

Lemma patchwise_chunks_false ta base K B Xi (patch : nat) :
  forall n k, patchwise_chunks ta base K B Xi patch n k false = false.
Proof. destruct n; reflexivity. Qed.

Lemma patchwise_chunks_true ta base K B Xi (patch : nat) :
  forall n k,
    patchwise_chunks ta base K B Xi patch n k true = true <->
    (forall k', (k <= k' < k + n)%nat ->
       Z.land (action_word ta base B k') (plain_input K Xi patch k')
       = action_word ta base B k').
Proof.
  induction n as [|n IH]; intros k.
  - simpl. split; [intros _ k' Hk'; lia | reflexivity].
  - cbn [patchwise_chunks]. rewrite andb_true_l.
    fold (plain_input K Xi patch k).
    destruct (Z.eqb_spec
                (Z.land (action_word ta base B k) (plain_input K Xi patch k))
                (action_word ta base B k)) as [Heq|Hne]; cbn [negb].
    + rewrite IH. split.
      * intros H k' Hk'. destruct (Nat.eq_dec k' k) as [->|Hd]; [exact Heq|].
        apply H. lia.
      * intros H k' Hk'. apply H. lia.
    + split; [discriminate|]. intros H. exfalso. apply Hne, H. lia.
Qed.

(** The match test of PredictEval and PatchwiseEval is [patch_matches] for
    the input [plain_input]. *)
Lemma patchwise_patch_output_spec ta base K B flt Xi (patch : nat) :
  (1 <= K)%nat ->
  patchwise_patch_output ta base K B flt Xi patch = true <->
  patch_matches ta base K B flt (plain_input K Xi patch).
Proof.
  intros HK. unfold patchwise_patch_output, patch_matches.
  rewrite andb_true_iff, patchwise_chunks_true, Z.eqb_eq.
  replace (patch * K + K - 1)%nat with (patch * K + (K - 1))%nat by lia.
  fold (plain_input K Xi patch (K - 1)).
  rewrite land_filter_subset.
  split.
  - intros [H1 H2] k i Hk Hi Hf Ha.
    destruct (Nat.eq_dec k (K - 1)%nat) as [->|Hd].
    + apply H2; auto.
    + specialize (H1 k). rewrite land_subset in H1. apply H1; auto. lia.
  - intros H. split.
    + intros k' Hk'. apply land_subset. intros i Hi Ha.
      apply (H k' i); auto; lia.
    + intros i Hi Hf Ha. apply (H (K - 1)%nat i); auto. lia.
Qed.

(** The chunk loop of PredictEval computes the [output] of PatchwiseEval,
    and, when that is true, whether all the chunks passed were empty. *)
Lemma predict_chunks_spec ta base K B Xi (patch : nat) :
  forall n k ae,
    fst (predict_chunks ta base K B Xi patch n k true ae)
    = patchwise_chunks ta base K B Xi patch n k true
    /\ (patchwise_chunks ta base K B Xi patch n k true = true ->
        (snd (predict_chunks ta base K B Xi patch n k true ae) = true <->
         ae = true
         /\ forall k', (k <= k' < k + n)%nat -> action_word ta base B k' = 0)).
Proof.
  induction n as [|n IH]; intros k ae.
  - cbn. split; [reflexivity|]. intros _.
    split; [intros H; split; [exact H | intros k' Hk'; lia] | intros [H _]; exact H].
  - cbn [predict_chunks patchwise_chunks]. rewrite !andb_true_l.
    destruct (Z.land (action_word ta base B k) (Xi !!! (patch * K + k)%nat)
              =? action_word ta base B k) eqn:E; cbn [negb].
    + destruct (IH (S k) (ae && (action_word ta base B k =? 0))) as [IH1 IH2].
      split; [exact IH1|]. intros Ho. rewrite (IH2 Ho).
      rewrite andb_true_iff, Z.eqb_eq. split.
      * intros [[Hae H0] H]. split; [exact Hae|]. intros k' Hk'.
        destruct (Nat.eq_dec k' k) as [->|Hd]; [exact H0 | apply H; lia].
      * intros [Hae H]. split; [split; [exact Hae | apply H; lia]|].
        intros k' Hk'. apply H. lia.
    + cbn [fst snd]. split; [reflexivity | discriminate].
Qed.

Lemma predict_patches_range ta base K B flt Xi :
  forall n p,
    predict_patches ta base K B flt Xi n p = 0
    \/ predict_patches ta base K B flt Xi n p = 1.
Proof.
  induction n as [|n IH]; intros p; cbn [predict_patches]; [left; reflexivity|].
  destruct (predict_chunks ta base K B Xi p (K - 1) 0 true true) as [o ae].
  destruct (_ && (_ =? 0)); [right; reflexivity | apply IH].
Qed.

Lemma predict_patches_one ta base K B flt Xi :
  forall n p,
    predict_patches ta base K B flt Xi n p = 1 <->
    (exists patch, (p <= patch < p + n)%nat
       /\ patchwise_patch_output ta base K B flt Xi patch = true)
    /\ ~ all_exclude ta base K B flt.
Proof.
  induction n as [|n IH]; intros p; cbn [predict_patches].
  - split; [discriminate | intros [(patch & Hp & _) _]; lia].
  - destruct (predict_chunks_spec ta base K B Xi p (K - 1) 0 true) as [H1 H2].
    destruct (predict_chunks ta base K B Xi p (K - 1) 0 true true) as [o ae].
    cbn [fst snd] in H1, H2.
    assert (Ho : o && (Z.land (Z.land (action_word ta base B (K - 1))
                                      (Xi !!! (p * K + K - 1)%nat)) flt
                       =? Z.land (action_word ta base B (K - 1)) flt)
                 = patchwise_patch_output ta base K B flt Xi p).
    { unfold patchwise_patch_output. rewrite H1. reflexivity. }
    rewrite Ho.
    destruct (patchwise_patch_output ta base K B flt Xi p) eqn:Ep.
    + (* the patch matches *)
      assert (Hc : patchwise_chunks ta base K B Xi p (K - 1) 0 true = true).
      { unfold patchwise_patch_output in Ep. apply andb_true_iff in Ep.
        apply Ep. }
      specialize (H2 Hc).
      assert (Hae : ae && (Z.land (action_word ta base B (K - 1)) flt =? 0) = true
                    <-> all_exclude ta base K B flt).
      { rewrite andb_true_iff, Z.eqb_eq, H2. unfold all_exclude. split.
        - intros [[_ H] Ht]. split; [intros k Hk; apply H; lia | exact Ht].
        - intros [H Ht]. split; [split; [reflexivity|]|exact Ht].
          intros k' Hk'. apply H. lia. }
      cbn [andb].
      destruct (ae && (Z.land (action_word ta base B (K - 1)) flt =? 0)) eqn:Eae.
      * cbn [b2w]. cbn.
        rewrite IH. split; intros [_ Hn]; exfalso; apply Hn, Hae; reflexivity.
      * cbn. split; [intros _|reflexivity]. split.
        -- exists p. split; [lia | exact Ep].
        -- intros Hall. apply Hae in Hall. discriminate.
    + cbn [andb]. rewrite IH. split; intros [(patch & Hp & Hm) Hn]; (split; [|exact Hn]).
      * exists patch. split; [lia | exact Hm].
      * exists patch. split; [|exact Hm].
        destruct (Nat.eq_dec patch p) as [->|Hd]; [congruence | lia].
Qed.


(** A patch that matches on [X] matches on every input that has the bits of
    [X]. *)
Lemma patch_matches_mono ta base K B flt (X Y : nat -> Z) :
  (forall k i, (k < K)%nat -> 0 <= i ->
     Z.testbit (X k) i = true -> Z.testbit (Y k) i = true) ->
  patch_matches ta base K B flt X -> patch_matches ta base K B flt Y.
Proof.
  intros Hsub HX k i Hk Hi Hf Ha. apply Hsub; [exact Hk | exact Hi|].
  apply (HX k i); assumption.
Qed.

Lemma masked_input_active K L Xi patch k :
  L !!! k <> 0 -> masked_input K L Xi patch k = plain_input K Xi patch k.
Proof.
  intros HL. unfold masked_input, plain_input, cnot.
  destruct (Z.eqb_spec (L !!! k) 0) as [H|_]; [contradiction|].
  apply Z.lor_0_r.
Qed.

(** X4: PredictEval returns [0] or [1], and [1] exactly when some patch
    matches on the plain input and the clause is not all-exclude. *)
Theorem predict_mode_output ta base K B flt Xi (P : nat) :
  (1 <= K)%nat ->
  let r := cb_calculate_clause_output_predict ta base K B flt Xi P in
  (r = 0 \/ r = 1)
  /\ (r = 1 <->
      (exists p, (p < P)%nat /\ patch_matches ta base K B flt (plain_input K Xi p))
      /\ ~ all_exclude ta base K B flt).
Proof.
  intros HK. cbv zeta. unfold cb_calculate_clause_output_predict.
  split; [apply predict_patches_range|].
  rewrite predict_patches_one.
  split; intros [(p & Hp & Hm) Hn]; (split; [|exact Hn]); exists p.
  - split; [lia|]. apply patchwise_patch_output_spec; assumption.
  - split; [lia|]. apply patchwise_patch_output_spec; assumption.
Qed.

(** X5: whatever [literal_active] is, a clause that PredictEval accepts is
    accepted by UpdateEval on the same input; when every chunk of
    [literal_active] is non-zero and the clause is not all-exclude, the two
    return the same value. *)
Theorem predict_implies_update ta base K B flt L Xi (P : nat) :
  (1 <= K)%nat ->
  (cb_calculate_clause_output_predict ta base K B flt Xi P = 1 ->
   cb_calculate_clause_output_update ta base K B flt L Xi P = 1)
  /\ ((forall k, (k < K)%nat -> L !!! k <> 0) ->
      ~ all_exclude ta base K B flt ->
      cb_calculate_clause_output_predict ta base K B flt Xi P
      = cb_calculate_clause_output_update ta base K B flt L Xi P).
Proof.
  intros HK.
  assert (Hfwd : cb_calculate_clause_output_predict ta base K B flt Xi P = 1 ->
                 cb_calculate_clause_output_update ta base K B flt L Xi P = 1).
  { unfold cb_calculate_clause_output_predict, cb_calculate_clause_output_update.
    rewrite predict_patches_one, update_patches_one.
    intros [(p & Hp & Hm) _]. exists p. split; [exact Hp|].
    apply masked_patch_output_spec; [exact HK|].
    apply patchwise_patch_output_spec in Hm; [|exact HK].
    revert Hm. apply patch_matches_mono. intros k i _ _ Hb.
    unfold masked_input. rewrite Z.lor_spec. unfold plain_input in Hb.
    rewrite Hb. reflexivity. }
  split; [exact Hfwd|].
  intros Hact Hn.
  destruct (update_patches_range ta base K B flt L Xi P 0) as [H0|H1];
    fold (cb_calculate_clause_output_update ta base K B flt L Xi P) in *.
  - rewrite H0.
    destruct (predict_patches_range ta base K B flt Xi P 0) as [H0'|H1'];
      fold (cb_calculate_clause_output_predict ta base K B flt Xi P) in *;
      [exact H0'|].
    apply Hfwd in H1'. congruence.
  - rewrite H1. revert H1.
    unfold cb_calculate_clause_output_predict, cb_calculate_clause_output_update.
    rewrite predict_patches_one, update_patches_one.
    intros (p & Hp & Hm). split; [|exact Hn]. exists p. split; [exact Hp|].
    apply patchwise_patch_output_spec; [exact HK|].
    apply masked_patch_output_spec in Hm; [|exact HK].
    revert Hm. apply patch_matches_mono. intros k i Hk _ Hb.
    rewrite masked_input_active in Hb by (apply Hact; exact Hk). exact Hb.
Qed.

Lemma patchwise_patches_length ta base K B flt Xi :
  forall n p out obase,
    length (patchwise_patches ta base K B flt Xi n p out obase) = length out.
Proof.
  induction n as [|n IH]; intros p out obase; cbn [patchwise_patches];
    [reflexivity|].
  rewrite IH. apply length_insert.
Qed.

Lemma patchwise_patches_frame ta base K B flt Xi :
  forall n p out obase idx,
    (idx < obase + p \/ obase + p + n <= idx)%nat ->
    patchwise_patches ta base K B flt Xi n p out obase !!! idx = out !!! idx.
Proof.
  induction n as [|n IH]; intros p out obase idx Hidx; cbn [patchwise_patches];
    [reflexivity|].
  rewrite IH by lia. apply list_lookup_total_insert_ne. lia.
Qed.

Lemma patchwise_patches_lookup ta base K B flt Xi :
  forall n p out obase q,
    (p <= q < p + n)%nat -> (obase + q < length out)%nat ->
    patchwise_patches ta base K B flt Xi n p out obase !!! (obase + q)%nat
    = b2w (patchwise_patch_output ta base K B flt Xi q).
Proof.
  induction n as [|n IH]; intros p out obase q Hq Hlen; cbn [patchwise_patches];
    [lia|].
  destruct (Nat.eq_dec q p) as [->|Hd].
  - rewrite patchwise_patches_frame by lia.
    apply list_lookup_total_insert_eq. exact Hlen.
  - apply IH; [lia | rewrite length_insert; exact Hlen].
Qed.

(** X6: PatchwiseEval of one clause writes [1] in cell [patch] of its
    window when the patch matches on the plain input and [0] otherwise,
    leaves every cell outside the window as it was, and keeps the length of
    the buffer. *)
Theorem patchwise_mode_output ta base K B flt Xi (P : nat) (out : list Z)
    (obase : nat) :
  (1 <= K)%nat -> (obase + P <= length out)%nat ->
  let out' := cb_calculate_clause_output_patchwise ta base K B flt Xi P out obase in
  length out' = length out
  /\ (forall p, (p < P)%nat ->
        (out' !!! (obase + p)%nat = 0 \/ out' !!! (obase + p)%nat = 1)
        /\ (out' !!! (obase + p)%nat = 1 <->
            patch_matches ta base K B flt (plain_input K Xi p)))
  /\ (forall idx, (idx < obase \/ obase + P <= idx)%nat ->
        out' !!! idx = out !!! idx).
Proof.
  intros HK Hlen. cbv zeta. unfold cb_calculate_clause_output_patchwise.
  split; [apply patchwise_patches_length|]. split.
  - intros p Hp. rewrite patchwise_patches_lookup by lia.
    rewrite <- patchwise_patch_output_spec by exact HK.
    destruct (patchwise_patch_output ta base K B flt Xi p); cbn [b2w].
    + split; [right; reflexivity | split; reflexivity].
    + split; [left; reflexivity | split; discriminate].
  - intros idx Hidx. apply patchwise_patches_frame. lia.
Qed.


(** ** The entry points of evaluation *)

Lemma for_range_insert_frame (f : nat -> Z) :
  forall n k (out : list Z) j,
    (j < k \/ k + n <= j)%nat ->
    for_range n k (fun j o => <[j := f j]> o) out !!! j = out !!! j.
Proof.
  induction n as [|n IH]; intros k out j Hj; simpl; [reflexivity|].
  rewrite IH by lia. apply list_lookup_total_insert_ne. lia.
Qed.

(** X7: [cb_calculate_clause_outputs_update] and
    [cb_calculate_clause_outputs_predict] write one cell per clause: cell
    [j] becomes [0] or [1], and [1] exactly when some patch matches clause
    [j], whose state starts at word [j*K*B] (for Predict, when in addition
    the clause is not all-exclude).  The cells from [number_of_clauses] on
    and the length of the buffer are unchanged. *)
Theorem clause_outputs_cells (ta : list Z) (C : nat) (F : Z) (B P : nat)
    (out L Xi : list Z) :
  1 <= F -> (C <= length out)%nat ->
  let K := number_of_ta_chunks F in
  let up := cb_calculate_clause_outputs_update ta C F B P out L Xi in
  let pr := cb_calculate_clause_outputs_predict ta C F B P out Xi in
  (length up = length out /\ length pr = length out)
  /\ (forall j, (C <= j)%nat -> up !!! j = out !!! j /\ pr !!! j = out !!! j)
  /\ (forall j, (j < C)%nat ->
        (up !!! j = 0 \/ up !!! j = 1)
        /\ (pr !!! j = 0 \/ pr !!! j = 1)
        /\ (up !!! j = 1 <->
            exists p, (p < P)%nat
              /\ patch_matches ta (j * K * B) K B (cb_filter F)
                   (masked_input K L Xi p))
        /\ (pr !!! j = 1 <->
            (exists p, (p < P)%nat
               /\ patch_matches ta (j * K * B) K B (cb_filter F)
                    (plain_input K Xi p))
            /\ ~ all_exclude ta (j * K * B) K B (cb_filter F))).
Proof.
  intros HF HC. cbv zeta.
  destruct (number_of_ta_chunks_bounds F HF) as [HK _].
  unfold cb_calculate_clause_outputs_update, cb_calculate_clause_outputs_predict.
  cbv zeta.
  split; [split; apply for_range_insert_length|]. split.
  - intros j Hj. split; apply for_range_insert_frame; lia.
  - intros j Hj.
    rewrite (for_range_insert_lookup
               (fun j => cb_calculate_clause_output_update ta
                           (j * number_of_ta_chunks F * B) (number_of_ta_chunks F)
                           B (cb_filter F) L Xi P)) by lia.
    rewrite (for_range_insert_lookup
               (fun j => cb_calculate_clause_output_predict ta
                           (j * number_of_ta_chunks F * B) (number_of_ta_chunks F)
                           B (cb_filter F) Xi P)) by lia.
    split; [apply update_patches_range|].
    split; [apply predict_patches_range|]. split.
    + unfold cb_calculate_clause_output_update. rewrite update_patches_one.
      split; intros (p & Hp & Hm); exists p; (split; [lia|]);
        apply masked_patch_output_spec; assumption.
    + unfold cb_calculate_clause_output_predict. rewrite predict_patches_one.
      split; intros [(p & Hp & Hm) Hn]; (split; [|exact Hn]); exists p;
        (split; [lia|]); apply patchwise_patch_output_spec; assumption.
Qed.

Lemma patchwise_loop_length ta K B flt Xi P :
  forall n k out,
    length
      (for_range n k
         (fun j o =>
            cb_calculate_clause_output_patchwise ta (j * K * B) K B flt Xi P o
              (j * P)%nat) out)
    = length out.
Proof.
  induction n as [|n IH]; intros k out; simpl; [reflexivity|].
  rewrite IH. apply patchwise_patches_length.
Qed.

Lemma patchwise_loop_frame ta K B flt Xi P :
  forall n k out idx,
    (idx < k * P \/ (k + n) * P <= idx)%nat ->
    for_range n k
      (fun j o =>
         cb_calculate_clause_output_patchwise ta (j * K * B) K B flt Xi P o
           (j * P)%nat) out !!! idx
    = out !!! idx.
Proof.
  induction n as [|n IH]; intros k out idx Hidx; simpl; [reflexivity|].
  rewrite IH by nia. apply patchwise_patches_frame. nia.
Qed.

(** X8: [cb_calculate_clause_outputs_patchwise] fills a table of
    [number_of_clauses] rows of [number_of_patches] cells: cell [j*P + p]
    becomes [1] when patch [p] matches clause [j] and [0] otherwise; the
    cells after the table and the length of the buffer are unchanged.  A
    clause has the Predict output [1] exactly when its row holds a [1] and
    the clause is not all-exclude. *)
Theorem patchwise_outputs_table (ta : list Z) (C : nat) (F : Z) (B P : nat)
    (out pout Xi : list Z) :
  1 <= F -> (C * P <= length out)%nat -> (C <= length pout)%nat ->
  let K := number_of_ta_chunks F in
  let tbl := cb_calculate_clause_outputs_patchwise ta C F B P out Xi in
  let pr := cb_calculate_clause_outputs_predict ta C F B P pout Xi in
  length tbl = length out
  /\ (forall idx, (C * P <= idx)%nat -> tbl !!! idx = out !!! idx)
  /\ (forall j p, (j < C)%nat -> (p < P)%nat ->
        (tbl !!! (j * P + p)%nat = 0 \/ tbl !!! (j * P + p)%nat = 1)
        /\ (tbl !!! (j * P + p)%nat = 1 <->
            patch_matches ta (j * K * B) K B (cb_filter F) (plain_input K Xi p)))
  /\ (forall j, (j < C)%nat ->
        pr !!! j = 1 <->
        (exists p, (p < P)%nat /\ tbl !!! (j * P + p)%nat = 1)
        /\ ~ all_exclude ta (j * K * B) K B (cb_filter F)).
Proof.
  intros HF Hout Hpout. cbv zeta.
  destruct (number_of_ta_chunks_bounds F HF) as [HK _].
  set (K := number_of_ta_chunks F) in *.
  assert (Hcell : forall j p, (j < C)%nat -> (p < P)%nat ->
            cb_calculate_clause_outputs_patchwise ta C F B P out Xi
              !!! (j * P + p)%nat
            = b2w (patchwise_patch_output ta (j * K * B) K B (cb_filter F) Xi p)).
  { intros j p Hj Hp. unfold cb_calculate_clause_outputs_patchwise. cbv zeta.
    fold K. rewrite (for_range_at _ C j) by exact Hj.
    rewrite patchwise_loop_frame by nia.
    unfold cb_calculate_clause_output_patchwise at 1.
    apply patchwise_patches_lookup; [lia|].
    rewrite patchwise_loop_length. nia. }
  split; [apply patchwise_loop_length|]. split; [|split].
  - intros idx Hidx. apply patchwise_loop_frame. nia.
  - intros j p Hj Hp. rewrite Hcell by assumption.
    rewrite <- patchwise_patch_output_spec by exact HK.
    destruct (patchwise_patch_output ta (j * K * B) K B (cb_filter F) Xi p);
      cbn [b2w].
    + split; [right; reflexivity | split; reflexivity].
    + split; [left; reflexivity | split; discriminate].
  - intros j Hj. unfold cb_calculate_clause_outputs_predict. cbv zeta. fold K.
    rewrite (for_range_insert_lookup
               (fun j => cb_calculate_clause_output_predict ta (j * K * B) K B
                           (cb_filter F) Xi P)) by lia.
    unfold cb_calculate_clause_output_predict. rewrite predict_patches_one.
    split; intros [(p & Hp & Hm) Hn]; (split; [|exact Hn]); exists p;
      (split; [lia|]).
    + rewrite Hcell by (assumption || lia). rewrite Hm. reflexivity.
    + rewrite Hcell in Hm by (assumption || lia).
      destruct (patchwise_patch_output ta (j * K * B) K B (cb_filter F) Xi p);
        [reflexivity | discriminate].
Qed.


(** ** The random mask of Type I feedback *)

Lemma wshl_one (n : Z) : 0 <= n < 32 -> wshl 1 n = 2 ^ n.
Proof.
  intros Hn. unfold wshl, word_mod. rewrite Z.shiftl_1_l.
  apply Z.mod_small. split; [apply Z.pow_nonneg; lia|].
  change 4294967296 with (2 ^ 32). apply Z.pow_lt_mono_r; lia.
Qed.

Lemma land_pow2_zero (x n : Z) :
  0 <= n -> Z.land x (2 ^ n) = 0 -> Z.testbit x n = false.
Proof.
  intros Hn H.
  assert (Hb : Z.testbit (Z.land x (2 ^ n)) n = false)
    by (rewrite H; apply Z.bits_0).
  rewrite Z.land_spec, Z.pow2_bits_true, andb_true_r in Hb by exact Hn.
  exact Hb.
Qed.

Lemma popcount_upto_ext (x y : Z) :
  forall m, (forall i, 0 <= i < Z.of_nat m -> Z.testbit x i = Z.testbit y i) ->
            popcount_upto m x = popcount_upto m y.
Proof.
  induction m as [|m IH]; intros H; [reflexivity|].
  cbn [popcount_upto]. rewrite IH by (intros i Hi; apply H; lia).
  rewrite H by lia. reflexivity.
Qed.

Lemma popcount_upto_lor_pow2 (x n : Z) :
  0 <= n -> Z.testbit x n = false ->
  forall m, n < Z.of_nat m ->
            popcount_upto m (Z.lor x (2 ^ n)) = S (popcount_upto m x).
Proof.
  intros Hn Hclear. induction m as [|m IH]; intros Hm; [lia|].
  cbn [popcount_upto]. rewrite Z.lor_spec, Z.pow2_bits_eqb by exact Hn.
  destruct (Z.eq_dec n (Z.of_nat m)) as [Heq|Hne].
  - rewrite <- Heq, Z.eqb_refl, orb_true_r, Hclear.
    rewrite (popcount_upto_ext (Z.lor x (2 ^ n)) x).
    + lia.
    + intros i Hi. rewrite Z.lor_spec, Z.pow2_bits_eqb by exact Hn.
      destruct (Z.eqb_spec n i); [lia | apply orb_false_r].
  - destruct (Z.eqb_spec n (Z.of_nat m)) as [|_]; [contradiction|].
    rewrite orb_false_r, IH by lia. reflexivity.
Qed.

Lemma total_bits_insert (v : Z) :
  forall (l : list Z) (c : nat),
    (c < length l)%nat ->
    (total_bits (<[c := v]> l) + popcount (l !!! c)
     = total_bits l + popcount v)%nat.
Proof.
  induction l as [|x l IH]; intros c Hc; [cbn in Hc; lia|].
  destruct c as [|c]; cbn [total_bits].
  - cbn. lia.
  - change (<[S c := v]> (x :: l)) with (x :: <[c := v]> l).
    change ((x :: l) !!! S c) with (l !!! c).
    cbn [total_bits]. cbn [length] in Hc.
    specialize (IH c ltac:(lia)). lia.
Qed.

Lemma total_bits_replicate (n : nat) : total_bits (replicate n 0) = 0%nat.
Proof. induction n as [|n IH]; [reflexivity | exact IH]. Qed.

(** The rejection loop ends on a feature below [F] whose bit is clear. *)
Lemma redraw_feature_spec :
  forall fuel fb F f g f' g',
    0 < F -> 0 <= f < F ->
    redraw_feature fuel fb F f g = Some (f', g') ->
    0 <= f' < F
    /\ Z.testbit (fb !!! Z.to_nat (f' / 32)) (f' mod 32) = false.
Proof.
  induction fuel as [|fuel IH]; intros fb F f g f' g' HF Hf H; [discriminate|].
  cbn [redraw_feature] in H.
  pose proof (Z.mod_pos_bound f 32 ltac:(lia)) as Hm.
  rewrite wshl_one in H by exact Hm.
  destruct (Z.eqb_spec (Z.land (fb !!! Z.to_nat (f / 32)) (2 ^ (f mod 32))) 0)
    as [Hz|Hnz]; cbn [negb] in H.
  - inversion H; subst f' g'. split; [exact Hf|].
    apply land_pow2_zero; [lia | exact Hz].
  - destruct (fast_rand g) as [r g1].
    apply (IH _ _ _ _ _ _ HF (Z.mod_pos_bound r F HF) H).
Qed.

Lemma set_active_features_spec (fuel : nat) (F : Z) :
  0 < F ->
  forall active fb g fb' g',
    F <= 32 * Z.of_nat (length fb) ->
    mask_within F fb ->
    set_active_features fuel active fb F g = Some (fb', g') ->
    length fb' = length fb
    /\ mask_within F fb'
    /\ total_bits fb' = (total_bits fb + active)%nat.
Proof.
  intros HF.
  induction active as [|active IH]; intros fb g fb' g' Hlen Hin H.
  - inversion H; subst. split; [reflexivity | split; [exact Hin | lia]].
  - cbn [set_active_features] in H.
    destruct (fast_rand g) as [r g1].
    destruct (redraw_feature fuel fb F (r mod F) g1) as [[f g2]|] eqn:Er;
      [|discriminate].
    apply redraw_feature_spec in Er; [|exact HF | apply Z.mod_pos_bound; exact HF].
    destruct Er as [Hf Hclear].
    pose proof (Z.mod_pos_bound f 32 ltac:(lia)) as Hm.
    pose proof (Z.div_mod f 32 ltac:(lia)) as Hdm.
    assert (Hq : 0 <= f / 32) by (apply Z.div_pos; lia).
    assert (Hc : (Z.to_nat (f / 32) < length fb)%nat) by lia.
    rewrite wshl_one in H by exact Hm.
    destruct Hin as [Hw Hbits].
    apply IH in H.
    + destruct H as (H1 & H2 & H3). rewrite length_insert in H1.
      split; [exact H1 | split; [exact H2|]].
      rewrite H3.
      pose proof (total_bits_insert
                    (Z.lor (fb !!! Z.to_nat (f / 32)) (2 ^ (f mod 32)))
                    fb (Z.to_nat (f / 32)) Hc) as Ht.
      unfold popcount in Ht at 2.
      rewrite popcount_upto_lor_pow2 in Ht by (lia || exact Hclear).
      fold (popcount (fb !!! Z.to_nat (f / 32))) in Ht. lia.
    + rewrite length_insert. exact Hlen.
    + split.
      * apply Forall_insert; [exact Hw|].
        apply is_word_lor; [apply is_word_lookup; exact Hw|].
        unfold is_word, word_mod. split; [apply Z.pow_nonneg; lia|].
        change 4294967296 with (2 ^ 32). apply Z.pow_lt_mono_r; lia.
      * intros c i Hlt Hi Hb. rewrite length_insert in Hlt.
        destruct (Nat.eq_dec c (Z.to_nat (f / 32))) as [->|Hne].
        -- rewrite list_lookup_total_insert_eq in Hb by exact Hc.
           rewrite Z.lor_spec, Z.pow2_bits_eqb in Hb by lia.
           apply orb_true_iff in Hb. destruct Hb as [Hb|Hb].
           ++ apply Hbits; assumption.
           ++ apply Z.eqb_eq in Hb. subst i. lia.
        -- rewrite list_lookup_total_insert_ne in Hb by congruence.
           apply Hbits; assumption.
Qed.

(** X9: when [cb_initialize_random_streams] returns, [feedback_to_ta] has
    [number_of_ta_chunks] words in which only bits of features are set, and
    as many of them as [normal] asked for, brought into the range from [0]
    to [number_of_features]. *)
Theorem random_stream_mask (fuel : nat) (F : Z) (K : nat) (s : float)
    (g : rng) (fb : list Z) (g' : rng) :
  1 <= F -> F <= 32 * Z.of_nat K ->
  cb_initialize_random_streams fuel F K s g = Some (fb, g') ->
  length fb = K
  /\ Forall is_word fb
  /\ (forall (c : nat) (i : Z),
        (c < K)%nat -> 0 <= i -> Z.testbit (fb !!! c) i = true ->
        i < 32 /\ 32 * Z.of_nat c + i < F)
  /\ Z.of_nat (total_bits fb) = Z.max 0 (Z.min (fst (normal F s g)) F).
Proof.
  intros HF HK H. unfold cb_initialize_random_streams in H.
  destruct (normal F s g) as [active g1]. cbn [fst].
  apply set_active_features_spec in H.
  - rewrite length_replicate, total_bits_replicate in H.
    destruct H as (H1 & [H2 H3] & H4).
    split; [exact H1 | split; [exact H2 | split]].
    { intros c i Hc. apply H3. lia. }
    rewrite H4.
    assert (Hmin : (if active >=? F then F else active) = Z.min active F).
    { rewrite Z.geb_leb. destruct (Z.leb_spec F active); lia. }
    rewrite Hmin. destruct (Z.ltb_spec (Z.min active F) 0); lia.
  - lia.
  - rewrite length_replicate. exact HK.
  - split.
    + apply Forall_forall. intros x Hx. apply elem_of_replicate in Hx.
      destruct Hx as [-> _]. unfold is_word, word_mod. lia.
    + intros c i Hlt Hi Hb. exfalso. rewrite length_replicate in Hlt.
      rewrite lookup_total_replicate_2 in Hb by exact Hlt.
      rewrite Z.bits_0 in Hb. discriminate.
Qed.


Lemma drawn_feature_fast_rand (F : Z) (g : rng) :
  fst (fast_rand g) mod F = drawn_feature F g 0
  /\ forall m, drawn_feature F (snd (fast_rand g)) m = drawn_feature F g (S m).
Proof.
  unfold drawn_feature, fast_rand. cbn [fst snd stream drawn].
  split; [rewrite Nat.add_0_r; reflexivity|].
  intros m. replace (S (drawn g) + m)%nat with (drawn g + S m)%nat by lia.
  reflexivity.
Qed.

Lemma drawn_feature_range (F : Z) (g : rng) (m : nat) :
  0 < F -> 0 <= drawn_feature F g m < F.
Proof. intros HF. apply Z.mod_pos_bound. exact HF. Qed.

(** Bit [i] of chunk [c] after feature [f] has been switched on. *)
Lemma feature_bit_insert (fb : list Z) (f : Z) (c : nat) (i : Z) :
  0 <= f -> (Z.to_nat (f / 32) < length fb)%nat ->
  0 <= i < 32 ->
  Z.testbit
    (<[Z.to_nat (f / 32) :=
         Z.lor (fb !!! Z.to_nat (f / 32)) (2 ^ (f mod 32))]> fb !!! c) i
  = Z.testbit (fb !!! c) i || (32 * Z.of_nat c + i =? f).
Proof.
  intros Hf Hlen Hi.
  pose proof (Z.mod_pos_bound f 32 ltac:(lia)) as Hm.
  pose proof (Z.div_mod f 32 ltac:(lia)) as Hdm.
  assert (Hq : 0 <= f / 32) by (apply Z.div_pos; lia).
  destruct (Nat.eq_dec c (Z.to_nat (f / 32))) as [->|Hne].
  - rewrite list_lookup_total_insert_eq by exact Hlen.
    rewrite Z.lor_spec, Z.pow2_bits_eqb by lia. f_equal.
    rewrite Z2Nat.id by exact Hq.
    destruct (Z.eqb_spec (f mod 32) i), (Z.eqb_spec (32 * (f / 32) + i) f);
      (reflexivity || lia).
  - rewrite list_lookup_total_insert_ne by congruence.
    destruct (Z.eqb_spec (32 * Z.of_nat c + i) f) as [He|_];
      [|rewrite orb_false_r; reflexivity].
    exfalso. apply Hne.
    assert (f / 32 = Z.of_nat c); [|lia].
    symmetry. apply (Z.div_unique f 32 (Z.of_nat c) i); lia.
Qed.

Lemma set_active_features_distinct (fuel : nat) (F : Z) :
  0 < F ->
  forall active fb g,
    F <= 32 * Z.of_nat (length fb) ->
    (forall m, (m < active)%nat ->
       Z.testbit (fb !!! Z.to_nat (drawn_feature F g m / 32))
                 (drawn_feature F g m mod 32) = false) ->
    (forall m m', (m < m' < active)%nat ->
       drawn_feature F g m <> drawn_feature F g m') ->
    exists fb',
      set_active_features (S fuel) active fb F g = Some (fb', skip_draws active g)
      /\ length fb' = length fb
      /\ forall (c : nat) (i : Z),
           (c < length fb)%nat -> 0 <= i < 32 ->
           (Z.testbit (fb' !!! c) i = true <->
            Z.testbit (fb !!! c) i = true
            \/ exists m, (m < active)%nat
                 /\ drawn_feature F g m = 32 * Z.of_nat c + i).
Proof.
  intros HF.
  induction active as [|active IH]; intros fb g Hlen Hclear Hdist.
  - exists fb. cbn [set_active_features]. rewrite skip_draws_zero.
    split; [reflexivity | split; [reflexivity|]].
    intros c i _ _. split; [intros H; left; exact H|].
    intros [H|(m & Hm & _)]; [exact H | lia].
  - cbn [set_active_features].
    destruct (drawn_feature_fast_rand F g) as [Hf0 Hshift].
    rewrite skip_draws_succ.
    destruct (fast_rand g) as [r g1]. cbn [fst snd] in Hf0, Hshift |- *.
    rewrite Hf0.
    set (f := drawn_feature F g 0) in *.
    pose proof (drawn_feature_range F g 0 HF) as Hf. fold f in Hf.
    pose proof (Z.mod_pos_bound f 32 ltac:(lia)) as Hm32.
    pose proof (Z.div_mod f 32 ltac:(lia)) as Hdm.
    assert (Hq : 0 <= f / 32) by (apply Z.div_pos; lia).
    assert (Hc : (Z.to_nat (f / 32) < length fb)%nat) by lia.
    cbn [redraw_feature]. rewrite wshl_one by exact Hm32.
    assert (Hz : Z.land (fb !!! Z.to_nat (f / 32)) (2 ^ (f mod 32)) = 0).
    { apply Z.bits_inj'. intros i Hi. rewrite Z.land_spec, Z.bits_0.
      rewrite Z.pow2_bits_eqb by lia.
      destruct (Z.eqb_spec (f mod 32) i) as [<-|_]; [|apply andb_false_r].
      pose proof (Hclear 0%nat ltac:(lia)) as H0. fold f in H0.
      rewrite H0. reflexivity. }
    rewrite Hz. cbn [Z.eqb negb]. rewrite wshl_one by exact Hm32.
    destruct (IH (<[Z.to_nat (f / 32) :=
                      Z.lor (fb !!! Z.to_nat (f / 32)) (2 ^ (f mod 32))]> fb) g1)
      as (fb' & Hrun & Hlen' & Hbits).
    + rewrite length_insert. exact Hlen.
    + intros m Hm. rewrite Hshift.
      pose proof (drawn_feature_range F g (S m) HF) as Hfm.
      pose proof (Z.mod_pos_bound (drawn_feature F g (S m)) 32 ltac:(lia)) as Hmm.
      pose proof (Z.div_mod (drawn_feature F g (S m)) 32 ltac:(lia)) as Hdmm.
      assert (0 <= drawn_feature F g (S m) / 32) by (apply Z.div_pos; lia).
      rewrite feature_bit_insert by lia.
      rewrite (Hclear (S m)) by lia.
      destruct (Z.eqb_spec (32 * Z.of_nat (Z.to_nat (drawn_feature F g (S m) / 32))
                            + drawn_feature F g (S m) mod 32) f) as [He|_];
        [|reflexivity].
      exfalso. apply (Hdist 0%nat (S m)); [lia|]. fold f. lia.
    + intros m m' Hmm. rewrite !Hshift. apply Hdist. lia.
    + exists fb'. split; [exact Hrun|]. rewrite length_insert in Hlen', Hbits.
      split; [exact Hlen'|].
      intros c i Hci Hi. rewrite (Hbits c i Hci Hi).
      rewrite feature_bit_insert by lia.
      rewrite orb_true_iff, Z.eqb_eq. split.
      * intros [[H|H]|(m & Hm & He)].
        -- left. exact H.
        -- right. exists 0%nat. split; [lia|]. fold f. lia.
        -- right. exists (S m). split; [lia|]. rewrite <- Hshift. exact He.
      * intros [H|(m & Hm & He)]; [left; left; exact H|].
        destruct m as [|m].
        -- left. right. fold f in He. lia.
        -- right. exists m. split; [lia|]. rewrite Hshift. exact He.
Qed.

(** X10: when the draws that follow [normal] name different features,
    [cb_initialize_random_streams] returns without drawing twice for one
    feature: it takes one draw for each of the [active] features, and the
    bits set in [feedback_to_ta] are those of the features drawn. *)
Theorem random_stream_distinct_draws (fuel : nat) (F : Z) (K : nat) (s : float)
    (g : rng) :
  1 <= F -> F <= 32 * Z.of_nat K ->
  let g1 := snd (normal F s g) in
  let active := clamp_active (fst (normal F s g)) F in
  (forall m m', (m < m' < active)%nat ->
     drawn_feature F g1 m <> drawn_feature F g1 m') ->
  exists fb,
    cb_initialize_random_streams (S fuel) F K s g = Some (fb, skip_draws active g1)
    /\ length fb = K
    /\ forall (c : nat) (i : Z),
         (c < K)%nat -> 0 <= i < 32 ->
         (Z.testbit (fb !!! c) i = true <->
          exists m, (m < active)%nat
            /\ drawn_feature F g1 m = 32 * Z.of_nat c + i).
Proof.
  intros HF HK. cbv zeta. intros Hdist.
  unfold cb_initialize_random_streams.
  destruct (normal F s g) as [a g1]. cbn [fst snd] in Hdist |- *.
  fold (clamp_active a F).
  destruct (set_active_features_distinct fuel F ltac:(lia) (clamp_active a F)
              (replicate K 0) g1) as (fb & Hrun & Hlen & Hbits).
  - rewrite length_replicate. exact HK.
  - intros m Hm.
    pose proof (drawn_feature_range F g1 m ltac:(lia)) as Hf.
    pose proof (Z.div_mod (drawn_feature F g1 m) 32 ltac:(lia)) as Hdm.
    pose proof (Z.mod_pos_bound (drawn_feature F g1 m) 32 ltac:(lia)) as Hmm.
    assert (0 <= drawn_feature F g1 m / 32) by (apply Z.div_pos; lia).
    rewrite lookup_total_replicate_2 by lia. apply Z.bits_0.
  - exact Hdist.
  - exists fb. rewrite length_replicate in Hlen, Hbits.
    split; [exact Hrun | split; [exact Hlen|]].
    intros c i Hc Hi. rewrite (Hbits c i Hc Hi).
    rewrite lookup_total_replicate_2 by exact Hc. rewrite Z.bits_0.
    split; [intros [H|H]; [discriminate | exact H] | intros H; right; exact H].
Qed.

Lemma redraw_feature_clear (fuel : nat) (fb : list Z) (F f : Z) (g : rng) :
  Z.testbit (fb !!! Z.to_nat (f / 32)) (f mod 32) = false ->
  redraw_feature (S fuel) fb F f g = Some (f, g).
Proof.
  intros Hclear. cbn [redraw_feature].
  pose proof (Z.mod_pos_bound f 32 ltac:(lia)) as Hm.
  rewrite wshl_one by exact Hm.
  replace (Z.land (fb !!! Z.to_nat (f / 32)) (2 ^ (f mod 32))) with 0;
    [reflexivity|].
  symmetry. apply Z.bits_inj'. intros i Hi.
  rewrite Z.land_spec, Z.bits_0, Z.pow2_bits_eqb by lia.
  destruct (Z.eqb_spec (f mod 32) i) as [<-|_]; [|apply andb_false_r].
  rewrite Hclear. reflexivity.
Qed.

Lemma redraw_feature_stuck (fb : list Z) (F f : Z) :
  0 <= f mod 32 < 32 ->
  Z.testbit (fb !!! Z.to_nat (f / 32)) (f mod 32) = true ->
  forall fuel g,
    (forall m, drawn_feature F g m = f) ->
    redraw_feature fuel fb F f g = None.
Proof.
  intros Hm Hset. induction fuel as [|fuel IH]; intros g Hsame; [reflexivity|].
  cbn [redraw_feature]. rewrite wshl_one by exact Hm.
  destruct (Z.eqb_spec (Z.land (fb !!! Z.to_nat (f / 32)) (2 ^ (f mod 32))) 0)
    as [Hz|_].
  - apply land_pow2_zero in Hz; [congruence | lia].
  - cbn [negb]. destruct (drawn_feature_fast_rand F g) as [Hf0 Hshift].
    destruct (fast_rand g) as [r g1]. cbn [fst snd] in Hf0, Hshift.
    rewrite Hf0, Hsame. apply IH. intros m. rewrite Hshift. apply Hsame.
Qed.

(** X11: the loop that draws again for a feature already switched on has no
    bound.  When [normal] asks for two features or more and every draw
    names the same feature, no amount of fuel lets
    [cb_initialize_random_streams] return. *)
Theorem random_stream_same_draws (F : Z) (K : nat) (s : float) (g : rng) :
  2 <= F -> F <= 32 * Z.of_nat K ->
  2 <= fst (normal F s g) ->
  (forall m, drawn_feature F (snd (normal F s g)) m
             = drawn_feature F (snd (normal F s g)) 0) ->
  forall fuel, cb_initialize_random_streams fuel F K s g = None.
Proof.
  intros HF HK Hact Hsame fuel.
  unfold cb_initialize_random_streams.
  destruct (normal F s g) as [a g1]. cbn [fst snd] in Hact, Hsame.
  fold (clamp_active a F).
  assert (Hn : exists n, clamp_active a F = S (S n)).
  { exists (clamp_active a F - 2)%nat. unfold clamp_active.
    rewrite Z.geb_leb. destruct (Z.leb_spec F a);
      match goal with |- context [?x <? 0] => destruct (Z.ltb_spec x 0) end; lia. }
  destruct Hn as [n ->].
  set (f := drawn_feature F g1 0) in *.
  pose proof (drawn_feature_range F g1 0 ltac:(lia)) as Hf. fold f in Hf.
  pose proof (Z.mod_pos_bound f 32 ltac:(lia)) as Hm32.
  pose proof (Z.div_mod f 32 ltac:(lia)) as Hdm.
  assert (Hq : 0 <= f / 32) by (apply Z.div_pos; lia).
  destruct fuel as [|fuel]; [reflexivity|].
  cbn [set_active_features].
  destruct (drawn_feature_fast_rand F g1) as [Hf0 Hshift].
  destruct (fast_rand g1) as [r g2]. cbn [fst snd] in Hf0, Hshift.
  rewrite Hf0. fold f.
  rewrite redraw_feature_clear
    by (rewrite lookup_total_replicate_2 by lia; apply Z.bits_0).
  rewrite wshl_one by exact Hm32.
  destruct (drawn_feature_fast_rand F g2) as [Hf1 Hshift2].
  destruct (fast_rand g2) as [r2 g3]. cbn [fst snd] in Hf1, Hshift2.
  rewrite Hf1, Hshift, Hsame. fold f.
  rewrite redraw_feature_stuck; [reflexivity | exact Hm32 | |].
  - rewrite list_lookup_total_insert_eq by (rewrite length_replicate; lia).
    rewrite Z.lor_spec, Z.pow2_bits_true by lia. apply orb_true_r.
  - intros m. rewrite Hshift2, Hshift. apply Hsame.
Qed.


(** ** The ledger of Type III feedback *)

(** Feedback mode returns the output of UpdateEval, and draws only when it
    is [1]. *)
Lemma feedback_output_cases ta base K B flt L Xi P g :
  let r := cb_calculate_clause_output_feedback ta base K B flt L Xi P g in
  (fst (fst r) = 1
   /\ cb_calculate_clause_output_update ta base K B flt L Xi P = 1
   /\ snd r = snd (fast_rand g))
  \/ (fst (fst r) = 0
      /\ cb_calculate_clause_output_update ta base K B flt L Xi P = 0
      /\ snd r = g).
Proof.
  cbv zeta. unfold cb_calculate_clause_output_feedback.
  rewrite feedback_patches_filter. cbn [app].
  set (l := List.filter (masked_patch_output ta base K B flt L Xi) (seq 0 P)).
  assert (Hup : cb_calculate_clause_output_update ta base K B flt L Xi P = 1 <->
                exists p, In p l).
  { unfold cb_calculate_clause_output_update. rewrite update_patches_one.
    split; intros (p & Hp).
    - exists p. unfold l. rewrite filter_In, in_seq.
      split; [lia | apply Hp].
    - exists p. unfold l in Hp. rewrite filter_In, in_seq in Hp.
      split; [lia | apply Hp]. }
  destruct (Nat.ltb_spec 0 (length l)) as [Hpos|Hzero].
  - left. destruct (fast_rand g) as [r g1]. cbn [fst snd].
    split; [reflexivity | split; [|reflexivity]].
    apply Hup. destruct l as [|p l']; [cbn in Hpos; lia|].
    exists p. left. reflexivity.
  - right. cbn [fst snd]. split; [reflexivity | split; [|reflexivity]].
    destruct (update_patches_range ta base K B flt L Xi P 0) as [H0|H1];
      [exact H0|].
    apply Hup in H1. destruct H1 as (p & Hp).
    destruct l; [destruct Hp | cbn in Hzero; lia].
Qed.

Lemma invert_chunk_cell j K target k (cat : list Z) :
  (j * K + k < length cat)%nat -> is_word (cat !!! (j * K + k)%nat) ->
  type_iii_invert_chunk j K target k cat !!! (j * K + k)%nat
  = if target =? 0 then word_max else wnot (cat !!! (j * K + k)%nat).
Proof.
  intros Hlen Hw. unfold type_iii_invert_chunk.
  rewrite list_lookup_total_insert_eq by (rewrite length_insert; exact Hlen).
  rewrite list_lookup_total_insert_eq by exact Hlen.
  set (c := cat !!! (j * K + k)%nat) in *.
  apply Z.bits_inj'. intros i Hi.
  rewrite Z.land_spec, Z.lor_spec, !testbit_wnot.
  destruct (Z.eqb_spec target 0) as [Ht|Ht]; cbn [negb].
  - rewrite testbit_word_max, Z.bits_0. cbn [negb andb].
    destruct (Z.leb_spec 0 i); [|lia]. cbn [andb].
    destruct (Z.ltb_spec i 32) as [Hi32|Hi32].
    + destruct (Z.testbit c i); reflexivity.
    + rewrite (is_word_testbit_high c i Hw Hi32). reflexivity.
  - rewrite testbit_wnot.
    destruct (Z.testbit c i), ((0 <=? i) && (i <? 32)); reflexivity.
Qed.

Lemma invert_loop_cell j K target :
  forall n k (cat : list Z) k',
    (k <= k' < k + n)%nat ->
    (j * K + k' < length cat)%nat -> is_word (cat !!! (j * K + k')%nat) ->
    for_range n k (type_iii_invert_chunk j K target) cat !!! (j * K + k')%nat
    = if target =? 0 then word_max else wnot (cat !!! (j * K + k')%nat).
Proof.
  induction n as [|n IH]; intros k cat k' Hk Hlen Hw; [lia|].
  cbn [for_range].
  assert (Hl : length (type_iii_invert_chunk j K target k cat) = length cat).
  { unfold type_iii_invert_chunk. rewrite !length_insert. reflexivity. }
  destruct (Nat.eq_dec k' k) as [->|Hne].
  - assert (Hfr : forall m (a : list Z),
              for_range m (S k) (type_iii_invert_chunk j K target) a
                !!! (j * K + k)%nat = a !!! (j * K + k)%nat).
    { induction m as [|m IHm]; intros a; [reflexivity|].
      rewrite <- (Nat.add_1_r m), for_range_split.
      cbn [for_range]. rewrite type_iii_invert_chunk_frame by lia. apply IHm. }
    rewrite Hfr. apply invert_chunk_cell; assumption.
  - rewrite IH.
    + rewrite type_iii_invert_chunk_frame by lia. reflexivity.
    + lia.
    + rewrite Hl. exact Hlen.
    + rewrite type_iii_invert_chunk_frame by lia. exact Hw.
Qed.

(** The update at the offending literal, bit by bit: it falls in the first
    chunk of the clause. *)
Lemma type_iii_toggle_bits j K target ol (cat : list Z) idx i :
  (ol = -1 \/ 0 <= ol < 32) -> (j * K < length cat)%nat ->
  0 <= i < 32 ->
  Z.testbit (type_iii_toggle j K target ol cat !!! idx) i
  = if (idx =? j * K)%nat && (i =? ol)
    then negb (Z.testbit (cat !!! idx) i) || (target =? 0)
    else Z.testbit (cat !!! idx) i.
Proof.
  intros Hol Hlen Hi. unfold type_iii_toggle.
  destruct (Z.eqb_spec ol (-1)) as [->|Hne]; cbn [negb].
  { destruct (Z.eqb_spec i (-1)); [lia|]. rewrite andb_false_r. reflexivity. }
  assert (Hr : 0 <= ol < 32) by lia.
  rewrite (Z.div_small ol 32), (Z.mod_small ol 32) by lia.
  change (Z.to_nat 0) with 0%nat. rewrite Nat.add_0_r.
  rewrite wshl_one by exact Hr.
  destruct (Nat.eqb_spec idx (j * K)) as [->|Hidx]; cbn [andb].
  - destruct (Z.eqb_spec (Z.land (cat !!! (j * K)%nat) (2 ^ ol)) 0) as [Hz|Hnz].
    + apply land_pow2_zero in Hz; [|lia].
      rewrite list_lookup_total_insert_eq by exact Hlen.
      rewrite Z.lor_spec, Z.pow2_bits_eqb by lia.
      destruct (Z.eqb_spec ol i) as [<-|Hd].
      * rewrite Z.eqb_refl, Hz. reflexivity.
      * destruct (Z.eqb_spec i ol); [lia|]. apply orb_false_r.
    + assert (Hset : Z.testbit (cat !!! (j * K)%nat) ol = true).
      { destruct (Z.testbit (cat !!! (j * K)%nat) ol) eqn:E; [reflexivity|].
        exfalso. apply Hnz. apply Z.bits_inj'. intros i' Hi'.
        rewrite Z.land_spec, Z.bits_0, Z.pow2_bits_eqb by lia.
        destruct (Z.eqb_spec ol i') as [<-|_]; [|apply andb_false_r].
        rewrite E. reflexivity. }
      destruct (Z.eqb_spec target 0) as [Ht|Ht]; cbn [negb].
      * destruct (Z.eqb_spec i ol) as [->|_]; [|reflexivity].
        rewrite Hset. reflexivity.
      * rewrite list_lookup_total_insert_eq by exact Hlen.
        rewrite Z.land_spec, testbit_wnot_low, Z.pow2_bits_eqb by lia.
        destruct (Z.eqb_spec ol i) as [<-|Hd].
        -- rewrite Z.eqb_refl, Hset. reflexivity.
        -- destruct (Z.eqb_spec i ol); [lia|]. apply andb_true_r.
  - destruct (_ =? 0); [rewrite list_lookup_total_insert_ne by lia; reflexivity|].
    destruct (negb _);
      [rewrite list_lookup_total_insert_ne by lia; reflexivity | reflexivity].
Qed.

(** X12: what Type III feedback does to the ledger [clause_and_target] of
    an active clause.  When the clause is true on some patch, every word of
    the clause in the ledger is inverted if [target] is set and becomes
    all ones if it is not.  When the clause is false, the only bit that can
    change is bit [offending_literal] of the first word of the clause: it
    is set if it was clear, and cleared if it was set and [target] is set.
    The words of the other clauses are never written. *)
Theorem type_iii_ledger F Bt Bi P up d ca L Xi target j bk g :
  1 <= F -> Forall is_word (ta_state bk) ->
  Forall is_word (clause_and_target bk) ->
  let K := number_of_ta_chunks F in
  (j * K + K <= length (clause_and_target bk))%nat ->
  ca !!! j <> 0 ->
  let cat := clause_and_target bk in
  let cat' :=
    clause_and_target (fst (type_iii_clause F Bt Bi P up d ca L Xi target j (bk, g))) in
  let clause_output :=
    cb_calculate_clause_output_update (ta_state bk) (j * K * Bt) K Bt
      (cb_filter F) L Xi P in
  let offending_literal :=
    fst (cb_calculate_clause_output_single_false_literal (ta_state bk)
           (j * K * Bt) K Bt (cb_filter F) L Xi P g) in
  (clause_output = 1 ->
     forall k, (k < K)%nat ->
       cat' !!! (j * K + k)%nat
       = if target =? 0 then word_max else wnot (cat !!! (j * K + k)%nat))
  /\ (clause_output = 0 ->
        forall idx i, 0 <= i < 32 ->
          Z.testbit (cat' !!! idx) i
          = if (idx =? j * K)%nat && (i =? offending_literal)
            then negb (Z.testbit (cat !!! idx) i) || (target =? 0)
            else Z.testbit (cat !!! idx) i)
  /\ (forall idx, (idx < j * K \/ j * K + K <= idx)%nat ->
        cat' !!! idx = cat !!! idx).
Proof.
  intros HF Hta Hcat K Hlen Hact. cbv zeta.
  destruct (number_of_ta_chunks_bounds F HF) as [HK _]. fold K in HK.
  split; [|split].
  3: { intros idx Hidx.
       apply (type_iii_clause_frame F Bt Bi P up d ca L Xi target j bk g HF Hta).
       exact Hidx. }
  - intros Hout k Hk. unfold type_iii_clause. fold K.
    destruct (Z.eqb_spec (ca !!! j) 0) as [|_]; [contradiction|].
    destruct (feedback_output_cases (ta_state bk) (j * K * Bt) K Bt (cb_filter F)
                L Xi P g) as [(Hco & _ & _)|(_ & H0 & _)]; [|congruence].
    destruct (cb_calculate_clause_output_feedback _ _ _ _ _ _ _ _ _)
      as [[co cp] g1]. cbn [fst snd] in Hco. subst co. cbn [Z.eqb negb].
    assert (Hcell :
              for_range K 0 (type_iii_invert_chunk j K target) (clause_and_target bk)
                !!! (j * K + k)%nat
              = if target =? 0 then word_max
                else wnot (clause_and_target bk !!! (j * K + k)%nat)).
    { apply invert_loop_cell; [lia | lia | apply is_word_lookup; exact Hcat]. }
    destruct (negb (target =? 0)).
    + destruct (fast_rand g1) as [r g2]. destruct (draw_le_decay r d);
        destruct (fast_rand g2) as [r' g3]; destruct (_ || _); exact Hcell.
    + destruct (fast_rand g1) as [r' g3]; destruct (_ || _); exact Hcell.
  - intros Hout idx i Hi. unfold type_iii_clause. fold K.
    destruct (Z.eqb_spec (ca !!! j) 0) as [|_]; [contradiction|].
    destruct (feedback_output_cases (ta_state bk) (j * K * Bt) K Bt (cb_filter F)
                L Xi P g) as [(_ & H1 & _)|(Hco & _ & Hg)]; [congruence|].
    destruct (cb_calculate_clause_output_feedback _ _ _ _ _ _ _ _ _)
      as [[co cp] g1]. cbn [fst snd] in Hco, Hg. subst co g1. cbn [Z.eqb negb].
    pose proof (single_false_literal_range (ta_state bk) (j * K * Bt) K Bt
                  (cb_filter F) L Xi P g Hta (cb_filter_word F) HK) as Hrange.
    cbv zeta in Hrange.
    destruct (cb_calculate_clause_output_single_false_literal _ _ _ _ _ _ _ _ _)
      as [ol g2]. cbn [fst] in Hrange |- *.
    destruct (fast_rand g2) as [r' g3]; destruct (_ || _);
      cbn [fst clause_and_target];
      apply type_iii_toggle_bits; (assumption || lia).
Qed.


(** ** The direction of Type I feedback *)

Lemma cb_initialize_random_streams_returns (fuel : nat) (F : Z) (K : nat)
    (s : float) (g : rng) :
  1 <= F -> F <= 32 * Z.of_nat K ->
  (forall m m', (m < m' < clamp_active (fst (normal F s g)) F)%nat ->
     drawn_feature F (snd (normal F s g)) m
     <> drawn_feature F (snd (normal F s g)) m') ->
  exists fb g',
    cb_initialize_random_streams (S fuel) F K s g = Some (fb, g').
Proof.
  intros HF HK Hdist. unfold cb_initialize_random_streams.
  destruct (normal F s g) as [a g1]. cbn [fst snd] in Hdist.
  fold (clamp_active a F).
  destruct (set_active_features_distinct fuel F ltac:(lia) (clamp_active a F)
              (replicate K 0) g1) as (fb & Hrun & _).
  - rewrite length_replicate. exact HK.
  - intros m Hm.
    pose proof (drawn_feature_range F g1 m ltac:(lia)) as Hf.
    pose proof (Z.div_mod (drawn_feature F g1 m) 32 ltac:(lia)) as Hdm.
    pose proof (Z.mod_pos_bound (drawn_feature F g1 m) 32 ltac:(lia)) as Hmm.
    assert (0 <= drawn_feature F g1 m / 32) by (apply Z.div_pos; lia).
    rewrite lookup_total_replicate_2 by lia. apply Z.bits_0.
  - exact Hdist.
  - exists fb, (skip_draws (clamp_active a F) g1). exact Hrun.
Qed.

(** X13: one clause of Type I feedback moves a counter by one at most.
    When the clause is true on [clause_patch] (Type Ia), the counter of a
    literal that is true in that patch does not go down, and with
    [boost_true_positive_feedback = 1] it goes up by one, up to the largest
    value, whenever the clause is selected and the literal is active; the
    counter of a literal that is false in the patch does not go up.  This
    holds of every step that returns, and the step does return, with one
    test of the redraw loop per feature, when the draws that follow
    [normal] name different features. *)
Theorem type_i_direction fuel F B P up s boost ca L Xi j ta g k i :
  1 <= F -> Forall is_word L ->
  (k < number_of_ta_chunks F)%nat ->
  (j * number_of_ta_chunks F * B + number_of_ta_chunks F * B <= length ta)%nat ->
  0 <= i < 32 ->
  let K := number_of_ta_chunks F in
  let fb :=
    cb_calculate_clause_output_feedback ta (j * K * B) K B (cb_filter F) L Xi P
      (snd (fast_rand g)) in
  let clause_output := fst (fst fb) in
  let clause_patch := snd (fst fb) in
  let literal := Z.testbit (Xi !!! (clause_patch * K + k)%nat) i in
  let c := counter ta (j * K * B + k * B) B i in
  let effect (ta' : list Z) :=
    let c' := counter ta' (j * K * B + k * B) B i in
    c - 1 <= c' <= c + 1
    /\ (clause_output <> 0 -> literal = true -> c <= c')
    /\ (clause_output <> 0 -> literal = false -> c' <= c)
    /\ (clause_output <> 0 -> literal = true -> boost = 1 ->
        selected up ca j g = true -> Z.testbit (L !!! k) i = true ->
        c' = Z.min (c + 1) (2 ^ Z.of_nat B - 1)) in
  (forall fuel' ta' g',
     type_i_clause fuel' F B P up s boost ca L Xi j (ta, g) = Some (ta', g') ->
     effect ta')
  /\ ((forall m m',
         (m < m' < clamp_active (fst (normal F s (snd fb))) F)%nat ->
         drawn_feature F (snd (normal F s (snd fb))) m
         <> drawn_feature F (snd (normal F s (snd fb))) m') ->
      exists ta' g',
        type_i_clause (S fuel) F B P up s boost ca L Xi j (ta, g) = Some (ta', g')
        /\ effect ta').
Proof.
  intros HF HL Hk Hlen Hi K. cbn zeta.
  destruct (number_of_ta_chunks_bounds F HF) as [HK HFK]. fold K in HK, HFK.
  pose proof (counter_range ta (j * K * B + k * B) B i) as Hrange.
  assert (HA : forall fuel' ta' g',
            type_i_clause fuel' F B P up s boost ca L Xi j (ta, g) = Some (ta', g') ->
            let fb :=
              cb_calculate_clause_output_feedback ta (j * K * B) K B (cb_filter F)
                L Xi P (snd (fast_rand g)) in
            let c := counter ta (j * K * B + k * B) B i in
            let c' := counter ta' (j * K * B + k * B) B i in
            c - 1 <= c' <= c + 1
            /\ (fst (fst fb) <> 0 ->
                Z.testbit (Xi !!! (snd (fst fb) * K + k)%nat) i = true -> c <= c')
            /\ (fst (fst fb) <> 0 ->
                Z.testbit (Xi !!! (snd (fst fb) * K + k)%nat) i = false -> c' <= c)
            /\ (fst (fst fb) <> 0 ->
                Z.testbit (Xi !!! (snd (fst fb) * K + k)%nat) i = true ->
                boost = 1 -> selected up ca j g = true ->
                Z.testbit (L !!! k) i = true ->
                c' = Z.min (c + 1) (2 ^ Z.of_nat B - 1))).
  { intros fuel' ta' g' Hstep. cbn zeta.
    unfold type_i_clause, selected in *. fold K in Hstep.
    unfold fast_rand in *. cbn [fst snd] in *. cbn zeta in Hstep.
    destruct (draw_gt _ up); cbn [orb negb andb] in *;
      [inversion Hstep; subst; repeat split; intros; (lia || discriminate)|].
    destruct (Z.eqb_spec (ca !!! j) 0); cbn [negb] in *;
      [inversion Hstep; subst; repeat split; intros; (lia || discriminate)|].
    destruct (cb_calculate_clause_output_feedback _ _ _ _ _ _ _ _ _)
      as [[co cp] g2]. cbn [fst snd].
    destruct (cb_initialize_random_streams _ _ _ _ _) as [[fbm g3]|];
      [|discriminate].
    destruct (Z.eqb_spec co 0) as [Hco|Hco]; cbn [negb] in Hstep;
      inversion Hstep; subst ta' g'.
    - rewrite type_ib_loop_counter by assumption.
      destruct (Z.testbit _ i); repeat split; intros; (lia || contradiction).
    - pose proof (type_ia_loop_counter (j * K * B) K B boost L Xi fbm cp ta k i
                    HL Hk Hlen Hi) as Hia.
      cbn zeta in Hia. rewrite Hia. clear Hia.
      rewrite !Z.land_spec.
      assert (Hinc : Z.testbit
                       (if boost =? 1
                        then Z.land (L !!! k) (Xi !!! (cp * K + k)%nat)
                        else Z.land (Z.land (L !!! k) (Xi !!! (cp * K + k)%nat))
                                    (wnot (fbm !!! k))) i
                     = Z.testbit (L !!! k) i
                       && Z.testbit (Xi !!! (cp * K + k)%nat) i
                       && ((boost =? 1) || negb (Z.testbit (fbm !!! k) i))).
      { destruct (boost =? 1); rewrite !Z.land_spec.
        - rewrite orb_true_l, andb_true_r. reflexivity.
        - rewrite testbit_wnot_low by exact Hi. reflexivity. }
      rewrite Hinc, testbit_wnot_low by exact Hi.
      destruct (Z.testbit (L !!! k) i), (Z.testbit (Xi !!! (cp * K + k)%nat) i),
        (Z.testbit (fbm !!! k) i), (Z.eqb_spec boost 1);
        cbn [andb orb negb]; repeat split; intros;
        (lia || discriminate || contradiction). }
  split; [exact HA|].
  intros Hdist.
  assert (Hret : exists ta' g',
            type_i_clause (S fuel) F B P up s boost ca L Xi j (ta, g)
            = Some (ta', g')).
  { unfold type_i_clause. fold K.
    unfold fast_rand in *. cbn [fst snd] in *. cbn zeta.
    destruct (draw_gt _ up || (ca !!! j =? 0)); [eexists _, _; reflexivity|].
    destruct (cb_calculate_clause_output_feedback _ _ _ _ _ _ _ _ _)
      as [[co cp] g2]. cbn [fst snd] in Hdist.
    destruct (cb_initialize_random_streams_returns fuel F K s g2 HF
                ltac:(lia) Hdist) as (fbm & g3 & Hrun).
    rewrite Hrun. destruct (negb (co =? 0)); eexists _, _; reflexivity. }
  destruct Hret as (ta' & g' & Hret).
  exists ta', g'. split; [exact Hret|]. exact (HA _ _ _ Hret).
Qed.


(** ** cb_calculate_literal_frequency *)

Lemma land_pow2_test (x c : Z) :
  0 <= c -> (Z.land x (2 ^ c) >? 0) = Z.testbit x c.
Proof.
  intros Hc.
  assert (H : Z.land x (2 ^ c) = if Z.testbit x c then 2 ^ c else 0).
  { apply Z.bits_inj'. intros i Hi. rewrite Z.land_spec.
    destruct (Z.eqb_spec c i) as [<-|Hne].
    - rewrite Z.pow2_bits_true, andb_true_r by exact Hc.
      destruct (Z.testbit x c); [rewrite Z.pow2_bits_true by exact Hc|
                                 rewrite Z.bits_0]; reflexivity.
    - rewrite Z.pow2_bits_false, andb_false_r by exact Hne.
      destruct (Z.testbit x c); [rewrite Z.pow2_bits_false by exact Hne|
                                 rewrite Z.bits_0]; reflexivity. }
  rewrite H. destruct (Z.testbit x c).
  - apply Z.gtb_lt. apply Z.pow_pos_nonneg; lia.
  - reflexivity.
Qed.

Lemma literal_frequency_step_length ta K B j k lc :
  length (literal_frequency_step ta K B j k lc) = length lc.
Proof.
  unfold literal_frequency_step. destruct (_ >? 0); [apply length_insert|reflexivity].
Qed.

Lemma literal_frequency_step_lookup ta K B j k lc k' :
  (k' < length lc)%nat ->
  literal_frequency_step ta K B j k lc !!! k'
  = if (k' =? k)%nat
       && Z.testbit (ta !!! (j * K * B + (k / 32) * B + B - 1)%nat)
                    (Z.of_nat (k mod 32))
    then (lc !!! k' + 1) mod word_mod
    else lc !!! k'.
Proof.
  intros Hlen. unfold literal_frequency_step.
  assert (Hm : 0 <= Z.of_nat (k mod 32) < 32).
  { pose proof (Nat.mod_upper_bound k 32 ltac:(lia)). lia. }
  rewrite wshl_one by exact Hm. rewrite land_pow2_test by lia.
  destruct (Nat.eqb_spec k' k) as [->|Hne]; cbn [andb].
  - destruct (Z.testbit _ _); [|reflexivity].
    apply list_lookup_total_insert_eq. exact Hlen.
  - destruct (Z.testbit _ _); [|reflexivity].
    apply list_lookup_total_insert_ne. congruence.
Qed.

Lemma literal_frequency_row ta K B j :
  forall n k0 lc,
    length (for_range n k0 (literal_frequency_step ta K B j) lc) = length lc
    /\ forall k', (k' < length lc)%nat ->
         for_range n k0 (literal_frequency_step ta K B j) lc !!! k'
         = if (k0 <=? k')%nat && (k' <? k0 + n)%nat
              && Z.testbit (ta !!! (j * K * B + (k' / 32) * B + B - 1)%nat)
                           (Z.of_nat (k' mod 32))
           then (lc !!! k' + 1) mod word_mod
           else lc !!! k'.
Proof.
  induction n as [|n IH]; intros k0 lc.
  - split; [reflexivity|]. intros k' _. cbn [for_range].
    destruct (Nat.leb_spec k0 k'), (Nat.ltb_spec k' (k0 + 0)); (reflexivity || lia).
  - cbn [for_range].
    destruct (IH (S k0) (literal_frequency_step ta K B j k0 lc)) as [IHl IHv].
    rewrite literal_frequency_step_length in IHl, IHv.
    split; [exact IHl|]. intros k' Hk'. rewrite IHv by exact Hk'.
    rewrite literal_frequency_step_lookup by exact Hk'.
    destruct (Nat.eqb_spec k' k0) as [->|Hne]; cbn [andb].
    + destruct (Nat.leb_spec (S k0) k0); [lia|]. cbn [andb].
      destruct (Nat.leb_spec k0 k0), (Nat.ltb_spec k0 (k0 + S n)); try lia.
      reflexivity.
    + destruct (Nat.leb_spec (S k0) k'), (Nat.leb_spec k0 k'),
        (Nat.ltb_spec k' (S k0 + n)), (Nat.ltb_spec k' (k0 + S n));
        (reflexivity || lia).
Qed.

Lemma including_clauses_succ ta K B C k :
  including_clauses ta K B (S C) k
  = (including_clauses ta K B C k
     + if Z.testbit (ta !!! (C * K * B + (k / 32) * B + B - 1)%nat)
                    (Z.of_nat (k mod 32))
       then 1 else 0)%nat.
Proof.
  unfold including_clauses. rewrite seq_S, List.filter_app, length_app.
  cbn [List.filter Nat.add].
  destruct (Z.testbit _ _); reflexivity.
Qed.

Lemma literal_frequency_rows ta K B n (lc : list Z) :
  (forall k, (k < n)%nat -> (k < length lc)%nat -> lc !!! k = 0) ->
  forall C,
    let r :=
      for_range C 0 (fun j lc => for_range n 0 (literal_frequency_step ta K B j) lc)
        lc in
    length r = length lc
    /\ forall k, (k < length lc)%nat ->
         r !!! k
         = if (k <? n)%nat
           then Z.of_nat (including_clauses ta K B C k) mod word_mod
           else lc !!! k.
Proof.
  intros Hz. induction C as [|C IH]; cbv zeta.
  - split; [reflexivity|]. intros k Hk. cbn [for_range].
    destruct (Nat.ltb_spec k n); [|reflexivity].
    rewrite Hz by assumption. reflexivity.
  - cbv zeta in IH. destruct IH as [IHl IHv].
    rewrite <- (Nat.add_1_r C), for_range_split. cbn [for_range Nat.add].
    destruct (literal_frequency_row ta K B C n 0
                (for_range C 0
                   (fun j lc => for_range n 0 (literal_frequency_step ta K B j) lc)
                   lc)) as [Hl Hv].
    rewrite IHl in Hl, Hv. split; [exact Hl|].
    intros k Hk. rewrite (Hv k Hk), (IHv k Hk).
    rewrite Nat.add_1_r, including_clauses_succ.
    cbn [Nat.leb andb Nat.add].
    destruct (Nat.ltb_spec k n) as [Hkn|Hkn]; cbn [andb]; [|reflexivity].
    destruct (Z.testbit _ _).
    + rewrite Zplus_mod_idemp_l. f_equal. lia.
    + f_equal. lia.
Qed.

(** X14: [cb_calculate_literal_frequency] leaves in cell [k] of
    [literal_count], for every feature [k], the number of clauses whose
    action bit of literal [k] is set (as a 32-bit number); what the cell
    held before does not matter, and the cells from [number_of_features] on
    and the length of the array are unchanged. *)
Theorem literal_frequency_counts (ta : list Z) (C : nat) (F : Z) (B : nat)
    (lc : list Z) :
  0 <= F -> (Z.to_nat F <= length lc)%nat ->
  let K := number_of_ta_chunks F in
  let r := cb_calculate_literal_frequency ta C F B lc in
  length r = length lc
  /\ (forall k, (k < Z.to_nat F)%nat ->
        r !!! k = Z.of_nat (including_clauses ta K B C k) mod word_mod)
  /\ (forall k, (Z.to_nat F <= k)%nat -> (k < length lc)%nat -> r !!! k = lc !!! k).
Proof.
  intros HF Hlen. cbv zeta. unfold cb_calculate_literal_frequency. cbv zeta.
  set (lc0 := for_range (Z.to_nat F) 0 (fun k lc => <[k := 0]> lc) lc).
  assert (Hl0 : length lc0 = length lc)
    by apply (for_range_insert_length (fun _ => 0)).
  destruct (literal_frequency_rows ta (number_of_ta_chunks F) B (Z.to_nat F) lc0)
    with (C := C) as [Hl Hv].
  { intros k Hk Hkl. unfold lc0.
    apply (for_range_insert_lookup (fun _ => 0)); lia. }
  rewrite Hl0 in Hl, Hv. split; [exact Hl | split].
  - intros k Hk. rewrite Hv by lia.
    destruct (Nat.ltb_spec k (Z.to_nat F)); [reflexivity | lia].
  - intros k Hk Hkl. rewrite Hv by exact Hkl.
    destruct (Nat.ltb_spec k (Z.to_nat F)); [lia|].
    unfold lc0. apply (for_range_insert_frame (fun _ => 0)). lia.
Qed.


(** ** The indicators of Type III feedback *)

Lemma type_iii_inc_loop_counter j cp K B L Xi cat patch a k i :
  Forall is_word L ->
  (k < K)%nat -> (cp + K * B <= length a)%nat ->
  counter (for_range K 0 (type_iii_inc_chunk j cp K B L Xi cat patch) a)
    (cp + k * B) B i
  = if Z.testbit (Z.land (Z.land (L !!! k) (cat !!! (j * K + k)%nat))
                         (Xi !!! (patch * K + k)%nat)) i
    then Z.min (counter a (cp + k * B) B i + 1) (2 ^ Z.of_nat B - 1)
    else counter a (cp + k * B) B i.
Proof.
  intros HL Hk Hlen.
  rewrite (chunk_loop_counter (type_iii_inc_chunk j cp K B L Xi cat patch) cp K B i
             (fun k c _ =>
                if Z.testbit (Z.land (Z.land (L !!! k) (cat !!! (j * K + k)%nat))
                                     (Xi !!! (patch * K + k)%nat)) i
                then Z.min (c + 1) (2 ^ Z.of_nat B - 1) else c)).
  - reflexivity.
  - intros. apply type_iii_inc_chunk_frame. assumption.
  - intros. unfold type_iii_inc_chunk. apply cb_inc_length.
  - intros k' a' Hk' Hlen'. unfold type_iii_inc_chunk. apply cb_inc_counter.
    + apply Z.land_nonneg. left. apply Z.land_nonneg. left.
      apply (is_word_lookup L k' HL).
    + assert (k' * B + B <= K * B)%nat by nia. lia.
  - reflexivity.
  - exact Hk.
  - exact Hlen.
Qed.

Lemma type_iii_dec_loop_counter j cp K B L Xi cat patch a k i :
  Forall is_word L -> 0 <= i < 32 ->
  (k < K)%nat -> (cp + K * B <= length a)%nat ->
  counter (for_range K 0 (type_iii_dec_chunk j cp K B L Xi cat patch) a)
    (cp + k * B) B i
  = if Z.testbit (Z.land (Z.land (L !!! k) (wnot (cat !!! (j * K + k)%nat)))
                         (Xi !!! (patch * K + k)%nat)) i
    then Z.max (counter a (cp + k * B) B i - 1) 0
    else counter a (cp + k * B) B i.
Proof.
  intros HL Hi Hk Hlen.
  rewrite (chunk_loop_counter (type_iii_dec_chunk j cp K B L Xi cat patch) cp K B i
             (fun k c _ =>
                if Z.testbit (Z.land (Z.land (L !!! k)
                                             (wnot (cat !!! (j * K + k)%nat)))
                                     (Xi !!! (patch * K + k)%nat)) i
                then Z.max (c - 1) 0 else c)).
  - reflexivity.
  - intros. apply type_iii_dec_chunk_frame. assumption.
  - intros. unfold type_iii_dec_chunk. apply cb_dec_length.
  - intros k' a' Hk' Hlen'. unfold type_iii_dec_chunk. apply cb_dec_counter.
    + exact Hi.
    + apply Z.land_nonneg. left. apply Z.land_nonneg. left.
      apply (is_word_lookup L k' HL).
    + assert (k' * B + B <= K * B)%nat by nia. lia.
  - reflexivity.
  - exact Hk.
  - exact Hlen.
Qed.

(** X15: what Type III feedback does to the indicator counters
    [ind_state] of an active clause.  They change only when the clause is
    true on [clause_patch], and only for the active literals that are true
    in that patch: the counter of such a literal goes down by one, down to
    zero, when the literal is not in the ledger; when it is in the ledger
    it goes up by one, up to the largest value, if [target] is set and the
    draw compared with [d] passes, and keeps its value otherwise. *)
Theorem type_iii_indicators F Bt Bi P up d ca L Xi target j bk g k i :
  Forall is_word L ->
  let K := number_of_ta_chunks F in
  (k < K)%nat -> (j * K * Bi + K * Bi <= length (ind_state bk))%nat ->
  0 <= i < 32 -> ca !!! j <> 0 ->
  let fb :=
    cb_calculate_clause_output_feedback (ta_state bk) (j * K * Bt) K Bt
      (cb_filter F) L Xi P g in
  let clause_output := fst (fst fb) in
  let clause_patch := snd (fst fb) in
  let literal :=
    Z.testbit (L !!! k) i && Z.testbit (Xi !!! (clause_patch * K + k)%nat) i in
  let in_ledger := Z.testbit (clause_and_target bk !!! (j * K + k)%nat) i in
  let decay :=
    negb (target =? 0) && draw_le_decay (fst (fast_rand (snd fb))) d in
  let c := counter (ind_state bk) (j * K * Bi + k * Bi) Bi i in
  counter
    (ind_state (fst (type_iii_clause F Bt Bi P up d ca L Xi target j (bk, g))))
    (j * K * Bi + k * Bi) Bi i
  = if negb (clause_output =? 0) && literal then
      if in_ledger then
        if decay then Z.min (c + 1) (2 ^ Z.of_nat Bi - 1) else c
      else Z.max (c - 1) 0
    else c.
Proof.
  intros HL K Hk Hlen Hi Hact. cbv zeta.
  pose proof (counter_range (ind_state bk) (j * K * Bi + k * Bi) Bi i) as Hrange.
  unfold type_iii_clause. fold K.
  destruct (Z.eqb_spec (ca !!! j) 0) as [|_]; [contradiction|].
  destruct (cb_calculate_clause_output_feedback _ _ _ _ _ _ _ _ _)
    as [[co cp] g1]. cbn [fst snd].
  assert (Hdec : forall a, (j * K * Bi + K * Bi <= length a)%nat ->
            counter
              (for_range K 0
                 (type_iii_dec_chunk j (j * K * Bi) K Bi L Xi (clause_and_target bk) cp)
                 a) (j * K * Bi + k * Bi) Bi i
            = if Z.testbit (L !!! k) i
                 && negb (Z.testbit (clause_and_target bk !!! (j * K + k)%nat) i)
                 && Z.testbit (Xi !!! (cp * K + k)%nat) i
              then Z.max (counter a (j * K * Bi + k * Bi) Bi i - 1) 0
              else counter a (j * K * Bi + k * Bi) Bi i).
  { intros a Ha. rewrite type_iii_dec_loop_counter by assumption.
    rewrite !Z.land_spec, testbit_wnot_low by exact Hi. reflexivity. }
  assert (Hinc :
            counter
              (for_range K 0
                 (type_iii_inc_chunk j (j * K * Bi) K Bi L Xi (clause_and_target bk) cp)
                 (ind_state bk)) (j * K * Bi + k * Bi) Bi i
            = if Z.testbit (L !!! k) i
                 && Z.testbit (clause_and_target bk !!! (j * K + k)%nat) i
                 && Z.testbit (Xi !!! (cp * K + k)%nat) i
              then Z.min (counter (ind_state bk) (j * K * Bi + k * Bi) Bi i + 1)
                         (2 ^ Z.of_nat Bi - 1)
              else counter (ind_state bk) (j * K * Bi + k * Bi) Bi i).
  { rewrite type_iii_inc_loop_counter by assumption.
    rewrite !Z.land_spec. reflexivity. }
  assert (Hinclen :
            length (for_range K 0
                      (type_iii_inc_chunk j (j * K * Bi) K Bi L Xi
                         (clause_and_target bk) cp) (ind_state bk))
            = length (ind_state bk)).
  { apply chunk_loop_length. intros. unfold type_iii_inc_chunk. apply cb_inc_length. }
  destruct (Z.eqb_spec co 0) as [Hco|Hco]; cbn [negb andb].
  - destruct (cb_calculate_clause_output_single_false_literal _ _ _ _ _ _ _ _ _)
      as [ol g2].
    destruct (fast_rand g2) as [r' g3]; destruct (_ || _); reflexivity.
  - destruct (Z.eqb_spec target 0) as [Htg|Htg]; cbn [negb andb].
    + destruct (fast_rand g1) as [r' g3]; destruct (_ || _);
        cbn [fst ind_state]; rewrite Hdec by exact Hlen;
        destruct (Z.testbit (L !!! k) i),
          (Z.testbit (clause_and_target bk !!! (j * K + k)%nat) i),
          (Z.testbit (Xi !!! (cp * K + k)%nat) i); reflexivity.
    + destruct (fast_rand g1) as [r g2]. cbn [fst].
      destruct (draw_le_decay r d);
        destruct (fast_rand g2) as [r' g3]; destruct (_ || _);
        cbn [fst ind_state];
        rewrite Hdec by (rewrite ?Hinclen; exact Hlen); rewrite ?Hinc;
        destruct (Z.testbit (L !!! k) i),
          (Z.testbit (clause_and_target bk !!! (j * K + k)%nat) i),
          (Z.testbit (Xi !!! (cp * K + k)%nat) i); cbn [andb negb];
        (reflexivity || lia).
Qed.


(** ** Type Ia and the patch it was given for *)

Lemma feedback_patch_matches ta base K B flt L Xi P g :
  (1 <= K)%nat ->
  let r := cb_calculate_clause_output_feedback ta base K B flt L Xi P g in
  fst (fst r) <> 0 ->
  patch_matches ta base K B flt (masked_input K L Xi (snd (fst r))).
Proof.
  intros HK. cbv zeta. unfold cb_calculate_clause_output_feedback.
  rewrite feedback_patches_filter. cbn [app].
  set (l := List.filter (masked_patch_output ta base K B flt L Xi) (seq 0 P)).
  destruct (Nat.ltb_spec 0 (length l)) as [Hpos|Hzero].
  - destruct (fast_rand g) as [r g1]. cbn [fst snd]. intros _.
    apply masked_patch_output_spec; [exact HK|].
    assert (Hnth : In (nth (Z.to_nat (r mod Z.of_nat (length l))) l 0%nat) l).
    { apply nth_In_nat.
      pose proof (Z.mod_pos_bound r (Z.of_nat (length l)) ltac:(lia)). lia. }
    unfold l in Hnth at 2. apply filter_In in Hnth. apply Hnth.
  - cbn [fst snd]. intros H. exfalso. apply H. reflexivity.
Qed.

Lemma type_ia_chunk_words cp K B boost L Xi fb patch k a :
  Forall is_word L ->
  Forall is_word a -> Forall is_word (type_ia_chunk cp K B boost L Xi fb patch k a).
Proof.
  intros HL Ha. unfold type_ia_chunk.
  apply cb_dec_words.
  - destruct (boost =? 1); apply cb_inc_words; try exact Ha;
      repeat apply is_word_land_l; apply is_word_lookup; exact HL.
  - repeat apply is_word_land_l. apply is_word_lookup. exact HL.
Qed.

(** X16: Type Ia feedback keeps the clause true on the patch it was given
    for.  When Feedback mode finds the clause true and returns
    [clause_patch], the clause that Type I leaves still matches
    [clause_patch]: the only counters that go up are those of literals that
    are true in that patch. *)
Theorem type_ia_keeps_match fuel F B P up s boost ca L Xi j ta g ta' g' :
  type_i_clause fuel F B P up s boost ca L Xi j (ta, g) = Some (ta', g') ->
  1 <= F -> (1 <= B)%nat ->
  Forall is_word ta -> Forall is_word L ->
  let K := number_of_ta_chunks F in
  (j * K * B + K * B <= length ta)%nat ->
  let fb :=
    cb_calculate_clause_output_feedback ta (j * K * B) K B (cb_filter F) L Xi P
      (snd (fast_rand g)) in
  fst (fst fb) <> 0 ->
  patch_matches ta' (j * K * B) K B (cb_filter F)
    (masked_input K L Xi (snd (fst fb))).
Proof.
  intros Hstep HF HB Hta HL K Hlen. cbv zeta.
  destruct (number_of_ta_chunks_bounds F HF) as [HK _]. fold K in HK.
  pose proof (feedback_patch_matches ta (j * K * B) K B (cb_filter F) L Xi P
                (snd (fast_rand g)) HK) as Hm.
  cbv zeta in Hm.
  unfold type_i_clause in Hstep. fold K in Hstep.
  unfold fast_rand in *. cbn [fst snd] in *. cbn zeta in Hstep.
  destruct (draw_gt _ up || (ca !!! j =? 0));
    [inversion Hstep; subst; exact Hm|].
  destruct (cb_calculate_clause_output_feedback _ _ _ _ _ _ _ _ _)
    as [[co cp] g2]. cbn [fst snd] in *.
  destruct (cb_initialize_random_streams _ _ _ _ _) as [[fbm g3]|];
    [|discriminate].
  intros Hco. specialize (Hm Hco).
  destruct (Z.eqb_spec co 0) as [|_]; [contradiction|]. cbn [negb] in Hstep.
  inversion Hstep; subst ta' g'. clear Hstep.
  intros k i Hk Hi Hf Ha.
  destruct (Z.ltb_spec i 32) as [Hi32|Hi32].
  - destruct (Z.testbit (Xi !!! (cp * K + k)%nat) i) eqn:EX.
    + unfold masked_input. rewrite Z.lor_spec, EX. reflexivity.
    + apply (Hm k i Hk Hi Hf).
      rewrite action_word_top in Ha |- * by exact HB.
      pose proof (type_ia_loop_counter (j * K * B) K B boost L Xi fbm cp ta k i
                    HL Hk Hlen ltac:(lia)) as Hia.
      cbn zeta in Hia. rewrite Hia in Ha. clear Hia.
      assert (Hinc : Z.testbit
                       (if boost =? 1
                        then Z.land (L !!! k) (Xi !!! (cp * K + k)%nat)
                        else Z.land (Z.land (L !!! k) (Xi !!! (cp * K + k)%nat))
                                    (wnot (fbm !!! k))) i = false).
      { destruct (boost =? 1); rewrite !Z.land_spec, EX;
          rewrite ?andb_false_r; reflexivity. }
      rewrite Hinc in Ha.
      pose proof (counter_range ta (j * K * B + k * B) B i) as Hrange.
      apply Z.leb_le in Ha. apply Z.leb_le.
      destruct (Z.testbit _ i) in Ha; lia.
  - exfalso. rewrite is_word_testbit_high in Ha; [discriminate| |exact Hi32].
    unfold action_word. apply is_word_lookup.
    apply chunk_loop_words; [|exact Hta].
    intros. apply type_ia_chunk_words; assumption.
Qed.

End ClauseBank.

(** * The theorems at concrete inputs *)

(** Counter 0 of a stripe of two planes goes 1, 2, 3, 3, 2 under three
    increments and a decrement. *)
Lemma counters_saturate_witness :
  0 <= 0 < 32
  /\ (0 + 2 <= length [1; 0])%nat
  /\ Forall (fun op => is_word (op_mask op)) [OpInc 1; OpInc 1; OpInc 1; OpDec 1]
  /\ is_word 1
  /\ counter (run_ops 0 2 [OpInc 1; OpInc 1; OpInc 1; OpDec 1] [1; 0]) 0 2 0 = 2.
Proof.
  assert (H1 : 0 <= 0 < 32) by lia.
  assert (H2 : (0 + 2 <= length [1; 0])%nat) by (simpl; lia).
  assert (H4 : is_word 1) by (unfold is_word, word_mod; lia).
  assert (H3 : Forall (fun op => is_word (op_mask op))
                 [OpInc 1; OpInc 1; OpInc 1; OpDec 1])
    by (repeat constructor; apply H4).
  split; [exact H1|]. split; [exact H2|]. split; [exact H3|]. split; [exact H4|].
  exact (proj2 (proj1 (counters_saturate 0 2 [1; 0]
                         [OpInc 1; OpInc 1; OpInc 1; OpDec 1] 1 0 H1 H2 H3 H4))).
Defined.

(** Scenario S1 through the theorem: the clause has no included literal. *)
Lemma all_exclude_rule_witness :
  (0 < 1)%nat /\ (1 <= length [7])%nat /\ 1 <= 4
  /\ (forall k, (k < number_of_ta_chunks 4 - 1)%nat ->
                action_word [5; 2; 0] (0 * number_of_ta_chunks 4 * 3) 3 k = 0)
  /\ Z.land (action_word [5; 2; 0] (0 * number_of_ta_chunks 4 * 3) 3
               (number_of_ta_chunks 4 - 1)) (cb_filter 4) = 0
  /\ cb_calculate_clause_outputs_predict [5; 2; 0] 1 4 3 1 [7] [15] !!! 0%nat = 0
  /\ cb_calculate_clause_outputs_update [5; 2; 0] 1 4 3 1 [7] [15] [15] !!! 0%nat = 1.
Proof.
  assert (H1 : (0 < 1)%nat) by lia.
  assert (H2 : (1 <= length [7])%nat) by (simpl; lia).
  assert (H3 : 1 <= 4) by lia.
  assert (H4 : forall k, (k < number_of_ta_chunks 4 - 1)%nat ->
             action_word [5; 2; 0] (0 * number_of_ta_chunks 4 * 3) 3 k = 0)
    by (intros k Hk; vm_compute in Hk; lia).
  assert (H5 : Z.land (action_word [5; 2; 0] (0 * number_of_ta_chunks 4 * 3) 3
                         (number_of_ta_chunks 4 - 1)) (cb_filter 4) = 0)
    by reflexivity.
  split; [exact H1|]. split; [exact H2|]. split; [exact H3|].
  split; [exact H4|]. split; [exact H5|].
  pose proof (proj1 (all_exclude_rule [5; 2; 0] 1 4 3 1 [7] [15] [15] 0 H1 H2 H3)
                H4 H5) as [Hp Hu].
  split; [exact Hp | exact (Hu (le_n 1))].
Defined.

(** Scenario S2 through the theorem: bit 3 of the action plane lies outside
    the filter of [F = 3]. *)
Lemma tail_masking_witness :
  1 <= 3 /\ (1 <= 1)%nat /\ Forall is_word [7] /\ Forall is_word [15]
  /\ (forall (j k b : nat) (i : Z),
        (j < 1)%nat -> (k < number_of_ta_chunks 3)%nat -> (b < 1)%nat ->
        0 <= i < 32 -> 32 * Z.of_nat k + i < 3 ->
        Z.testbit ([7] !!! (j * number_of_ta_chunks 3 * 1 + k * 1 + b)%nat) i
        = Z.testbit ([15] !!! (j * number_of_ta_chunks 3 * 1 + k * 1 + b)%nat) i)
  /\ cb_calculate_clause_outputs_predict [7] 1 3 1 1 [0] [255]
     = cb_calculate_clause_outputs_predict [15] 1 3 1 1 [0] [255].
Proof.
  assert (H1 : 1 <= 3) by lia.
  assert (H2 : (1 <= 1)%nat) by lia.
  assert (H3 : Forall is_word [7])
    by (repeat constructor; unfold word_mod; lia).
  assert (H4 : Forall is_word [15])
    by (repeat constructor; unfold word_mod; lia).
  assert (H5 : forall (j k b : nat) (i : Z),
             (j < 1)%nat -> (k < number_of_ta_chunks 3)%nat -> (b < 1)%nat ->
             0 <= i < 32 -> 32 * Z.of_nat k + i < 3 ->
             Z.testbit ([7] !!! (j * number_of_ta_chunks 3 * 1 + k * 1 + b)%nat) i
             = Z.testbit ([15] !!! (j * number_of_ta_chunks 3 * 1 + k * 1 + b)%nat) i).
  { intros j k b i Hj Hk Hb Hi Hlt. vm_compute in Hk.
    assert (j = 0%nat) as -> by lia. assert (k = 0%nat) as -> by lia.
    assert (b = 0%nat) as -> by lia.
    assert (i = 0 \/ i = 1 \/ i = 2) as [-> | [-> | ->]] by lia; reflexivity. }
  split; [exact H1|]. split; [exact H2|]. split; [exact H3|]. split; [exact H4|].
  split; [exact H5|].
  exact (proj1 (tail_masking [7] [15] 1 3 1 1 [0] [15] [255] H1 H2 H3 H4 H5)).
Defined.

(** Scenario S5 through the theorem: the search answers [-1] or a literal
    below [F = 4]. *)
Lemma single_false_literal_search_witness :
  1 <= 4 /\ Forall is_word [15]
  /\ fst (cb_calculate_clause_output_single_false_literal [15] 0
            (number_of_ta_chunks 4) 1 (cb_filter 4) [15] [14; 12] 2 (rng_of_list []))
     <> -1.
Proof.
  assert (H1 : 1 <= 4) by lia.
  assert (H2 : Forall is_word [15])
    by (repeat constructor; unfold word_mod; lia).
  split; [exact H1|]. split; [exact H2|].
  destruct (single_false_literal_search [15] 0 4 1 2 [15] [14; 12] (rng_of_list [])
              H1 H2) as (n' & cands & _ & Hstop & _ & Hcol & _ & Hnone & _).
  intros Hres. apply Hnone in Hres. subst cands.
  destruct n' as [|n'].
  - specialize (Hstop ltac:(lia)). vm_compute in Hstop. lia.
  - vm_compute in Hcol. inversion Hcol.
Defined.

(** Scenario S5, evaluated: one offending bit gives that literal, two give
    none. *)
Example offending_literal_scenario :
  fst (cb_calculate_clause_output_single_false_literal [15] 0
         (number_of_ta_chunks 4) 1 (cb_filter 4) [15] [14] 1 (rng_of_list [])) = 0
  /\ fst (cb_calculate_clause_output_single_false_literal [15] 0
            (number_of_ta_chunks 4) 1 (cb_filter 4) [15] [12] 1 (rng_of_list []))
     = -1.
Proof. split; reflexivity. Qed.

(** Scenario S3, evaluated. *)
Example saturating_inc_scenario :
  cb_inc [word_max; word_max] 0 word_max 2 = [word_max; word_max]
  /\ cb_inc [1; 0; 7] 0 3 2 = [2; 1; 7]
  /\ cb_dec [1; 0; 7] 0 3 2 = [0; 0; 7].
Proof. repeat split. Qed.

(** A Type III call on two clauses: clause 0 is inactive and keeps its
    cells, clause 1 is active and loses one from its counter. *)
Lemma inactive_clause_untouched_witness :
  1 <= 1
  /\ Forall is_word [1; 1]
  /\ run_feedback Z threshold_gt threshold_le example_normal
       (TypeIII Z 1 word_max 0 1)
       {| ta_state := [1; 1]; ind_state := [0; 0]; clause_and_target := [0; 0] |}
       2 1 1 1 [0; 1] [1] [1] (rng_of_list [])
     = Some ({| ta_state := [1; 0]; ind_state := [0; 0];
                clause_and_target := [0; word_max] |},
             skip_draws 3 (rng_of_list []))
  /\ (0 < 2)%nat
  /\ [0; 1] !!! 0%nat = 0
  /\ [1; 0] !!! 0%nat = [1; 1] !!! 0%nat
  /\ [0; word_max] !!! 0%nat = [0; 0] !!! 0%nat.
Proof.
  assert (H1 : 1 <= 1) by lia.
  assert (H2 : Forall is_word [1; 1]) by (repeat constructor; unfold word_mod; lia).
  assert (H3 : run_feedback Z threshold_gt threshold_le example_normal
                 (TypeIII Z 1 word_max 0 1)
                 {| ta_state := [1; 1]; ind_state := [0; 0];
                    clause_and_target := [0; 0] |}
                 2 1 1 1 [0; 1] [1] [1] (rng_of_list [])
               = Some ({| ta_state := [1; 0]; ind_state := [0; 0];
                          clause_and_target := [0; word_max] |},
                       skip_draws 3 (rng_of_list [])))
    by reflexivity.
  assert (H4 : (0 < 2)%nat) by lia.
  assert (H5 : [0; 1] !!! 0%nat = 0) by reflexivity.
  split; [exact H1|]. split; [exact H2|]. split; [exact H3|]. split; [exact H4|].
  split; [exact H5|].
  destruct (inactive_clause_untouched Z threshold_gt threshold_le example_normal
              (TypeIII Z 1 word_max 0 1)
              {| ta_state := [1; 1]; ind_state := [0; 0];
                 clause_and_target := [0; 0] |}
              {| ta_state := [1; 0]; ind_state := [0; 0];
                 clause_and_target := [0; word_max] |}
              2 1 1 1 [0; 1] [1] [1] (rng_of_list [])
              (skip_draws 3 (rng_of_list [])) 0 1
              H1 H2 H3 H4 H5 eq_refl) as (Hta & _ & Hcat).
  split.
  - exact (Hta 0%nat 0%nat (le_n 1) (le_n 1)).
  - exact (Hcat 0%nat (le_n 1)).
Defined.

(** Type II on two clauses, the first inactive: three draws, at least one
    per clause. *)
Lemma update_draw_order_witness :
  (forall (n s : Z) (g : rng), (drawn g <= drawn (snd (example_normal n s g)))%nat)
  /\ Nat.le (drawn (rng_of_list []) + 2)%nat
       (drawn (snd (cb_type_ii_feedback Z threshold_gt [0; 0] 2 1 1 1 word_max
                      [0; 1] [1] [0] (rng_of_list []))))
  /\ type_iii_clause Z threshold_gt threshold_le 1 1 1 1 word_max 0 [0; 1] [1] [0] 0
       0 ({| ta_state := [0; 0]; ind_state := [0; 0]; clause_and_target := [0; 0] |},
          rng_of_list [])
     = ({| ta_state := [0; 0]; ind_state := [0; 0]; clause_and_target := [0; 0] |},
        rng_of_list []).
Proof.
  assert (H1 : forall (n s : Z) (g : rng),
             (drawn g <= drawn (snd (example_normal n s g)))%nat)
    by (intros n s g; cbn; apply Nat.le_succ_diag_r).
  split; [exact H1|].
  pose proof (update_draw_order Z threshold_gt threshold_le example_normal H1
                5 [0; 0]
                {| ta_state := [0; 0]; ind_state := [0; 0];
                   clause_and_target := [0; 0] |}
                2 1 1 1 1 word_max 2 0 1 0 [0; 1] [1] [0] (rng_of_list []))
    as H.
  cbv zeta in H. destruct H as (_ & (_ & Hii & _) & (Hiii & _)).
  split; [exact Hii|].
  exact (Hiii 0%nat _ _ eq_refl).
Defined.

(** Scenario S6 through the theorem: clause 1 fires on a patch where its
    excluded literal is false, and the counter of that literal goes from 0
    to 1. *)
Lemma feedback_counter_effects_witness :
  1 <= 1 /\ (1 <= 1)%nat
  /\ length [0; 0] = (2 * number_of_ta_chunks 1 * 1)%nat
  /\ Forall is_word [0; 0] /\ Forall is_word [1]
  /\ counter (fst (cb_type_ii_feedback Z threshold_gt [0; 0] 2 1 1 1 word_max
                     [0; 1] [1] [0] (rng_of_list []))) 1 1 0
     = 1.
Proof.
  assert (H1 : 1 <= 1) by lia.
  assert (H2 : (1 <= 1)%nat) by lia.
  assert (H3 : length [0; 0] = (2 * number_of_ta_chunks 1 * 1)%nat) by reflexivity.
  assert (H4 : Forall is_word [0; 0]) by (repeat constructor; unfold word_mod; lia).
  assert (H5 : Forall is_word [1]) by (repeat constructor; unfold word_mod; lia).
  split; [exact H1|]. split; [exact H2|]. split; [exact H3|]. split; [exact H4|].
  split; [exact H5|].
  pose proof (feedback_counter_effects Z threshold_gt threshold_le example_normal
                5 [0; 0] 2 1 1 1 word_max 2 1 [0; 1] [1] [0] (rng_of_list [])
                H1 H2 H3 H4 H5) as H.
  cbv zeta in H. destruct H as ((_ & _ & Hii) & _).
  assert (Hk : (0 < number_of_ta_chunks 1)%nat) by (vm_compute; lia).
  assert (Hi : 0 <= 0 < 32) by lia.
  exact (proj1 (Hii 1%nat 0%nat 0 (le_n 2) Hk Hi)).
Defined.

(** The last step of Type III on a clause with one excluded literal whose
    counter is 1. *)
Lemma type_iii_final_decrement_witness :
  1 <= 1 /\ (1 <= 1)%nat /\ Forall is_word [1; 0]
  /\ length [1; 0] = (1 * number_of_ta_chunks 1 * 2)%nat
  /\ (0 < 1)%nat /\ (0 < number_of_ta_chunks 1)%nat /\ 0 <= 0 < 32
  /\ [1] !!! 0%nat <> 0
  /\ counter
       (ta_state
          (fst (cb_type_iii_feedback Z threshold_gt threshold_le
                  {| ta_state := [1; 0]; ind_state := [0];
                     clause_and_target := [0] |}
                  1 1 2 1 1 word_max 0 [1] [1] [1] 0 (rng_of_list []))))
       0 2 0
     = 0.
Proof.
  assert (H1 : 1 <= 1) by lia.
  assert (H2 : (1 <= 1)%nat) by lia.
  assert (H3 : Forall is_word [1; 0]) by (repeat constructor; unfold word_mod; lia).
  assert (H4 : length [1; 0] = (1 * number_of_ta_chunks 1 * 2)%nat) by reflexivity.
  assert (H5 : (0 < 1)%nat) by lia.
  assert (H6 : (0 < number_of_ta_chunks 1)%nat) by (vm_compute; lia).
  assert (H7 : 0 <= 0 < 32) by lia.
  assert (H8 : [1] !!! 0%nat <> 0) by (vm_compute; discriminate).
  split; [exact H1|]. split; [exact H2|]. split; [exact H3|]. split; [exact H4|].
  split; [exact H5|]. split; [exact H6|]. split; [exact H7|]. split; [exact H8|].
  exact (type_iii_final_decrement Z threshold_gt threshold_le
           {| ta_state := [1; 0]; ind_state := [0]; clause_and_target := [0] |}
           1 1 2 1 1 word_max 0 [1] [1] [1] 0 (rng_of_list []) 0 0 0
           H1 H2 H3 H4 H5 H6 H7 H8).
Defined.

(** C3, as stated, fails: the literal is excluded (action bit 0) and its
    counter is 1; the clause is active, its draw passes, and the counter
    goes down to 0. *)
Lemma excluded_literal_is_decremented :
  ~ (forall (bk : bank) (C : nat) (F : Z) (B_ta B_ind P : nat) (update_p d : Z)
            (clause_active literal_active Xi : list Z) (target : Z) (g : rng)
            (j k : nat) (i : Z),
        1 <= F -> (1 <= B_ta)%nat -> (1 <= B_ind)%nat ->
        Forall is_word (ta_state bk) ->
        length (ta_state bk) = (C * number_of_ta_chunks F * B_ta)%nat ->
        (j < C)%nat -> (k < number_of_ta_chunks F)%nat -> 0 <= i < 32 ->
        clause_active !!! j <> 0 ->
        Z.testbit (action_word (ta_state bk)
                     (j * number_of_ta_chunks F * B_ta) B_ta k) i = false ->
        counter
          (ta_state
             (fst (cb_type_iii_feedback Z threshold_gt threshold_le bk C F B_ta
                     B_ind P update_p d clause_active literal_active Xi target g)))
          (j * number_of_ta_chunks F * B_ta + k * B_ta) B_ta i
        = counter (ta_state bk)
            (j * number_of_ta_chunks F * B_ta + k * B_ta) B_ta i).
Proof.
  intros H.
  specialize (H {| ta_state := [1; 0]; ind_state := [0]; clause_and_target := [0] |}
                1%nat 1 2%nat 1%nat 1%nat word_max 0 [1] [1] [1] 0 (rng_of_list [])
                0%nat 0%nat 0).
  assert (H3 : Forall is_word [1; 0]) by (repeat constructor; unfold word_mod; lia).
  specialize (H ltac:(lia) ltac:(lia) ltac:(lia) H3 eq_refl ltac:(lia)
                ltac:(vm_compute; lia) ltac:(lia)
                ltac:(vm_compute; discriminate) eq_refl).
  vm_compute in H. discriminate.
Qed.

(** Type II with [literal_active] clear beyond bit [F-1]: the padding of
    the action plane stays clear. *)
Lemma padding_not_activated_witness :
  1 <= 1 /\ (1 <= 1)%nat /\ Forall is_word [0] /\ Forall is_word [1]
  /\ length [0] = (1 * number_of_ta_chunks 1 * 1)%nat
  /\ run_feedback Z threshold_gt threshold_le example_normal (TypeII Z word_max)
       {| ta_state := [0]; ind_state := []; clause_and_target := [] |}
       1 1 1 1 [1] [1] [0] (rng_of_list [])
     = Some ({| ta_state := [1]; ind_state := []; clause_and_target := [] |},
             skip_draws 2 (rng_of_list []))
  /\ (forall i', 0 <= i' < 32 ->
        1 <= 32 * (Z.of_nat (number_of_ta_chunks 1) - 1) + i' ->
        Z.testbit ([1] !!! (number_of_ta_chunks 1 - 1)%nat) i' = false)
  /\ (0 < 1)%nat /\ 0 <= 1 < 32
  /\ 1 <= 32 * (Z.of_nat (number_of_ta_chunks 1) - 1) + 1
  /\ Z.testbit (action_word [0] (0 * number_of_ta_chunks 1 * 1) 1
                  (number_of_ta_chunks 1 - 1)) 1 = false
  /\ Z.testbit (action_word [1] (0 * number_of_ta_chunks 1 * 1) 1
                  (number_of_ta_chunks 1 - 1)) 1 = false.
Proof.
  assert (H1 : 1 <= 1) by lia.
  assert (H2 : (1 <= 1)%nat) by lia.
  assert (H3 : Forall is_word [0]) by (repeat constructor; unfold word_mod; lia).
  assert (H4 : Forall is_word [1]) by (repeat constructor; unfold word_mod; lia).
  assert (H5 : length [0] = (1 * number_of_ta_chunks 1 * 1)%nat) by reflexivity.
  assert (H6 : run_feedback Z threshold_gt threshold_le example_normal
                 (TypeII Z word_max)
                 {| ta_state := [0]; ind_state := []; clause_and_target := [] |}
                 1 1 1 1 [1] [1] [0] (rng_of_list [])
               = Some ({| ta_state := [1]; ind_state := [];
                          clause_and_target := [] |},
                       skip_draws 2 (rng_of_list [])))
    by reflexivity.
  assert (H7 : forall i', 0 <= i' < 32 ->
             1 <= 32 * (Z.of_nat (number_of_ta_chunks 1) - 1) + i' ->
             Z.testbit ([1] !!! (number_of_ta_chunks 1 - 1)%nat) i' = false).
  { intros i' Hi' Hpad. change ([1] !!! (number_of_ta_chunks 1 - 1)%nat) with 1.
    change (Z.of_nat (number_of_ta_chunks 1)) with 1 in Hpad.
    apply Z.bits_above_log2; simpl; lia. }
  assert (H8 : (0 < 1)%nat) by lia.
  assert (H9 : 0 <= 1 < 32) by lia.
  assert (H10 : 1 <= 32 * (Z.of_nat (number_of_ta_chunks 1) - 1) + 1)
    by (vm_compute; discriminate).
  assert (H11 : Z.testbit (action_word [0] (0 * number_of_ta_chunks 1 * 1) 1
                             (number_of_ta_chunks 1 - 1)) 1 = false)
    by reflexivity.
  split; [exact H1|]. split; [exact H2|]. split; [exact H3|]. split; [exact H4|].
  split; [exact H5|]. split; [exact H6|]. split; [exact H7|]. split; [exact H8|].
  split; [exact H9|]. split; [exact H10|]. split; [exact H11|].
  exact (padding_not_activated Z threshold_gt threshold_le example_normal
           (TypeII Z word_max)
           {| ta_state := [0]; ind_state := []; clause_and_target := [] |}
           {| ta_state := [1]; ind_state := []; clause_and_target := [] |}
           1 1 1 1 [1] [1] [0] (rng_of_list []) (skip_draws 2 (rng_of_list []))
           0 1 H1 H2 H3 H4 H5 H6 H7 H8 H9 H10 H11).
Defined.

(** C4, as stated, fails: with [F = 1] and one state bit, all action bits
    are 0 before a Type II call; [literal_active] is all ones and [Xi] all
    zeros, and the call switches on the 31 action bits of the padding. *)
Lemma padding_is_activated :
  ~ (forall (call : feedback_call Z) (bk bk' : bank) (C : nat) (F : Z) (B P : nat)
            (clause_active literal_active Xi : list Z) (g g' : rng) (j : nat),
        1 <= F -> (1 <= B)%nat ->
        Forall is_word (ta_state bk) -> Forall is_word literal_active ->
        Forall is_word Xi ->
        length (ta_state bk) = (C * number_of_ta_chunks F * B)%nat ->
        run_feedback Z threshold_gt threshold_le example_normal call bk C F B P
          clause_active literal_active Xi g = Some (bk', g') ->
        (j < C)%nat ->
        (forall i, 0 <= i < 32 ->
           F <= 32 * (Z.of_nat (number_of_ta_chunks F) - 1) + i ->
           Z.testbit (action_word (ta_state bk) (j * number_of_ta_chunks F * B) B
                        (number_of_ta_chunks F - 1)) i = false) ->
        forall i, 0 <= i < 32 ->
          F <= 32 * (Z.of_nat (number_of_ta_chunks F) - 1) + i ->
          Z.testbit (action_word (ta_state bk') (j * number_of_ta_chunks F * B) B
                       (number_of_ta_chunks F - 1)) i = false).
Proof.
  intros H.
  specialize (H (TypeII Z word_max)
                {| ta_state := [0]; ind_state := []; clause_and_target := [] |}
                {| ta_state := [word_max]; ind_state := []; clause_and_target := [] |}
                1%nat 1 1%nat 1%nat [1] [word_max] [0] (rng_of_list [])
                (skip_draws 2 (rng_of_list [])) 0%nat).
  assert (H3 : Forall is_word [0]) by (repeat constructor; unfold word_mod; lia).
  assert (H4 : Forall is_word [word_max])
    by (repeat constructor; unfold word_max, word_mod; lia).
  specialize (H ltac:(lia) ltac:(lia) H3 H4 H3 eq_refl eq_refl ltac:(lia)).
  assert (Hzero : forall i, 0 <= i < 32 ->
            1 <= 32 * (Z.of_nat (number_of_ta_chunks 1) - 1) + i ->
            Z.testbit (action_word [0] (0 * number_of_ta_chunks 1 * 1) 1
                         (number_of_ta_chunks 1 - 1)) i = false).
  { intros i _ _. change (action_word [0] (0 * number_of_ta_chunks 1 * 1) 1
                            (number_of_ta_chunks 1 - 1)) with 0.
    apply Z.testbit_0_l. }
  specialize (H Hzero 1 ltac:(lia) ltac:(vm_compute; discriminate)).
  vm_compute in H. discriminate.
Qed.

(** Type Ia with [boost_true_positive_feedback]: two literals with counters
    at 1, both true on the patch; the clause has no included literal, so it
    matches, and both counters go to 2. *)
Example type_ia_boost_scenario :
  cb_type_i_feedback Z threshold_gt example_normal 5 [3; 0] 1 2 2 1 word_max 2 1
    [1] [3] [3] (rng_of_list [])
  = Some ([0; 3], skip_draws 3 (rng_of_list [])).
Proof. reflexivity. Qed.

(** * The further properties at concrete inputs *)

Lemma inc_dec_round_trip_witness :
  Forall is_word [1; 0] /\ is_word 1 /\ (0 + 2 <= length [1; 0])%nat
  /\ (forall i, 0 <= i < 32 -> Z.testbit 1 i = true ->
        counter [1; 0] 0 2 i < 2 ^ Z.of_nat 2 - 1)
  /\ cb_dec (cb_inc [1; 0] 0 1 2) 0 1 2 = [1; 0].
Proof.
  assert (H1 : Forall is_word [1; 0]) by (repeat constructor; unfold word_mod; lia).
  assert (H2 : is_word 1) by (unfold is_word, word_mod; lia).
  assert (H3 : (0 + 2 <= length [1; 0])%nat) by (simpl; lia).
  assert (H4 : forall i, 0 <= i < 32 -> Z.testbit 1 i = true ->
                 counter [1; 0] 0 2 i < 2 ^ Z.of_nat 2 - 1).
  { intros i Hi Hb. destruct (Z.eq_dec i 0) as [->|Hne]; [vm_compute; reflexivity|].
    rewrite Z.bits_above_log2 in Hb by (simpl; lia). discriminate. }
  split; [exact H1|]. split; [exact H2|]. split; [exact H3|]. split; [exact H4|].
  exact (proj1 (inc_dec_round_trip [1; 0] 0 1 2 H1 H2 H3) H4).
Defined.

Lemma counter_update_frame_witness :
  (2 < 0 \/ 0 + 2 <= 2)%nat
  /\ cb_inc [1; 0; 5] 0 1 2 !!! 2%nat = [1; 0; 5] !!! 2%nat
  /\ cb_dec [1; 0; 5] 0 1 2 !!! 2%nat = [1; 0; 5] !!! 2%nat.
Proof.
  assert (H1 : (2 < 0 \/ 0 + 2 <= 2)%nat) by (right; simpl; lia).
  split; [exact H1|].
  exact (proj1 (counter_update_frame [1; 0; 5] 0 1 2 2 H1)).
Defined.

Lemma feedback_mode_output_witness :
  (1 <= 1)%nat
  /\ fst (fst (cb_calculate_clause_output_feedback [0] 0 1 1 (cb_filter 2) [3] [1] 1
                 (rng_of_list [])))
     = cb_calculate_clause_output_update [0] 0 1 1 (cb_filter 2) [3] [1] 1.
Proof.
  assert (H1 : (1 <= 1)%nat) by lia.
  split; [exact H1|].
  exact (proj2 (proj2 (proj2
           (feedback_mode_output [0] 0 1 1 (cb_filter 2) [3] [1] 1
              (rng_of_list []) H1)))).
Defined.

Lemma predict_mode_output_witness :
  (1 <= 1)%nat
  /\ (cb_calculate_clause_output_predict [1] 0 1 1 (cb_filter 2) [1] 1 = 0
      \/ cb_calculate_clause_output_predict [1] 0 1 1 (cb_filter 2) [1] 1 = 1).
Proof.
  assert (H1 : (1 <= 1)%nat) by lia.
  split; [exact H1|].
  exact (proj1 (predict_mode_output [1] 0 1 1 (cb_filter 2) [1] 1 H1)).
Defined.

Lemma predict_implies_update_witness :
  (1 <= 1)%nat
  /\ (cb_calculate_clause_output_predict [1] 0 1 1 (cb_filter 2) [1] 1 = 1 ->
      cb_calculate_clause_output_update [1] 0 1 1 (cb_filter 2) [0] [1] 1 = 1).
Proof.
  assert (H1 : (1 <= 1)%nat) by lia.
  split; [exact H1|].
  exact (proj1 (predict_implies_update [1] 0 1 1 (cb_filter 2) [0] [1] 1 H1)).
Defined.

Lemma patchwise_mode_output_witness :
  (1 <= 1)%nat /\ (0 + 1 <= length [7])%nat
  /\ length (cb_calculate_clause_output_patchwise [1] 0 1 1 (cb_filter 2) [1] 1 [7] 0)
     = length [7].
Proof.
  assert (H1 : (1 <= 1)%nat) by lia.
  assert (H2 : (0 + 1 <= length [7])%nat) by (simpl; lia).
  split; [exact H1|]. split; [exact H2|].
  exact (proj1 (patchwise_mode_output [1] 0 1 1 (cb_filter 2) [1] 1 [7] 0 H1 H2)).
Defined.

Lemma clause_outputs_cells_witness :
  1 <= 2 /\ (1 <= length [7])%nat
  /\ length (cb_calculate_clause_outputs_update [1] 1 2 1 1 [7] [3] [1]) = length [7]
  /\ length (cb_calculate_clause_outputs_predict [1] 1 2 1 1 [7] [1]) = length [7].
Proof.
  assert (H1 : 1 <= 2) by lia.
  assert (H2 : (1 <= length [7])%nat) by (simpl; lia).
  split; [exact H1|]. split; [exact H2|].
  exact (proj1 (clause_outputs_cells [1] 1 2 1 1 [7] [3] [1] H1 H2)).
Defined.

Lemma patchwise_outputs_table_witness :
  1 <= 2 /\ (1 * 1 <= length [7])%nat /\ (1 <= length [8])%nat
  /\ length (cb_calculate_clause_outputs_patchwise [1] 1 2 1 1 [7] [1]) = length [7].
Proof.
  assert (H1 : 1 <= 2) by lia.
  assert (H2 : (1 * 1 <= length [7])%nat) by (simpl; lia).
  assert (H3 : (1 <= length [8])%nat) by (simpl; lia).
  split; [exact H1|]. split; [exact H2|]. split; [exact H3|].
  exact (proj1 (patchwise_outputs_table [1] 1 2 1 1 [7] [8] [1] H1 H2 H3)).
Defined.

Lemma random_stream_mask_witness :
  1 <= 2 /\ 2 <= 32 * Z.of_nat 1
  /\ cb_initialize_random_streams Z example_normal 3 2 1 0 (rng_of_list [1; 0])
     = Some ([1], skip_draws 2 (rng_of_list [1; 0]))
  /\ Z.of_nat (total_bits [1])
     = Z.max 0 (Z.min (fst (example_normal 2 0 (rng_of_list [1; 0]))) 2).
Proof.
  assert (H1 : 1 <= 2) by lia.
  assert (H2 : 2 <= 32 * Z.of_nat 1) by lia.
  assert (H3 : cb_initialize_random_streams Z example_normal 3 2 1 0
                 (rng_of_list [1; 0])
               = Some ([1], skip_draws 2 (rng_of_list [1; 0])))
    by reflexivity.
  split; [exact H1|]. split; [exact H2|]. split; [exact H3|].
  exact (proj2 (proj2 (proj2
           (random_stream_mask Z example_normal 3 2 1 0 (rng_of_list [1; 0])
              [1] (skip_draws 2 (rng_of_list [1; 0])) H1 H2 H3)))).
Defined.

Lemma random_stream_distinct_draws_witness :
  1 <= 2 /\ 2 <= 32 * Z.of_nat 1
  /\ (forall m m' : nat,
        Nat.lt m m'
        /\ Nat.lt m' (clamp_active (fst (example_normal 2 0 (rng_of_list [2; 0; 1]))) 2) ->
        drawn_feature 2 (snd (example_normal 2 0 (rng_of_list [2; 0; 1]))) m
        <> drawn_feature 2 (snd (example_normal 2 0 (rng_of_list [2; 0; 1]))) m')
  /\ exists fb,
       cb_initialize_random_streams Z example_normal 1 2 1 0 (rng_of_list [2; 0; 1])
       = Some (fb, skip_draws 2 (snd (example_normal 2 0 (rng_of_list [2; 0; 1])))).
Proof.
  assert (H1 : 1 <= 2) by lia.
  assert (H2 : 2 <= 32 * Z.of_nat 1) by lia.
  assert (H3 : forall m m' : nat,
             Nat.lt m m'
             /\ Nat.lt m' (clamp_active
                             (fst (example_normal 2 0 (rng_of_list [2; 0; 1]))) 2) ->
             drawn_feature 2 (snd (example_normal 2 0 (rng_of_list [2; 0; 1]))) m
             <> drawn_feature 2 (snd (example_normal 2 0 (rng_of_list [2; 0; 1]))) m').
  { intros m m' Hm.
    change (clamp_active (fst (example_normal 2 0 (rng_of_list [2; 0; 1]))) 2)
      with 2%nat in Hm.
    assert (Hm0 : m = 0%nat) by lia. assert (Hm1 : m' = 1%nat) by lia.
    subst m m'. vm_compute. discriminate. }
  split; [exact H1|]. split; [exact H2|]. split; [exact H3|].
  destruct (random_stream_distinct_draws Z example_normal 0 2 1 0
              (rng_of_list [2; 0; 1]) H1 H2 H3) as (fb & Hrun & _).
  exists fb. exact Hrun.
Defined.

Lemma random_stream_same_draws_witness :
  2 <= 2 /\ 2 <= 32 * Z.of_nat 1
  /\ 2 <= fst (example_normal 2 0 (rng_of_list [2]))
  /\ (forall m : nat,
        drawn_feature 2 (snd (example_normal 2 0 (rng_of_list [2]))) m
        = drawn_feature 2 (snd (example_normal 2 0 (rng_of_list [2]))) 0)
  /\ forall fuel,
       cb_initialize_random_streams Z example_normal fuel 2 1 0 (rng_of_list [2])
       = None.
Proof.
  assert (H1 : 2 <= 2) by lia.
  assert (H2 : 2 <= 32 * Z.of_nat 1) by lia.
  assert (H3 : 2 <= fst (example_normal 2 0 (rng_of_list [2])))
    by (vm_compute; discriminate).
  assert (H4 : forall m : nat,
             drawn_feature 2 (snd (example_normal 2 0 (rng_of_list [2]))) m
             = drawn_feature 2 (snd (example_normal 2 0 (rng_of_list [2]))) 0).
  { intros m. unfold drawn_feature. cbn [example_normal fast_rand rng_of_list
      snd stream drawn Nat.add nth]. destruct m; reflexivity. }
  split; [exact H1|]. split; [exact H2|]. split; [exact H3|]. split; [exact H4|].
  exact (random_stream_same_draws Z example_normal 2 1 0 (rng_of_list [2])
           H1 H2 H3 H4).
Defined.

Lemma type_iii_ledger_witness :
  1 <= 1 /\ Forall is_word [0]
  /\ (0 * number_of_ta_chunks 1 + number_of_ta_chunks 1 <= length [0])%nat
  /\ [1] !!! 0%nat <> 0
  /\ cb_calculate_clause_output_update [0] (0 * number_of_ta_chunks 1 * 1)
       (number_of_ta_chunks 1) 1 (cb_filter 1) [1] [1] 1 = 1
  /\ clause_and_target
       (fst (type_iii_clause Z threshold_gt threshold_le 1 1 1 1 word_max 0
               [1] [1] [1] 1 0
               ({| ta_state := [0]; ind_state := [1]; clause_and_target := [0] |},
                rng_of_list []))) !!! 0%nat
     = word_max.
Proof.
  assert (H1 : 1 <= 1) by lia.
  assert (H2 : Forall is_word [0]) by (repeat constructor; unfold word_mod; lia).
  assert (H3 : (0 * number_of_ta_chunks 1 + number_of_ta_chunks 1 <= length [0])%nat)
    by (vm_compute; lia).
  assert (H4 : [1] !!! 0%nat <> 0) by (vm_compute; discriminate).
  assert (H5 : cb_calculate_clause_output_update [0] (0 * number_of_ta_chunks 1 * 1)
                 (number_of_ta_chunks 1) 1 (cb_filter 1) [1] [1] 1 = 1)
    by reflexivity.
  assert (H6 : (0 < number_of_ta_chunks 1)%nat) by (vm_compute; lia).
  split; [exact H1|]. split; [exact H2|]. split; [exact H3|]. split; [exact H4|].
  split; [exact H5|].
  exact (proj1 (type_iii_ledger Z threshold_gt threshold_le 1 1 1 1 word_max 0
                  [1] [1] [1] 1 0
                  {| ta_state := [0]; ind_state := [1]; clause_and_target := [0] |}
                  (rng_of_list []) H1 H2 H2 H3 H4) H5 0%nat H6).
Defined.

Lemma type_i_direction_witness :
  1 <= 2 /\ Forall is_word [3] /\ (0 < number_of_ta_chunks 2)%nat
  /\ (0 * number_of_ta_chunks 2 * 2 + number_of_ta_chunks 2 * 2 <= length [3; 0])%nat
  /\ 0 <= 0 < 32
  /\ (forall m m' : nat,
        Nat.lt m m'
        /\ Nat.lt m'
             (clamp_active
                (fst (example_normal 2 2
                        (snd (cb_calculate_clause_output_feedback [3; 0]
                                (0 * number_of_ta_chunks 2 * 2)
                                (number_of_ta_chunks 2) 2 (cb_filter 2) [3] [3] 1
                                (snd (fast_rand (rng_of_list [0; 0; 2; 0; 1])))))))
                2) ->
        drawn_feature 2
          (snd (example_normal 2 2
                  (snd (cb_calculate_clause_output_feedback [3; 0]
                          (0 * number_of_ta_chunks 2 * 2)
                          (number_of_ta_chunks 2) 2 (cb_filter 2) [3] [3] 1
                          (snd (fast_rand (rng_of_list [0; 0; 2; 0; 1])))))))
          m
        <> drawn_feature 2
             (snd (example_normal 2 2
                     (snd (cb_calculate_clause_output_feedback [3; 0]
                             (0 * number_of_ta_chunks 2 * 2)
                             (number_of_ta_chunks 2) 2 (cb_filter 2) [3] [3] 1
                             (snd (fast_rand (rng_of_list [0; 0; 2; 0; 1])))))))
             m')
  /\ exists ta' g',
       type_i_clause Z threshold_gt example_normal 1 2 2 1 word_max 2 1 [1] [3] [3] 0
         ([3; 0], rng_of_list [0; 0; 2; 0; 1])
       = Some (ta', g')
       /\ counter ta' 0 2 0 = Z.min (counter [3; 0] 0 2 0 + 1) (2 ^ Z.of_nat 2 - 1).
Proof.
  assert (H1 : 1 <= 2) by lia.
  assert (H2 : Forall is_word [3]) by (repeat constructor; unfold word_mod; lia).
  assert (H3 : (0 < number_of_ta_chunks 2)%nat) by (vm_compute; lia).
  assert (H4 : (0 * number_of_ta_chunks 2 * 2 + number_of_ta_chunks 2 * 2
                <= length [3; 0])%nat) by (vm_compute; lia).
  assert (H5 : 0 <= 0 < 32) by lia.
  assert (H6 : forall m m' : nat,
        Nat.lt m m'
        /\ Nat.lt m'
             (clamp_active
                (fst (example_normal 2 2
                        (snd (cb_calculate_clause_output_feedback [3; 0]
                                (0 * number_of_ta_chunks 2 * 2)
                                (number_of_ta_chunks 2) 2 (cb_filter 2) [3] [3] 1
                                (snd (fast_rand (rng_of_list [0; 0; 2; 0; 1])))))))
                2) ->
        drawn_feature 2
          (snd (example_normal 2 2
                  (snd (cb_calculate_clause_output_feedback [3; 0]
                          (0 * number_of_ta_chunks 2 * 2)
                          (number_of_ta_chunks 2) 2 (cb_filter 2) [3] [3] 1
                          (snd (fast_rand (rng_of_list [0; 0; 2; 0; 1])))))))
          m
        <> drawn_feature 2
             (snd (example_normal 2 2
                     (snd (cb_calculate_clause_output_feedback [3; 0]
                             (0 * number_of_ta_chunks 2 * 2)
                             (number_of_ta_chunks 2) 2 (cb_filter 2) [3] [3] 1
                             (snd (fast_rand (rng_of_list [0; 0; 2; 0; 1])))))))
             m').
  { intros m m' [Hm Hm']. vm_compute in Hm'.
    assert (Hm0 : m = 0%nat) by (unfold Nat.lt in Hm; lia).
    assert (Hm1 : m' = 1%nat) by (unfold Nat.lt in Hm; lia).
    subst m m'. vm_compute. discriminate. }
  split; [exact H1|]. split; [exact H2|]. split; [exact H3|]. split; [exact H4|].
  split; [exact H5|]. split; [exact H6|].
  destruct (proj2 (type_i_direction Z threshold_gt example_normal 0 2 2 1 word_max 2 1
                     [1] [3] [3] 0 [3; 0] (rng_of_list [0; 0; 2; 0; 1]) 0 0
                     H1 H2 H3 H4 H5) H6)
    as (ta' & g' & Hret & _ & _ & _ & Hboost).
  exists ta', g'. split; [exact Hret|].
  apply Hboost; vm_compute; first [reflexivity | discriminate].
Defined.

Lemma literal_frequency_counts_witness :
  0 <= 2 /\ (Z.to_nat 2 <= length [9; 9; 9])%nat
  /\ cb_calculate_literal_frequency [1; 2] 2 2 1 [9; 9; 9] !!! 0%nat
     = Z.of_nat (including_clauses [1; 2] (number_of_ta_chunks 2) 1 2 0) mod word_mod.
Proof.
  assert (H1 : 0 <= 2) by lia.
  assert (H2 : (Z.to_nat 2 <= length [9; 9; 9])%nat) by (vm_compute; lia).
  assert (H3 : (0 < Z.to_nat 2)%nat) by (vm_compute; lia).
  split; [exact H1|]. split; [exact H2|].
  exact (proj1 (proj2 (literal_frequency_counts [1; 2] 2 2 1 [9; 9; 9] H1 H2))
           0%nat H3).
Defined.

Lemma type_iii_indicators_witness :
  Forall is_word [1] /\ (0 < number_of_ta_chunks 1)%nat
  /\ (0 * number_of_ta_chunks 1 * 1 + number_of_ta_chunks 1 * 1 <= length [1])%nat
  /\ 0 <= 0 < 32 /\ [1] !!! 0%nat <> 0
  /\ counter
       (ind_state
          (fst (type_iii_clause Z threshold_gt threshold_le 1 1 1 1 word_max 0
                  [1] [1] [1] 1 0
                  ({| ta_state := [0]; ind_state := [1]; clause_and_target := [0] |},
                   rng_of_list []))))
       0 1 0
     = 0.
Proof.
  assert (H1 : Forall is_word [1]) by (repeat constructor; unfold word_mod; lia).
  assert (H2 : (0 < number_of_ta_chunks 1)%nat) by (vm_compute; lia).
  assert (H3 : (0 * number_of_ta_chunks 1 * 1 + number_of_ta_chunks 1 * 1
                <= length [1])%nat) by (vm_compute; lia).
  assert (H4 : 0 <= 0 < 32) by lia.
  assert (H5 : [1] !!! 0%nat <> 0) by (vm_compute; discriminate).
  split; [exact H1|]. split; [exact H2|]. split; [exact H3|]. split; [exact H4|].
  split; [exact H5|].
  exact (type_iii_indicators Z threshold_gt threshold_le 1 1 1 1 word_max 0
           [1] [1] [1] 1 0
           {| ta_state := [0]; ind_state := [1]; clause_and_target := [0] |}
           (rng_of_list []) 0 0 H1 H2 H3 H4 H5).
Defined.

Lemma type_ia_keeps_match_witness :
  type_i_clause Z threshold_gt example_normal 5 2 2 1 word_max 2 1 [1] [3] [3] 0
    ([3; 0], rng_of_list [])
  = Some ([0; 3], skip_draws 3 (rng_of_list []))
  /\ 1 <= 2 /\ (1 <= 2)%nat /\ Forall is_word [3; 0] /\ Forall is_word [3]
  /\ (0 * number_of_ta_chunks 2 * 2 + number_of_ta_chunks 2 * 2 <= length [3; 0])%nat
  /\ fst (fst (cb_calculate_clause_output_feedback [3; 0]
                 (0 * number_of_ta_chunks 2 * 2) (number_of_ta_chunks 2) 2
                 (cb_filter 2) [3] [3] 1 (snd (fast_rand (rng_of_list []))))) <> 0
  /\ patch_matches [0; 3] 0 1 2 (cb_filter 2) (masked_input 1 [3] [3] 0).
Proof.
  assert (H1 : type_i_clause Z threshold_gt example_normal 5 2 2 1 word_max 2 1
                 [1] [3] [3] 0 ([3; 0], rng_of_list [])
               = Some ([0; 3], skip_draws 3 (rng_of_list [])))
    by reflexivity.
  assert (H2 : 1 <= 2) by lia.
  assert (H3 : (1 <= 2)%nat) by lia.
  assert (H4 : Forall is_word [3; 0]) by (repeat constructor; unfold word_mod; lia).
  assert (H5 : Forall is_word [3]) by (repeat constructor; unfold word_mod; lia).
  assert (H6 : (0 * number_of_ta_chunks 2 * 2 + number_of_ta_chunks 2 * 2
                <= length [3; 0])%nat) by (vm_compute; lia).
  assert (H7 : fst (fst (cb_calculate_clause_output_feedback [3; 0]
                           (0 * number_of_ta_chunks 2 * 2) (number_of_ta_chunks 2) 2
                           (cb_filter 2) [3] [3] 1
                           (snd (fast_rand (rng_of_list []))))) <> 0)
    by (vm_compute; discriminate).
  split; [exact H1|]. split; [exact H2|]. split; [exact H3|]. split; [exact H4|].
  split; [exact H5|]. split; [exact H6|]. split; [exact H7|].
  exact (type_ia_keeps_match Z threshold_gt example_normal 5 2 2 1 word_max 2 1
           [1] [3] [3] 0 [3; 0] (rng_of_list []) [0; 3]
           (skip_draws 3 (rng_of_list [])) H1 H2 H3 H4 H5 H6 H7).
Defined.
